(** * Storage engine of one shard (database.cc): a shallow embedding

    The development follows the layout of [database.cc].  Each C++ class or
    group of free functions is a [Module]; the definitions come first and the
    properties proved about them follow in the second half of the file.

    Conventions.
    - [int64_t] and the clock counts are [Z]; unsigned quantities are [N].
      A narrowing cast is written out ([to_uint32]).
    - A [void] function that may throw returns a sum-like result that keeps
      the state reached when the exception left the function.
    - [lw_shared_ptr<T>] objects that are aliased live in an explicit heap
      ([gmap loc T]); a pointer is a location. *)

From Stdlib Require Import ZArith NArith Lia List Bool.
From stdpp Require Import base option list gmap.

Local Open Scope Z_scope.

(* [set_solver] clears hypotheses by name while it searches. *)
#[local] Set Warnings "-clear-no-such-hyp".

(* ===================================================================== *)
(** ** Cell reconciliation: [compare_atomic_cell_for_merge]               *)
(* ===================================================================== *)

Module cell.

Definition bytes := list Byte.byte.

(** Modelled from the spec: [atomic_cell_view] is declared in
    atomic_cell.hh.  A cell carries a 64-bit timestamp and is either live
    (a value, and optionally a TTL with its expiry) or deleted (a deletion
    time).  [ttl] holds the pair (ttl, expiry), both in [gc_clock] seconds. *)
Inductive atomic_cell_view : Type :=
| live (ts : Z) (v : bytes) (ttl : option (Z * Z))
| dead (ts : Z) (deleted_at : Z).

Definition timestamp (c : atomic_cell_view) : Z :=
  match c with live ts _ _ => ts | dead ts _ => ts end.

Definition is_live (c : atomic_cell_view) : bool :=
  match c with live _ _ _ => true | dead _ _ => false end.

Definition is_live_and_has_ttl (c : atomic_cell_view) : bool :=
  match c with live _ _ (Some _) => true | _ => false end.

(** The accessors below are only called by the source under the guard that
    makes them meaningful; outside of it they return a default. *)
Definition value (c : atomic_cell_view) : bytes :=
  match c with live _ v _ => v | dead _ _ => [] end.

Definition expiry (c : atomic_cell_view) : Z :=
  match c with live _ _ (Some (_, e)) => e | _ => 0 end.

Definition deletion_time (c : atomic_cell_view) : Z :=
  match c with dead _ d => d | live _ _ _ => 0 end.

(** [(uint32_t) x] *)
Definition to_uint32 (x : Z) : Z := x mod 2 ^ 32.

(** Modelled from the spec: [compare_unsigned] (bytes.hh) orders two byte
    strings lexicographically, bytes taken as unsigned; a proper prefix is
    smaller.  Only the sign of the result is specified. *)
Fixpoint compare_unsigned (v1 v2 : bytes) : Z :=
  match v1, v2 with
  | [], [] => 0
  | [], _ :: _ => -1
  | _ :: _, [] => 1
  | b1 :: t1, b2 :: t2 =>
      match N.compare (Byte.to_N b1) (Byte.to_N b2) with
      | Lt => -1
      | Gt => 1
      | Eq => compare_unsigned t1 t2
      end
  end.

(** database.cc, [compare_atomic_cell_for_merge].  A positive result means
    that [left] is kept, a negative one that [right] is. *)
Definition compare_atomic_cell_for_merge (left right : atomic_cell_view) : Z :=
  if negb (timestamp left =? timestamp right) then
    (if timestamp left >? timestamp right then 1 else -1)
  else if negb (Bool.eqb (is_live left) (is_live right)) then
    (if is_live left then -1 else 1)
  else if is_live left then
    let c := compare_unsigned (value left) (value right) in
    if negb (c =? 0) then c
    else if is_live_and_has_ttl left
            && is_live_and_has_ttl right
            && negb (expiry left =? expiry right)
    then (if expiry left <? expiry right then -1 else 1)
    else 0
  else
    (* Both are deleted *)
    if negb (deletion_time left =? deletion_time right) then
      (if to_uint32 (deletion_time left) <? to_uint32 (deletion_time right)
       then -1 else 1)
    else 0.

(** The byte-lexicographic order in relational form, to state the
    reconciliation order independently of [compare_unsigned]. *)
Inductive lex_lt : bytes -> bytes -> Prop :=
| lex_lt_nil b t : lex_lt [] (b :: t)
| lex_lt_head b1 b2 t1 t2 :
    (Byte.to_N b1 < Byte.to_N b2)%N -> lex_lt (b1 :: t1) (b2 :: t2)
| lex_lt_tail b t1 t2 : lex_lt t1 t2 -> lex_lt (b :: t1) (b :: t2).

(** Which cell the merge keeps. *)
Definition left_wins (l r : atomic_cell_view) : Prop :=
  0 < compare_atomic_cell_for_merge l r.
Definition right_wins (l r : atomic_cell_view) : Prop :=
  compare_atomic_cell_for_merge l r < 0.

(** Two expiring cells that differ only in their expiry. *)
Definition expiring_10 : atomic_cell_view := live 7 [Byte.x61] (Some (5, 10)).
Definition expiring_20 : atomic_cell_view := live 7 [Byte.x61] (Some (5, 20)).

End cell.

(* ===================================================================== *)
(** ** Replay positions                                                   *)
(* ===================================================================== *)

Module replay_position.

(** Modelled from the spec: [db::replay_position] (replay_position.hh)
    identifies a commit-log append by (segment id, offset); positions are
    ordered by segment id, then by offset.  The default-constructed
    position, [db::replay_position()], is (0, 0). *)
Record t : Type := mk { id : N; pos : N }.

Definition zero : t := mk 0 0.

Definition eqb (a b : t) : bool := ((id a =? id b) && (pos a =? pos b))%N.

Definition ltb (a b : t) : bool :=
  ((id a <? id b) || ((id a =? id b) && (pos a <? pos b)))%N.

Definition leb (a b : t) : bool := negb (ltb b a).

Definition max (a b : t) : t := if ltb a b then b else a.

End replay_position.

(* ===================================================================== *)
(** ** The write path: [column_family::apply], [database::apply]          *)
(* ===================================================================== *)

Module write_path.

Definition uuid := N.

(** [schema_ptr]: only what the write path looks at. *)
Record schema : Type := { is_synced : bool; version : N }.

Record frozen_mutation : Type :=
  { column_family_id : uuid; representation : list Byte.byte }.

Record mutation : Type :=
  { m_column_family_id : uuid; m_partition : list Byte.byte }.

(** What a memtable was given, in the order of arrival. *)
Inductive applied : Type :=
| applied_mutation (m : mutation)
| applied_frozen (m : frozen_mutation) (m_schema : schema).

(** Modelled from the spec: the memtable (memtable.cc) holds the mutations
    applied to it and records the highest replay position of any of them. *)
Record memtable : Type :=
  { contents : list applied; highest_rp : replay_position.t }.

Definition new_memtable : memtable :=
  {| contents := []; highest_rp := replay_position.zero |}.

Definition memtable_empty (mt : memtable) : bool :=
  match contents mt with [] => true | _ => false end.

Definition memtable_apply (mt : memtable) (w : applied) (rp : replay_position.t)
  : memtable :=
  {| contents := contents mt ++ [w];
     highest_rp := replay_position.max (highest_rp mt) rp |}.

Inductive exn : Type :=
| replay_position_reordered_exception
| no_such_column_family (id : uuid)
| runtime_error_schema_not_synced.

(** How a [void] member function left: normally, or by an exception; in
    both cases with the state it reached. *)
Inductive completion (S : Type) : Type :=
| returned (s : S)
| threw (e : exn) (s : S).
Arguments returned {S} s.
Arguments threw {S} e s.

Module column_family.

(** The members of [column_family] the write path touches.  [_memtables]
    is represented by its active memtable; [_commitlog] says whether the
    commit-log pointer is non-null; [writes] is the count kept by
    [_stats.writes] (the latency samples themselves are wall-clock time and
    are left out). *)
Record t : Type :=
  { active_memtable : memtable;
    _highest_flushed_rp : replay_position.t;
    _commitlog : bool;
    writes : N }.

Definition with_active (cf : t) (mt : memtable) : t :=
  {| active_memtable := mt;
     _highest_flushed_rp := _highest_flushed_rp cf;
     _commitlog := _commitlog cf;
     writes := writes cf |}.

Definition mark_write (cf : t) : t :=
  {| active_memtable := active_memtable cf;
     _highest_flushed_rp := _highest_flushed_rp cf;
     _commitlog := _commitlog cf;
     writes := (writes cf + 1)%N |}.

(** [column_family::check_valid_rp]: [Some e] when it throws [e]. *)
Definition check_valid_rp (cf : t) (rp : replay_position.t) : option exn :=
  if replay_position.ltb rp (_highest_flushed_rp cf)
  then Some replay_position_reordered_exception
  else None.

(** [column_family::apply(const mutation&, const db::replay_position&)] *)
Definition apply (cf : t) (m : mutation) (rp : replay_position.t)
  : completion t :=
  let cf := with_active cf
              (memtable_apply (active_memtable cf) (applied_mutation m) rp) in
  returned (mark_write cf).

(** [column_family::apply(const frozen_mutation&, const schema_ptr&,
                          const db::replay_position&)] *)
Definition apply_frozen (cf : t) (m : frozen_mutation) (m_schema : schema)
    (rp : replay_position.t) : completion t :=
  match check_valid_rp cf rp with
  | Some e => threw e cf
  | None =>
      let cf := with_active cf
                  (memtable_apply (active_memtable cf)
                     (applied_frozen m m_schema) rp) in
      returned (mark_write cf)
  end.

(** The synchronous head of [column_family::seal_active_memtable]: a
    non-empty active memtable is replaced by a fresh one and its replay
    position becomes the highest flushed one.  [seal_assertion] is the
    condition of the [assert] that guards the update. *)
Definition seal_assertion (cf : t) : bool :=
  replay_position.ltb (_highest_flushed_rp cf) (highest_rp (active_memtable cf))
  || (replay_position.eqb (_highest_flushed_rp cf) replay_position.zero
      && replay_position.eqb (highest_rp (active_memtable cf)) replay_position.zero).

Definition seal_active_memtable (cf : t) : t :=
  let old := active_memtable cf in
  if memtable_empty old then cf
  else {| active_memtable := new_memtable;
          _highest_flushed_rp := highest_rp old;
          _commitlog := _commitlog cf;
          writes := writes cf |}.

End column_family.

Module database.

Inductive log_line : Type :=
| error_mutate_non_existent_table (id : uuid)
| debug_replay_position_reordering.

(** The per-shard state the write path works on: the [database] members
    [_column_families] and [_stats->total_writes], and the lines written to
    the file-level logger [dblog]. *)
Record t : Type :=
  { _column_families : gmap uuid column_family.t;
    total_writes : N;
    dblog : list log_line }.

Definition set_column_family (d : t) (id : uuid) (cf : column_family.t) : t :=
  {| _column_families := <[id := cf]> (_column_families d);
     total_writes := total_writes d;
     dblog := dblog d |}.

Definition log (d : t) (l : log_line) : t :=
  {| _column_families := _column_families d;
     total_writes := total_writes d;
     dblog := dblog d ++ [l] |}.

Definition count_write (d : t) : t :=
  {| _column_families := _column_families d;
     total_writes := (total_writes d + 1)%N;
     dblog := dblog d |}.

(** [database::drop_column_family], the erasure from [_column_families]. *)
Definition erase_column_family (id : uuid) (d : t) : t :=
  {| _column_families := delete id (_column_families d);
     total_writes := total_writes d;
     dblog := dblog d |}.

(** [database::find_column_family(const utils::UUID&)] *)
Definition find_column_family (d : t) (id : uuid) : column_family.t + exn :=
  match _column_families d !! id with
  | Some cf => inl cf
  | None => inr (no_such_column_family id)
  end.

(** [database::apply_in_memory].  The region group is taken to have memory
    available, so the function body runs at once. *)
Definition apply_in_memory (d : t) (m : frozen_mutation) (m_schema : schema)
    (rp : replay_position.t) : completion t :=
  match find_column_family d (column_family_id m) with
  | inr _ =>
      (* catch (no_such_column_family&) *)
      returned (log d (error_mutate_non_existent_table (column_family_id m)))
  | inl cf =>
      match column_family.apply_frozen cf m m_schema rp with
      | returned cf' => returned (set_column_family d (column_family_id m) cf')
      | threw (no_such_column_family _) cf' =>
          returned (log (set_column_family d (column_family_id m) cf')
                        (error_mutate_non_existent_table (column_family_id m)))
      | threw e cf' => threw e (set_column_family d (column_family_id m) cf')
      end
  end.

(** The commit log is an external collaborator.  One answer of
    [commitlog::add_entry] is the replay position it resolves with, together
    with what the other fibers of the shard did to the database while the
    write was suspended on the append. *)
Record add_entry_answer : Type :=
  { rp_of : replay_position.t; meanwhile : t -> t }.

(** How a write ended: its future resolved, failed, or is still waiting
    for the commit log when the known answers run out. *)
Inductive outcome : Type :=
| resolved (d : t) (rest : list add_entry_answer)
| failed (e : exn) (d : t) (rest : list add_entry_answer)
| waiting (d : t).

(** [.then([this, s = _stats] { ++s->total_writes; })] *)
Definition then_count_write (o : outcome) : outcome :=
  match o with
  | resolved d rest => resolved (count_write d) rest
  | other => other
  end.

Definition of_completion (c : completion t) (rest : list add_entry_answer)
  : outcome :=
  match c with
  | returned d => resolved d rest
  | threw e d => failed e d rest
  end.

(** [database::do_apply].  The handler of the reordering exception calls
    [database::apply] again; that call is [then_count_write (do_apply ...)],
    see [apply] below. *)
Fixpoint do_apply (cl : list add_entry_answer) (d : t) (s : schema)
    (m : frozen_mutation) : outcome :=
  let uuid := column_family_id m in
  match find_column_family d uuid with
  | inr e => failed e d cl
  | inl cf =>
      if negb (is_synced s) then failed runtime_error_schema_not_synced d cl
      else if column_family._commitlog cf then
        match cl with
        | [] => waiting d
        | answer :: cl =>
            let d := meanwhile answer d in
            match apply_in_memory d m s (rp_of answer) with
            | returned d => resolved d cl
            | threw replay_position_reordered_exception d =>
                then_count_write
                  (do_apply cl (log d debug_replay_position_reordering) s m)
            | threw e d => failed e d cl
            end
        end
      else of_completion (apply_in_memory d m s replay_position.zero) cl
  end.

(** [database::apply] (the trace-level line it may log is left out). *)
Definition apply (cl : list add_entry_answer) (d : t) (s : schema)
    (m : frozen_mutation) : outcome :=
  then_count_write (do_apply cl d s m).

End database.

(** *** Concrete scenarios *)

Definition synced : schema := {| is_synced := true; version := 1 |}.

Definition cf7 : column_family.t :=
  {| column_family.active_memtable := new_memtable;
     column_family._highest_flushed_rp := replay_position.zero;
     column_family._commitlog := true;
     column_family.writes := 0 |}.

(** A column family that has already flushed up to position (1, 50). *)
Definition cf7_flushed : column_family.t :=
  {| column_family.active_memtable := new_memtable;
     column_family._highest_flushed_rp := replay_position.mk 1 50;
     column_family._commitlog := true;
     column_family.writes := 0 |}.

Definition db_one_table : database.t :=
  {| database._column_families := {[ 7%N := cf7 ]};
     database.total_writes := 0;
     database.dblog := [] |}.

Definition db_no_table : database.t :=
  {| database._column_families := ∅;
     database.total_writes := 0;
     database.dblog := [] |}.

Definition write_to_7 : frozen_mutation :=
  {| column_family_id := 7%N; representation := [Byte.x01] |}.

Definition other_write_to_7 : frozen_mutation :=
  {| column_family_id := 7%N; representation := [Byte.x02] |}.

Definition plain_write_to_7 : mutation :=
  {| m_column_family_id := 7%N; m_partition := [Byte.x03] |}.

(** What a racing flush does while our write waits for the commit log:
    another write with position [rp] lands in the memtable of table 7, and
    the memtable is then sealed. *)
Definition racing_flush (rp : replay_position.t) (d : database.t) : database.t :=
  match database.apply_in_memory d other_write_to_7 synced rp with
  | returned d | threw _ d =>
      match database._column_families d !! 7%N with
      | Some cf => database.set_column_family d 7%N (column_family.seal_active_memtable cf)
      | None => d
      end
  end.

Definition quiet (rp : replay_position.t) : database.add_entry_answer :=
  {| database.rp_of := rp; database.meanwhile := fun d => d |}.

Definition raced (rp flushed : replay_position.t) : database.add_entry_answer :=
  {| database.rp_of := rp; database.meanwhile := racing_flush flushed |}.

(** The append of our write is overtaken by a flush twice in a row; the
    third append is not. *)
Definition overtaken_twice : list database.add_entry_answer :=
  [ raced (replay_position.mk 1 10) (replay_position.mk 1 11);
    raced (replay_position.mk 1 20) (replay_position.mk 1 21);
    quiet (replay_position.mk 1 30) ].

(** The table is dropped while the append is in flight. *)
Definition dropped_meanwhile : list database.add_entry_answer :=
  [ {| database.rp_of := replay_position.mk 1 10;
       database.meanwhile := database.erase_column_family 7%N |} ].

(** The state a write reaches after [n] reordered appends and a good one. *)
Definition after_retries (d : database.t) (m : frozen_mutation) (s : schema)
    (cf : column_family.t) (good : replay_position.t) (n : nat) : database.t :=
  {| database._column_families :=
       <[column_family_id m :=
           column_family.mark_write
             (column_family.with_active cf
                (memtable_apply (column_family.active_memtable cf)
                   (applied_frozen m s) good))]> (database._column_families d);
     database.total_writes := (database.total_writes d + N.of_nat (S n))%N;
     database.dblog :=
       database.dblog d ++ repeat database.debug_replay_position_reordering n |}.

(** The database as a write finds it when the commit log is asked again
    after the appends [lows] came back reordered: what the other fibers did
    during each append, and the debug line of each retry. *)
Definition after_reordered (lows : list database.add_entry_answer)
    (d : database.t) : database.t :=
  fold_left
    (fun d low =>
       database.log (database.meanwhile low d)
                    database.debug_replay_position_reordering)
    lows d.

(** Each append of [lows] comes back, after what the other fibers did
    meanwhile, below the position the table has flushed by then; the table
    still has its commit log. *)
Fixpoint all_reordered (m : frozen_mutation)
    (lows : list database.add_entry_answer) (d : database.t) : Prop :=
  match lows with
  | [] => True
  | low :: lows =>
      (exists cf,
         database._column_families (database.meanwhile low d)
           !! column_family_id m = Some cf /\
         replay_position.ltb (database.rp_of low)
           (column_family._highest_flushed_rp cf) = true /\
         column_family._commitlog cf = true) /\
      all_reordered m lows
        (database.log (database.meanwhile low d)
                      database.debug_replay_position_reordering)
  end.

(** The state a write reaches when its append number [n + 1] is in order:
    [d] is the database and [cf] the table as that append finds them. *)
Definition after_attempts (d : database.t) (m : frozen_mutation) (s : schema)
    (cf : column_family.t) (rp : replay_position.t) (n : nat) : database.t :=
  {| database._column_families :=
       <[column_family_id m :=
           column_family.mark_write
             (column_family.with_active cf
                (memtable_apply (column_family.active_memtable cf)
                   (applied_frozen m s) rp))]> (database._column_families d);
     database.total_writes := (database.total_writes d + N.of_nat (S n))%N;
     database.dblog := database.dblog d |}.

(** Table 7 after the two racing flushes of [overtaken_twice]. *)
Definition cf7_flushed_twice : column_family.t :=
  {| column_family.active_memtable := new_memtable;
     column_family._highest_flushed_rp := replay_position.mk 1 21;
     column_family._commitlog := true;
     column_family.writes := 2 |}.

Definition db_flushed : database.t :=
  {| database._column_families := {[ 7%N := cf7_flushed ]};
     database.total_writes := 0;
     database.dblog := [] |}.

(** Two appends in a row come back below the flushed position (1, 50). *)
Definition reordered_twice : list database.add_entry_answer :=
  [ quiet (replay_position.mk 1 10);
    quiet (replay_position.mk 1 20);
    quiet (replay_position.mk 1 60) ].

Definition cf7_written (rp flushed : replay_position.t) (n : N) : column_family.t :=
  {| column_family.active_memtable :=
       {| contents := [applied_frozen write_to_7 synced]; highest_rp := rp |};
     column_family._highest_flushed_rp := flushed;
     column_family._commitlog := true;
     column_family.writes := n |}.

End write_path.

(* ===================================================================== *)
(** ** Sstable filtering for the single-key reader                        *)
(* ===================================================================== *)

Module sstable_filter.

Definition bytes := list Byte.byte.

(** [std::numeric_limits<int64_t>::max()] *)
Definition INT64_MAX : Z := 2 ^ 63 - 1.

(** Modelled from the spec: [nonwrapping_range<T>] (range.hh) has an
    optional bound on each side, each bound with its inclusiveness; a range
    without bounds is full. *)
Record range_bound (T : Type) : Type :=
  { bound_value : T; is_inclusive : bool }.
Arguments bound_value {T} _.
Arguments is_inclusive {T} _.

Record nonwrapping_range (T : Type) : Type :=
  { range_start : option (range_bound T); range_end : option (range_bound T) }.
Arguments range_start {T} _.
Arguments range_end {T} _.

Definition is_full {T} (r : nonwrapping_range T) : bool :=
  match range_start r, range_end r with
  | None, None => true
  | _, _ => false
  end.

Definition make_open_ended_both_sides {T} : nonwrapping_range T :=
  {| range_start := None; range_end := None |}.

(** [ck_filter_clustering_key_components], [ck_filter_clustering_key_ranges] *)
Definition ck_filter_clustering_key_components := list (nonwrapping_range bytes).
Definition ck_filter_clustering_key_ranges := list ck_filter_clustering_key_components.

(** A clustering range bounds clustering-key prefixes, i.e. component lists. *)
Definition clustering_range := nonwrapping_range (list bytes).

Record partition_slice : Type := { get_all_ranges : list clustering_range }.

Record stats_metadata : Type :=
  { min_timestamp : Z;
    max_timestamp : Z;
    (** the bins of [estimated_tombstone_drop_time.bin.map] *)
    estimated_tombstone_drop_time : list (Z * N) }.

Record sstable : Type :=
  { generation : N;
    (** the answer of the bloom filter, [filter_has_key] *)
    filter_has_key : bytes -> bool;
    get_stats_metadata : stats_metadata;
    clustering_components_ranges : list (nonwrapping_range bytes) }.

(** The counters of [cf_stats] the filter updates. *)
Record cf_stats : Type :=
  { clustering_filter_count : Z;
    sstables_checked_by_clustering_filter : Z;
    clustering_filter_fast_path_count : Z;
    surviving_sstables_after_clustering_filter : Z }.

Inductive result (A : Type) : Type :=
| ok (a : A)
| runtime_error.   (* "clustering key filter passed more components ..." *)
Arguments ok {A} a.
Arguments runtime_error {A}.

Section with_types.

(** The clustering-key column types are declared in types.hh.  A type is
    used through its three-way comparison and, from range.hh, through the
    overlap test of two ranges under that comparison. *)
Variable data_type : Type.
Variable type_compare : data_type -> bytes -> bytes -> Z.
Variable overlaps :
  data_type -> nonwrapping_range bytes -> nonwrapping_range bytes -> bool.

Record schema : Type := { clustering_key_types : list data_type }.

Definition clustering_key_size (s : schema) : nat :=
  length (clustering_key_types s).

Definition components_of (b : option (range_bound (list bytes))) : list bytes :=
  match b with
  | Some b => bound_value b
  | None => []   (* clustering_key_prefix::make_empty().components() *)
  end.

(** [r.start()->is_inclusive()]; only reached when the bound is there. *)
Definition inclusive_of (b : option (range_bound (list bytes))) : bool :=
  match b with Some b => is_inclusive b | None => false end.

(** The [while] loop of [ranges_for_clustering_key_filter]: it peels the
    leading components that are equal on both sides.  The result holds the
    singular ranges and what is left of both component lists. *)
Fixpoint singular_prefix (types : list data_type) (start end_ : list bytes)
  : result (ck_filter_clustering_key_components * list bytes * list bytes) :=
  match start, end_ with
  | s :: start', e :: end' =>
      match types with
      | [] => runtime_error
      | ty :: types' =>
          if type_compare ty s e =? 0 then
            match singular_prefix types' start' end' with
            | ok (rs, start_it, end_it) =>
                ok ({| range_start := Some {| bound_value := s; is_inclusive := true |};
                       range_end := Some {| bound_value := e; is_inclusive := true |} |}
                      :: rs, start_it, end_it)
            | runtime_error => runtime_error
            end
          else ok ([], start, end_)
      end
  | _, _ => ok ([], start, end_)
  end.

(** "handle a single non-singular tail element, if present" *)
Definition tail_range (r : clustering_range) (start_it end_it : list bytes)
  : ck_filter_clustering_key_components :=
  match start_it, end_it with
  | s :: _, e :: _ =>
      [ {| range_start := Some {| bound_value := s;
                                  is_inclusive := inclusive_of (range_start r) |};
           range_end := Some {| bound_value := e;
                                is_inclusive := inclusive_of (range_end r) |} |} ]
  | s :: _, [] =>
      [ {| range_start := Some {| bound_value := s;
                                  is_inclusive := inclusive_of (range_start r) |};
           range_end := None |} ]
  | [], e :: _ =>
      [ {| range_start := None;
           range_end := Some {| bound_value := e;
                                is_inclusive := inclusive_of (range_end r) |} |} ]
  | [], [] => []
  end.

Fixpoint ranges_for_clustering_key_filter (s : schema)
    (ck_filtering_all_ranges : list clustering_range)
  : result ck_filter_clustering_key_ranges :=
  match ck_filtering_all_ranges with
  | [] => ok []
  | r :: rest =>
      if is_full r then
        match ranges_for_clustering_key_filter s rest with
        | ok ranges => ok ([make_open_ended_both_sides] :: ranges)
        | runtime_error => runtime_error
        end
      else
        match singular_prefix (clustering_key_types s)
                (components_of (range_start r)) (components_of (range_end r)) with
        | runtime_error => runtime_error
        | ok (composite_ranges, start_it, end_it) =>
            match ranges_for_clustering_key_filter s rest with
            | ok ranges =>
                ok ((composite_ranges ++ tail_range r start_it end_it) :: ranges)
            | runtime_error => runtime_error
            end
        end
  end.

(** The [all_of] over [0 .. min(range.size(), components.size())) of
    [contains_rows]; the schema has a type for each of these components. *)
Fixpoint all_components_overlap (types : list data_type)
    (range components : list (nonwrapping_range bytes)) : bool :=
  match range, components, types with
  | r :: range', c :: components', ty :: types' =>
      (is_full r || overlaps ty r c)
      && all_components_overlap types' range' components'
  | _, _, _ => true
  end.

Definition contains_rows (sst : sstable) (s : schema)
    (ranges : ck_filter_clustering_key_ranges) : bool :=
  if (clustering_key_size s =? 0)%nat
     || (length (clustering_components_ranges sst) =? 0)%nat
  then true
  else existsb (fun range =>
         all_components_overlap (clustering_key_types s) range
           (clustering_components_ranges sst)) ranges.

(** The lambda [sstable_has_relevant_tombstone], with the captured
    [min_timestamp] as an argument. *)
Definition sstable_has_relevant_tombstone (min_ts : Z) (sst : sstable) : bool :=
  (max_timestamp (get_stats_metadata sst) >? min_ts)
  && negb (length (estimated_tombstone_drop_time (get_stats_metadata sst)) =? 0)%nat.

(** What the calls of [sstable_has_clustering_key] leave in [min_timestamp]:
    the predicate runs once on each sstable and lowers the variable on each
    sstable it accepts. *)
Definition min_timestamp_after (kept : list sstable) : Z :=
  fold_left (fun acc sst => Z.min acc (min_timestamp (get_stats_metadata sst)))
            kept INT64_MAX.

(** Lines 302-318: the two [std::partition] passes and the [erase].  The
    order in which [std::partition] leaves the elements of a group is
    unspecified; here each group keeps its original order. *)
Definition clustering_filter_pass (sstables : list sstable) (s : schema)
    (ranges : ck_filter_clustering_key_ranges) : list sstable :=
  let '(kept, skipped) :=
    List.partition (fun sst => contains_rows sst s ranges) sstables in
  let min_ts := min_timestamp_after kept in
  let '(rescued, actually_skipped) :=
    List.partition (sstable_has_relevant_tombstone min_ts) skipped in
  kept ++ rescued.

Definition is_single_full_range (rs : list clustering_range) : bool :=
  match rs with
  | [r] => is_full r
  | _ => false
  end.

(** [filter_sstable_for_reader]; [use_clustering_key_filter] is the answer
    of the compaction strategy of the column family. *)
Definition filter_sstable_for_reader (sstables : list sstable)
    (stats : cf_stats) (use_clustering_key_filter : bool)
    (s : schema) (key : bytes) (slice : partition_slice)
  : cf_stats * result (list sstable) :=
  let sstables := List.filter (fun sst => filter_has_key sst key) sstables in
  if (clustering_key_size s =? 0)%nat || negb use_clustering_key_filter then
    (stats, ok sstables)
  else
    let stats :=
      {| clustering_filter_count := clustering_filter_count stats + 1;
         sstables_checked_by_clustering_filter :=
           sstables_checked_by_clustering_filter stats + Z.of_nat (length sstables);
         clustering_filter_fast_path_count := clustering_filter_fast_path_count stats;
         surviving_sstables_after_clustering_filter :=
           surviving_sstables_after_clustering_filter stats |} in
    let ck_filtering_all_ranges := get_all_ranges slice in
    if is_single_full_range ck_filtering_all_ranges then
      ({| clustering_filter_count := clustering_filter_count stats;
          sstables_checked_by_clustering_filter :=
            sstables_checked_by_clustering_filter stats;
          clustering_filter_fast_path_count :=
            clustering_filter_fast_path_count stats + 1;
          surviving_sstables_after_clustering_filter :=
            surviving_sstables_after_clustering_filter stats
            + Z.of_nat (length sstables) |},
       ok sstables)
    else
      match ranges_for_clustering_key_filter s ck_filtering_all_ranges with
      | runtime_error => (stats, runtime_error)
      | ok [] => (stats, ok [])
      | ok ranges =>
          let sstables := clustering_filter_pass sstables s ranges in
          ({| clustering_filter_count := clustering_filter_count stats;
              sstables_checked_by_clustering_filter :=
                sstables_checked_by_clustering_filter stats;
              clustering_filter_fast_path_count :=
                clustering_filter_fast_path_count stats;
              surviving_sstables_after_clustering_filter :=
                surviving_sstables_after_clustering_filter stats
                + Z.of_nat (length sstables) |},
           ok sstables)
      end.

End with_types.

Arguments clustering_key_types {data_type} _.

(** *** A concrete schema: one clustering column compared as raw bytes *)

Inductive bytes_type : Type := bytes_type_instance.

Definition bytes_compare (_ : bytes_type) (a b : bytes) : Z :=
  cell.compare_unsigned a b.

(** Modelled from the spec: two ranges overlap unless one of them ends
    before the other starts. *)
Definition ends_before (e s : option (range_bound bytes)) : bool :=
  match e, s with
  | Some e, Some s =>
      let c := cell.compare_unsigned (bound_value e) (bound_value s) in
      (c <? 0) || ((c =? 0) && negb (is_inclusive e && is_inclusive s))
  | _, _ => false
  end.

Definition bytes_overlaps (_ : bytes_type) (a b : nonwrapping_range bytes) : bool :=
  negb (ends_before (range_end a) (range_start b))
  && negb (ends_before (range_end b) (range_start a)).

Definition one_column : schema bytes_type :=
  {| clustering_key_types := [bytes_type_instance] |}.

Definition closed (lo hi : Byte.byte) : nonwrapping_range bytes :=
  {| range_start := Some {| bound_value := [lo]; is_inclusive := true |};
     range_end := Some {| bound_value := [hi]; is_inclusive := true |} |}.

Definition sst (gen : N) (lo hi : Byte.byte) (min_ts max_ts : Z)
    (tombstones : list (Z * N)) : sstable :=
  {| generation := gen;
     filter_has_key := fun _ => true;
     get_stats_metadata :=
       {| min_timestamp := min_ts; max_timestamp := max_ts;
          estimated_tombstone_drop_time := tombstones |};
     clustering_components_ranges := [closed lo hi] |}.

(** The query asks for the clustering rows in [05, 0a]. *)
Definition slice_5_10 : partition_slice :=
  {| get_all_ranges :=
       [ {| range_start := Some {| bound_value := [[Byte.x05]]; is_inclusive := true |};
            range_end := Some {| bound_value := [[Byte.x0a]]; is_inclusive := true |} |} ] |}.

(** A: rows in [05, 0a], written at 100.  B: rows in [20, 30], with
    tombstones, written up to 200.  C: as B but older than A.  D: as B but
    without any tombstone. *)
Definition sst_A : sstable := sst 1 Byte.x05 Byte.x0a 100 100 [].
Definition sst_B : sstable := sst 2 Byte.x20 Byte.x30 150 200 [(1000, 1%N)].
Definition sst_C : sstable := sst 3 Byte.x20 Byte.x30 40 50 [(1000, 1%N)].
Definition sst_D : sstable := sst 4 Byte.x20 Byte.x30 150 300 [].

Definition no_stats : cf_stats :=
  {| clustering_filter_count := 0;
     sstables_checked_by_clustering_filter := 0;
     clustering_filter_fast_path_count := 0;
     surviving_sstables_after_clustering_filter := 0 |}.

End sstable_filter.

(* ===================================================================== *)
(** ** The sstable list of a column family and its rebuild                *)
(* ===================================================================== *)

Module sstable_list.

(** A [shared_sstable] is a pointer; sstables are told apart by identity. *)
Definition shared_sstable := N.

(** The address of an [sstable_set] object held through [lw_shared_ptr]. *)
Definition loc := N.

(** Modelled from the spec: [sstable_set] (compaction_strategy.hh) is a
    container of shared sstables with [insert] and [all()]; objects of that
    type live in a heap, and [_sstables] points to one of them.  Objects are
    not reclaimed in this model: a reference always stays valid. *)
Abbreviation sstable_set := (gset shared_sstable).
Abbreviation heap := (gmap loc (gset shared_sstable)).

Inductive delete_outcome : Type :=
| deleted                       (* every shard agreed, the files are gone *)
| atomic_deletion_cancelled
| delete_failed.                (* any other exception *)

Inductive log_line : Type :=
| debug_failed_to_delete_sstables_after_compaction.

Inductive exn : Type :=
| deletion_error.

Record column_family : Type :=
  { _sstables : loc;
    _sstables_compacted_but_not_deleted : list shared_sstable;
    live_disk_space_used : N;
    total_disk_space_used : N;
    live_sstable_count : N }.

Record state : Type :=
  { objects : gmap loc (gset shared_sstable);
    cf : column_family;
    dblog : list log_line }.

(** [*p] *)
Definition deref (h : heap) (p : loc) : sstable_set := default ∅ (h !! p).

(** [make_lw_shared(x)]: a new object at an address not in use. *)
Definition make_lw_shared (h : heap) (x : sstable_set) : heap * loc :=
  let p := fresh (dom h) in (<[p := x]> h, p).

(** [p->insert(sst)]: the object at [p] changes in place. *)
Definition insert_in_place (h : heap) (p : loc) (sst : shared_sstable) : heap :=
  alter (fun s => {[sst]} ∪ s) p h.

Definition set_sstables (c : column_family) (p : loc) : column_family :=
  {| _sstables := p;
     _sstables_compacted_but_not_deleted := _sstables_compacted_but_not_deleted c;
     live_disk_space_used := live_disk_space_used c;
     total_disk_space_used := total_disk_space_used c;
     live_sstable_count := live_sstable_count c |}.

Definition set_compacted (c : column_family) (l : list shared_sstable)
  : column_family :=
  {| _sstables := _sstables c;
     _sstables_compacted_but_not_deleted := l;
     live_disk_space_used := live_disk_space_used c;
     total_disk_space_used := total_disk_space_used c;
     live_sstable_count := live_sstable_count c |}.

(** [column_family::update_stats_for_new_sstable] *)
Definition update_stats_for_new_sstable (c : column_family)
    (disk_space_used_by_sstable : N) : column_family :=
  {| _sstables := _sstables c;
     _sstables_compacted_but_not_deleted := _sstables_compacted_but_not_deleted c;
     live_disk_space_used := (live_disk_space_used c + disk_space_used_by_sstable)%N;
     total_disk_space_used := (total_disk_space_used c + disk_space_used_by_sstable)%N;
     live_sstable_count := (live_sstable_count c + 1)%N |}.

Section with_sstable_metadata.

Variable bytes_on_disk : shared_sstable -> N.
Variable data_size : shared_sstable -> N.
Variable max_data_age : shared_sstable -> Z.

(** [column_family::add_sstable(lw_shared_ptr<sstables::sstable>)] *)
Definition add_sstable (st : state) (sstable : shared_sstable) : state :=
  (* allow in-progress reads to continue using old list *)
  let '(h, p) := make_lw_shared (objects st) (deref (objects st) (_sstables (cf st))) in
  let c := set_sstables (cf st) p in
  let c := update_stats_for_new_sstable c (bytes_on_disk sstable) in
  {| objects := insert_in_place h (_sstables c) sstable;
     cf := c;
     dblog := dblog st |}.

(** [column_family::rebuild_statistics] *)
Definition rebuild_statistics (h : heap) (c : column_family) : column_family :=
  let c := {| _sstables := _sstables c;
              _sstables_compacted_but_not_deleted :=
                _sstables_compacted_but_not_deleted c;
              live_disk_space_used := 0;
              total_disk_space_used := total_disk_space_used c;
              live_sstable_count := 0 |} in
  fold_left (fun c tab => update_stats_for_new_sstable c (data_size tab))
    (_sstables_compacted_but_not_deleted c ++ elements (deref h (_sstables c))) c.

(** The loop of [rebuild_sstable_list] over the new sstables followed by
    the current ones: what is not being removed goes to the new set, the
    rest to the list of compacted sstables. *)
Definition sort_out (s : gset shared_sstable) (tabs : list shared_sstable)
    (new_sstable_list : sstable_set)
    (new_compacted_but_not_deleted : list shared_sstable)
  : sstable_set * list shared_sstable :=
  fold_left
    (fun acc tab =>
       if bool_decide (tab ∈ s)
       then (acc.1, acc.2 ++ [tab])
       else ({[tab]} ∪ acc.1, acc.2))
    tabs (new_sstable_list, new_compacted_but_not_deleted).

(** [column_family::rebuild_sstable_list], up to the point where the
    deletion of the old sstables is started in the background. *)
Definition rebuild_sstable_list (st : state)
    (new_sstables sstables_to_remove : list shared_sstable) : state :=
  let current_sstables := _sstables (cf st) in
  let s : gset shared_sstable := list_to_set sstables_to_remove in
  let '(new_sstable_list, new_compacted_but_not_deleted) :=
    sort_out s (new_sstables ++ elements (deref (objects st) current_sstables))
      ∅ (_sstables_compacted_but_not_deleted (cf st)) in
  let '(h, p) := make_lw_shared (objects st) new_sstable_list in
  let c := set_compacted (set_sstables (cf st) p) new_compacted_but_not_deleted in
  {| objects := h; cf := rebuild_statistics h c; dblog := dblog st |}.

(** The continuation of [sstables::delete_atomically(sstables_to_remove)]
    in [rebuild_sstable_list], run when the deletion has completed with
    [outcome].  The second component is the exception, if any, that the
    background future is left with. *)
Definition delete_atomically_completed (st : state)
    (sstables_to_remove : list shared_sstable) (outcome : delete_outcome)
  : state * option exn :=
  (* unconditionally remove compacted sstables from
     _sstables_compacted_but_not_deleted *)
  let s : gset shared_sstable := list_to_set sstables_to_remove in
  let remaining :=
    List.filter (fun sst => negb (bool_decide (sst ∈ s)))
      (_sstables_compacted_but_not_deleted (cf st)) in
  let c := rebuild_statistics (objects st) (set_compacted (cf st) remaining) in
  let st := {| objects := objects st; cf := c; dblog := dblog st |} in
  match outcome with
  | deleted => (st, None)
  | atomic_deletion_cancelled =>
      ({| objects := objects st; cf := cf st;
          dblog := dblog st ++ [debug_failed_to_delete_sstables_after_compaction] |},
       None)
  | delete_failed => (st, Some deletion_error)
  end.

(** [column_family::set_compaction_strategy]: a set of the new strategy is
    filled with the current sstables and published. *)
Definition set_compaction_strategy (st : state) : state :=
  let new_sstables : sstable_set :=
    fold_left (fun acc s => {[s]} ∪ acc)
      (elements (deref (objects st) (_sstables (cf st)))) ∅ in
  let '(h, p) := make_lw_shared (objects st) new_sstables in
  {| objects := h; cf := set_sstables (cf st) p; dblog := dblog st |}.

(** [column_family::discard_sstables], the pruning of the list: sstables
    not newer than the truncation point leave the set. *)
Definition discard_sstables (st : state) (gc_trunc : Z) : state :=
  let pruned : sstable_set :=
    fold_left
      (fun acc p => if max_data_age p <=? gc_trunc then acc else {[p]} ∪ acc)
      (elements (deref (objects st) (_sstables (cf st)))) ∅ in
  let '(h, p) := make_lw_shared (objects st) pruned in
  {| objects := h; cf := set_sstables (cf st) p; dblog := dblog st |}.

(** Everything that changes the sstable list of a column family. *)
Inductive mutator : Type :=
| do_add_sstable (sstable : shared_sstable)
| do_rebuild_sstable_list (new_sstables sstables_to_remove : list shared_sstable)
| do_delete_atomically_completed (sstables_to_remove : list shared_sstable)
                                 (outcome : delete_outcome)
| do_set_compaction_strategy
| do_discard_sstables (gc_trunc : Z).

Definition step (st : state) (m : mutator) : state :=
  match m with
  | do_add_sstable sst => add_sstable st sst
  | do_rebuild_sstable_list new_sstables to_remove =>
      rebuild_sstable_list st new_sstables to_remove
  | do_delete_atomically_completed to_remove outcome =>
      (delete_atomically_completed st to_remove outcome).1
  | do_set_compaction_strategy => set_compaction_strategy st
  | do_discard_sstables gc_trunc => discard_sstables st gc_trunc
  end.

(** The mutators that run, in this order, while a reader is suspended. *)
Definition run (st : state) (ms : list mutator) : state := fold_left step ms st.

End with_sstable_metadata.

(** *** A concrete column family *)

Definition size_1k (_ : shared_sstable) : N := 1024.
Definition age_0 (_ : shared_sstable) : Z := 0.

(** Sstables 1 and 2 are live; nothing is waiting for deletion. *)
Definition two_sstables : state :=
  {| objects := {[ 0%N := ({[ 1%N; 2%N ]} : gset shared_sstable) ]};
     cf := {| _sstables := 0%N;
              _sstables_compacted_but_not_deleted := [];
              live_disk_space_used := 2048;
              total_disk_space_used := 2048;
              live_sstable_count := 2 |};
     dblog := [] |}.

(** Sstables 1 and 2 have been compacted into sstable 3. *)
Definition compacted_into_3 : state :=
  rebuild_sstable_list size_1k two_sstables [3%N] [1%N; 2%N].

End sstable_list.

(* ===================================================================== *)
(** ** Sstable discovery: [column_family::populate]                       *)
(* ===================================================================== *)

Module populate.

(** Modelled from the spec: the component, version and format enumerations
    of sstables.hh, with the components that section 6 of the spec lists. *)
Inductive component_type : Type :=
| TOC | Data | Index | Summary | Filter | Statistics | CompressionInfo
| TemporaryTOC | TemporaryStatistics.

Inductive version_types : Type := ka | la.
Inductive format_types : Type := big.

(** [sstables::entry_descriptor]: what a file name parses into (the
    keyspace and table names only serve to rebuild file names). *)
Record entry_descriptor : Type :=
  { version : version_types;
    generation : N;
    format : format_types;
    component : component_type }.

(** [enum class status] of [populate] *)
Inductive status : Type :=
| has_some_file
| has_toc_file
| has_temporary_toc_file.

(** [struct sstable_descriptor] of [populate] *)
Record sstable_descriptor : Type :=
  { d_version : option version_types; d_format : option format_types }.

Inductive malformed : Type :=
| toc_file_already_processed
| temporary_toc_found_after_toc
| no_toc_found (generation : N).

Inductive exn : Type :=
| malformed_sstable_exception (why : malformed)
| probe_failure.   (* whatever else [probe_file] may fail with *)

(** What [populate] does to the directory. *)
Inductive fs_action : Type :=
| remove_temporary_statistics (generation : N)
| remove_sstable_with_temp_toc (generation : N) (v : version_types)
                               (f : format_types).

(** The answer of [probe_file] for one directory entry: the parsed
    descriptor, or the failure of the probe (loading the sstable behind a TOC
    file is what can fail). *)
Inductive probed : Type :=
| probe_ok (entry : entry_descriptor)
| probe_failed (e : exn).

Record scan_state : Type :=
  { verifier : gmap N status; descriptor : sstable_descriptor }.

Definition scan_start : scan_state :=
  {| verifier := ∅; descriptor := {| d_version := None; d_format := None |} |}.

(** "Retrieve both version and format used for this column family." *)
Definition note_version_and_format (d : sstable_descriptor)
    (entry : entry_descriptor) : sstable_descriptor :=
  {| d_version := match d_version d with
                  | None => Some (version entry)
                  | some => some
                  end;
     d_format := match d_format d with
                 | None => Some (format entry)
                 | some => some
                 end |}.

Definition is_TOC (c : component_type) : bool :=
  match c with TOC => true | _ => false end.
Definition is_TemporaryTOC (c : component_type) : bool :=
  match c with TemporaryTOC => true | _ => false end.
Definition is_TemporaryStatistics (c : component_type) : bool :=
  match c with TemporaryStatistics => true | _ => false end.

(** The continuation attached to [probe_file] for one entry: the new scan
    state, what it does to the directory, and the exception it throws. *)
Definition on_probed (st : scan_state) (entry : entry_descriptor)
  : scan_state * list fs_action * option exn :=
  if is_TemporaryStatistics (component entry) then
    (st, [remove_temporary_statistics (generation entry)], None)
  else
    let updated (v : gmap N status) :=
      ({| verifier := v;
          descriptor := note_version_and_format (descriptor st) entry |},
       [], None) in
    match verifier st !! generation entry with
    | Some has_toc_file =>
        if is_TOC (component entry) then
          (st, [], Some (malformed_sstable_exception toc_file_already_processed))
        else if is_TemporaryTOC (component entry) then
          (st, [], Some (malformed_sstable_exception temporary_toc_found_after_toc))
        else updated (verifier st)
    | Some _ =>
        if is_TOC (component entry) then
          updated (<[generation entry := has_toc_file]> (verifier st))
        else if is_TemporaryTOC (component entry) then
          updated (<[generation entry := has_temporary_toc_file]> (verifier st))
        else updated (verifier st)
    | None =>
        if is_TOC (component entry) then
          updated (<[generation entry := has_toc_file]> (verifier st))
        else if is_TemporaryTOC (component entry) then
          updated (<[generation entry := has_temporary_toc_file]> (verifier st))
        else updated (<[generation entry := has_some_file]> (verifier st))
    end.

(** [exception_ptr eptr] of the [when_all] continuation: the first failure. *)
Definition first_exception (a b : option exn) : option exn :=
  match a with Some _ => a | None => b end.

(** The directory scan.  The entries are taken in the order in which their
    probes complete; a failed probe fails its future and skips its
    continuation, the other continuations run all the same. *)
Fixpoint scan (entries : list probed) (st : scan_state)
  : scan_state * list fs_action * option exn :=
  match entries with
  | [] => (st, [], None)
  | probe_failed e :: rest =>
      let '(st', acts, err) := scan rest st in
      (st', acts, first_exception (Some e) err)
  | probe_ok entry :: rest =>
      let '(st1, acts1, err1) := on_probed st entry in
      let '(st', acts, err) := scan rest st1 in
      (st', acts1 ++ acts, first_exception err1 err)
  end.

Inductive verdict : Type :=
| fine
| throws (e : exn)
| assertion_failure.   (* [assert(descriptor->version)] or [->format] *)

(** The body of the [parallel_for_each] over the verifier, for one
    generation. *)
Definition verify_generation (cpu_id : N) (d : sstable_descriptor)
    (v : N * status) : list fs_action * verdict :=
  match v.2 with
  | has_temporary_toc_file =>
      match d_version d, d_format d with
      | Some version, Some format =>
          if negb (cpu_id =? 0)%N then ([], fine)
          else
            (* shard 0 is the responsible for removing a partial sstable. *)
            ([remove_sstable_with_temp_toc v.1 version format], fine)
      | _, _ => ([], assertion_failure)
      end
  | has_some_file =>
      ([], throws (malformed_sstable_exception (no_toc_found v.1)))
  | has_toc_file => ([], fine)
  end.

Definition first_failure (a b : verdict) : verdict :=
  match a, b with
  | _, assertion_failure => assertion_failure
  | fine, _ => b
  | _, _ => a
  end.

(** [parallel_for_each]: every generation is visited, also after one of
    them has thrown; the result fails with the first exception. *)
Fixpoint verify_all (cpu_id : N) (d : sstable_descriptor)
    (l : list (N * status)) : list fs_action * verdict :=
  match l with
  | [] => ([], fine)
  | v :: rest =>
      match verify_generation cpu_id d v with
      | (acts, assertion_failure) => (acts, assertion_failure)
      | (acts, r) =>
          let '(acts', r') := verify_all cpu_id d rest in
          (acts ++ acts', first_failure r r')
      end
  end.

(** The post-scan step of [populate]. *)
Definition post_scan (cpu_id : N) (st : scan_state) : list fs_action * verdict :=
  verify_all cpu_id (descriptor st) (map_to_list (verifier st)).

Record populated : Type :=
  { actions : list fs_action;
    result : verdict;
    ready_for_writes : bool }.   (* [mark_ready_for_writes] was reached *)

(** [column_family::populate] on shard [cpu_id], given the probed entries
    of the directory. *)
Definition populate (cpu_id : N) (entries : list probed) : populated :=
  let '(st, acts, err) := scan entries scan_start in
  match err with
  | Some e => {| actions := acts; result := throws e; ready_for_writes := false |}
  | None =>
      let '(acts', r) := post_scan cpu_id st in
      {| actions := acts ++ acts';
         result := r;
         ready_for_writes := match r with fine => true | _ => false end |}
  end.

(** Once a generation is recorded, the version and format are known. *)
Definition descriptor_known (st : scan_state) : Prop :=
  verifier st = ∅ \/
  (is_Some (d_version (descriptor st)) /\ is_Some (d_format (descriptor st))).

(** *** A directory with a complete, a partial and a broken generation *)

Definition file (g : N) (c : component_type) : probed :=
  probe_ok {| version := ka; generation := g; format := big; component := c |}.

(** Generation 1 is complete; generation 2 was being written (temporary
    TOC only). *)
Definition dir_with_partial : list probed :=
  [ file 1 Data; file 1 TOC; file 2 Data; file 2 TemporaryTOC ].

(** Generation 3 has a data file and no TOC of either kind. *)
Definition dir_with_broken : list probed :=
  [ file 1 Data; file 1 TOC; file 2 TemporaryTOC; file 3 Data ].

End populate.

(* ===================================================================== *)
(** ** The flush queue of a column family                                 *)
(* ===================================================================== *)

Module flush_queue.

(** The base class [utils::flush_queue<db::replay_position>]
    (utils/flush_queue.hh), as far as [memtable_flush_queue] uses it.  [Func]
    and [Post] are the work and the post-operation given to the queue. *)
Class FlushQueue (Q Func Post : Type) : Type :=
  { empty : Q -> bool;
    highest_key : Q -> replay_position.t;
    run_with_ordered_post_op : Q -> replay_position.t -> Func -> Post -> Q }.

(** [column_family::memtable_flush_queue::run_cf_flush] *)
Definition run_cf_flush {Q Func Post : Type} `{FlushQueue Q Func Post}
    (q : Q) (rp : replay_position.t) (func : Func) (post : Post) : Q :=
  (* special case: empty rp, yet still data. *)
  let rp :=
    if replay_position.eqb rp replay_position.zero && negb (empty q)
    then highest_key q
    else rp in
  run_with_ordered_post_op q rp func post.

(** Modelled from the spec: a flush queue is an ordered structure keyed by
    replay position; here the operations waiting in it, each under its key,
    in the order in which they were queued.  The highest key is the largest
    key present. *)
Definition waiting (Func Post : Type) : Type :=
  list (replay_position.t * Func * Post).

Definition largest_key {Func Post : Type} (q : waiting Func Post)
  : replay_position.t :=
  fold_right (fun e acc => replay_position.max e.1.1 acc) replay_position.zero q.

#[export] Instance waiting_queue (Func Post : Type)
  : FlushQueue (waiting Func Post) Func Post :=
  {| empty := fun q => match q with [] => true | _ => false end;
     highest_key := largest_key;
     run_with_ordered_post_op := fun q rp func post => q ++ [(rp, func, post)] |}.

(** Two memtables are being flushed, keyed (1, 10) and (1, 20); the work
    and post-operations are numbered. *)
Definition two_flushes : waiting N N :=
  [ (replay_position.mk 1 10, 1%N, 1%N); (replay_position.mk 1 20, 2%N, 2%N) ].

End flush_queue.

(* ===================================================================== *)
(** ** The sstable read path: [column_family::make_sstable_reader]        *)
(* ===================================================================== *)

Module sstable_reader.

Definition bytes := list Byte.byte.

(** [dht::ring_position]: a token, with or without a partition key. *)
Record ring_position : Type := { token : Z; key : option bytes }.

Definition has_key (p : ring_position) : bool :=
  match key p with Some _ => true | None => false end.

(** Modelled from the spec: a [query::partition_range] (range.hh) has
    optional bounds and knows whether it was built from a single position. *)
Record partition_range : Type :=
  { start : option (sstable_filter.range_bound ring_position);
    end_ : option (sstable_filter.range_bound ring_position);
    is_singular : bool }.

Record io_priority_class : Type := { id : N }.

(** [restricted_mutation_reader_config]; [sem] says whether the semaphore
    pointer is set. *)
Record restricted_mutation_reader_config : Type :=
  { sem : bool; max_queue_length : N }.

(** The members of [column_family] the reader is built from; [_sstables]
    is the address of the current sstable set. *)
Record column_family : Type :=
  { _sstables : N;
    streaming_read_concurrency_config : restricted_mutation_reader_config;
    read_concurrency_config : restricted_mutation_reader_config }.

(** The readers [make_sstable_reader] can return. *)
Inductive mutation_reader : Type :=
| empty_reader
| restricted_reader (config : restricted_mutation_reader_config) (weight : N)
                    (inner : mutation_reader)
| single_key_sstable_reader (sstables : N) (key : bytes)
                            (slice : sstable_filter.partition_slice)
                            (pc : io_priority_class)
| range_sstable_reader (sstables : N) (pr : partition_range)
                       (slice : sstable_filter.partition_slice)
                       (pc : io_priority_class).

Section with_shard.

(** [dht::shard_of], [engine().cpu_id()] and the id of
    [service::get_local_streaming_read_priority()]. *)
Variable shard_of : Z -> N.
Variable cpu_id : N.
Variable streaming_read_priority_id : N.

(** The mutations of a partition, and what reading the sstables gives:
    [single_key_sstable_reader::operator()] for one key, and the merge of
    the per-sstable range readers for a range. *)
Variable streamed_mutation : Type.
Variable read_key :
  N -> bytes -> sstable_filter.partition_slice -> list streamed_mutation.
Variable read_range :
  N -> partition_range -> sstable_filter.partition_slice -> list streamed_mutation.

(** The lambda [restrict_reader] *)
Definition restrict_reader (cf : column_family) (pc : io_priority_class)
    (inner : mutation_reader) : mutation_reader :=
  let config :=
    if (streaming_read_priority_id =? id pc)%N
    then streaming_read_concurrency_config cf
    else read_concurrency_config cf in
  if sem config then restricted_reader config 1 inner else inner.

(** [column_family::make_sstable_reader] *)
Definition make_sstable_reader (cf : column_family) (pr : partition_range)
    (slice : sstable_filter.partition_slice) (pc : io_priority_class)
  : mutation_reader :=
  match start pr with
  | Some b =>
      let pos := sstable_filter.bound_value b in
      match is_singular pr, key pos with
      | true, Some k =>
          if negb (shard_of (token pos) =? cpu_id)%N then
            empty_reader   (* range doesn't belong to this shard *)
          else
            restrict_reader cf pc
              (single_key_sstable_reader (_sstables cf) k slice pc)
      | _, _ =>
          restrict_reader cf pc (range_sstable_reader (_sstables cf) pr slice pc)
      end
  | None =>
      restrict_reader cf pc (range_sstable_reader (_sstables cf) pr slice pc)
  end.

(** Modelled from the spec: what a reader yields when it is read to the
    end.  The reader of [make_empty_reader] (mutation_reader.hh) yields
    nothing; a restricted reader, once it is let in, yields what it wraps. *)
Fixpoint yields (r : mutation_reader) : list streamed_mutation :=
  match r with
  | empty_reader => []
  | restricted_reader _ _ inner => yields inner
  | single_key_sstable_reader sstables k slice _ => read_key sstables k slice
  | range_sstable_reader sstables pr slice _ => read_range sstables pr slice
  end.

End with_shard.

(** *** A two-shard node *)

(** Even tokens live on shard 0, odd tokens on shard 1. *)
Definition shard_by_parity (t : Z) : N := Z.to_N (t mod 2).

Definition unrestricted : restricted_mutation_reader_config :=
  {| sem := false; max_queue_length := 0 |}.

Definition some_table : column_family :=
  {| _sstables := 0;
     streaming_read_concurrency_config := unrestricted;
     read_concurrency_config := unrestricted |}.

Definition singular (t : Z) (k : bytes) : partition_range :=
  let b := {| sstable_filter.bound_value := {| token := t; key := Some k |};
              sstable_filter.is_inclusive := true |} in
  {| start := Some b; end_ := Some b; is_singular := true |}.

Definition full_slice : sstable_filter.partition_slice :=
  {| sstable_filter.get_all_ranges := [sstable_filter.make_open_ended_both_sides] |}.

(** Every sstable read finds one partition. *)
Definition always_one (_ : N) (_ : bytes) (_ : sstable_filter.partition_slice)
  : list unit := [tt].
Definition always_one_in_range (_ : N) (_ : partition_range)
    (_ : sstable_filter.partition_slice) : list unit := [tt].

End sstable_reader.

(* ===================================================================== *)
(** ** The reconciliation order on cells, spelled out                     *)
(* ===================================================================== *)

Module cell_order.

(** [gc_clock] counts seconds in 32 bits: a deletion time fits [int32_t]. *)
Definition fits_int32 (x : Z) : Prop := - 2 ^ 31 <= x < 2 ^ 31.

(** When [a] is kept over [b], case by case as
    [compare_atomic_cell_for_merge] decides it. *)
Definition beats (a b : cell.atomic_cell_view) : Prop :=
  cell.timestamp b < cell.timestamp a \/
  (cell.timestamp a = cell.timestamp b /\
   ((cell.is_live a = false /\ cell.is_live b = true) \/
    (cell.is_live a = true /\ cell.is_live b = true /\
     (cell.lex_lt (cell.value b) (cell.value a) \/
      (cell.value a = cell.value b /\
       cell.is_live_and_has_ttl a = true /\ cell.is_live_and_has_ttl b = true /\
       cell.expiry b < cell.expiry a))) \/
    (cell.is_live a = false /\ cell.is_live b = false /\
     cell.to_uint32 (cell.deletion_time b) < cell.to_uint32 (cell.deletion_time a)))).

(** Three deleted cells of one timestamp, and three expiring ones. *)
Definition deleted_at (d : Z) : cell.atomic_cell_view := cell.dead 7 d.
Definition expiring_at (e : Z) : cell.atomic_cell_view :=
  cell.live 7 [Byte.x61] (Some (5, e)).

End cell_order.

(* ===================================================================== *)
(** ** Flush ordering: applies and seals of one column family             *)
(* ===================================================================== *)

Module flush_order.
Import write_path.

(** What happens to the regular memtable of a column family: a write
    through the [frozen_mutation] overload of [column_family::apply], or the
    sealing of the active memtable. *)
Inductive op : Type :=
| do_apply_frozen (m : frozen_mutation) (m_schema : schema)
                  (rp : replay_position.t)
| do_seal_active_memtable.

Definition step (cf : column_family.t) (o : op) : column_family.t :=
  match o with
  | do_apply_frozen m m_schema rp =>
      match column_family.apply_frozen cf m m_schema rp with
      | returned cf' => cf'
      | threw _ cf' => cf'
      end
  | do_seal_active_memtable => column_family.seal_active_memtable cf
  end.

Definition run (cf : column_family.t) (ops : list op) : column_family.t :=
  fold_left step ops cf.

(** A non-empty active memtable holds no position below the flushed one. *)
Definition memtable_not_behind (cf : column_family.t) : Prop :=
  memtable_empty (column_family.active_memtable cf) = false ->
  replay_position.ltb (highest_rp (column_family.active_memtable cf))
                      (column_family._highest_flushed_rp cf) = false.

(** A table without commit log that, for the sake of the example, has a
    flushed position. *)
Definition cf7_no_commitlog : column_family.t :=
  {| column_family.active_memtable := new_memtable;
     column_family._highest_flushed_rp := replay_position.mk 1 50;
     column_family._commitlog := false;
     column_family.writes := 0 |}.

Definition db_no_commitlog : database.t :=
  {| database._column_families := {[ 7%N := cf7_no_commitlog ]};
     database.total_writes := 0;
     database.dblog := [] |}.

(** Writes at (1, 10) and (1, 20), a seal, a late write at (1, 15) and a
    write at (1, 30), then another seal. *)
Definition writes_and_seals : list op :=
  [ do_apply_frozen write_to_7 synced (replay_position.mk 1 10);
    do_apply_frozen other_write_to_7 synced (replay_position.mk 1 20);
    do_seal_active_memtable;
    do_apply_frozen write_to_7 synced (replay_position.mk 1 15);
    do_apply_frozen write_to_7 synced (replay_position.mk 1 30);
    do_seal_active_memtable ].

End flush_order.

(* ===================================================================== *)
(** ** Streaming ingest: [apply_streaming_mutation] and the per-plan       *)
(**    memtables                                                          *)
(* ===================================================================== *)

Module streaming_ingest.
Import write_path.

(** [struct streaming_memtable_big]: the memtable list of one streaming
    plan, represented by its active memtable, and the sstables its seals have
    written so far. *)
Record streaming_memtable_big : Type :=
  { memtables : memtable; sstables : list N }.

(** The members of [column_family] that streaming writes touch, next to
    the regular active memtable. *)
Record column_family : Type :=
  { _memtables : memtable;
    _streaming_memtables : memtable;
    _streaming_memtables_big : gmap uuid streaming_memtable_big }.

(** [memtable::apply(m, m_schema)]: the replay position defaults to
    [db::replay_position()]. *)
Definition apply_without_rp (mt : memtable) (m : frozen_mutation)
    (m_schema : schema) : memtable :=
  memtable_apply mt (applied_frozen m m_schema) replay_position.zero.

(** [column_family::apply_streaming_big_mutation] *)
Definition apply_streaming_big_mutation (cf : column_family)
    (m_schema : schema) (plan_id : uuid) (m : frozen_mutation) : column_family :=
  let entry :=
    match _streaming_memtables_big cf !! plan_id with
    | Some entry => entry
    | None => {| memtables := new_memtable; sstables := [] |}
    end in
  {| _memtables := _memtables cf;
     _streaming_memtables := _streaming_memtables cf;
     _streaming_memtables_big :=
       <[plan_id := {| memtables := apply_without_rp (memtables entry) m m_schema;
                       sstables := sstables entry |}]>
         (_streaming_memtables_big cf) |}.

(** [column_family::apply_streaming_mutation] *)
Definition apply_streaming_mutation (cf : column_family) (m_schema : schema)
    (plan_id : uuid) (m : frozen_mutation) (fragmented : bool) : column_family :=
  if fragmented then apply_streaming_big_mutation cf m_schema plan_id m
  else
    {| _memtables := _memtables cf;
       _streaming_memtables :=
         apply_without_rp (_streaming_memtables cf) m m_schema;
       _streaming_memtables_big := _streaming_memtables_big cf |}.


Definition fresh_table : column_family :=
  {| _memtables := new_memtable;
     _streaming_memtables := new_memtable;
     _streaming_memtables_big := ∅ |}.

End streaming_ingest.

(* ===================================================================== *)
(** ** Shapes of the clustering-key filter                                *)
(* ===================================================================== *)

Module filter_shapes.
Import sstable_filter.

(** A component range of the form [v, v]: both bounds inclusive and equal
    under the comparison of the component's type. *)
Definition is_singular_component {data_type : Type}
    (type_compare : data_type -> bytes -> bytes -> Z)
    (types : list data_type) (i : nat) (r : nonwrapping_range bytes) : Prop :=
  exists ty s e,
    types !! i = Some ty /\
    r = {| range_start := Some {| bound_value := s; is_inclusive := true |};
           range_end := Some {| bound_value := e; is_inclusive := true |} |} /\
    type_compare ty s e = 0.

(** The query asks for the rows in [05, 0a] and, as a second range, for
    all rows. *)
Definition slice_5_10_and_all : partition_slice :=
  {| get_all_ranges :=
       get_all_ranges slice_5_10 ++ [make_open_ended_both_sides] |}.

(** A filter that knows the key 6b only. *)
Definition knows_6b (k : bytes) : bool :=
  match k with [Byte.x6b] => true | _ => false end.

Definition sst_E : sstable :=
  {| generation := 5;
     filter_has_key := knows_6b;
     get_stats_metadata :=
       {| min_timestamp := 10; max_timestamp := 20;
          estimated_tombstone_drop_time := [] |};
     clustering_components_ranges := [closed Byte.x20 Byte.x30] |}.

End filter_shapes.

(* ===================================================================== *)
(** ** More of the sstable list: views, statistics, levels, ownership     *)
(* ===================================================================== *)

Module sstable_views.
Import sstable_list.

(** [column_family::get_sstables_including_compacted_undeleted].  With
    nothing waiting for deletion the current list itself is handed out;
    otherwise a copy is made and the compacted sstables are inserted into the
    copy. *)
Definition get_sstables_including_compacted_undeleted (st : state)
  : gmap loc (gset shared_sstable) * loc :=
  match _sstables_compacted_but_not_deleted (cf st) with
  | [] => (objects st, _sstables (cf st))
  | compacted =>
      let '(h, ret) :=
        make_lw_shared (objects st) (deref (objects st) (_sstables (cf st))) in
      (fold_left (fun h s => insert_in_place h ret s) compacted h, ret)
  end.

Section with_levels.

(** [sstable::get_sstable_level] *)
Variable get_sstable_level : shared_sstable -> nat.

(** One round of the loop of [column_family::sstable_count_per_level]. *)
Definition count_one (count_per_level : list N) (sst : shared_sstable) : list N :=
  let level := get_sstable_level sst in
  let count_per_level :=
    if (length count_per_level <? level + 1)%nat
    then count_per_level ++ replicate (level + 1 - length count_per_level) 0%N
    else count_per_level in
  alter (fun n => (n + 1)%N) level count_per_level.

(** [column_family::sstable_count_per_level], over the sstables of the
    current list. *)
Definition sstable_count_per_level (ssts : list shared_sstable) : list N :=
  fold_left count_one ssts [].

Definition count_at_level (l : nat) (ssts : list shared_sstable) : N :=
  N.of_nat (length (List.filter (fun sst => (get_sstable_level sst =? l)%nat) ssts)).

End with_levels.

(** Sstables 1 and 2 are at level 0, sstable 3 at level 2. *)
Definition level_of (sst : shared_sstable) : nat :=
  if (sst =? 3)%N then 2%nat else 0%nat.

End sstable_views.

Module shard_ownership.

Section with_cpu.

(** [engine().cpu_id()] *)
Variable cpu_id : N.

(** [belongs_to_current_shard(const std::vector<shard_id>&)] *)
Definition belongs_to_current_shard (shards : list N) : bool :=
  existsb (fun s => (s =? cpu_id)%N) shards.

(** [belongs_to_other_shard]: the size of the vector is compared with the
    truth value of [belongs_to_current_shard], taken as a number. *)
Definition belongs_to_other_shard (shards : list N) : bool :=
  negb (length shards =? (if belongs_to_current_shard shards then 1 else 0))%nat.

End with_cpu.

End shard_ownership.

(* ===================================================================== *)
(** ** What a directory scan has seen; renumbering of new sstables        *)
(* ===================================================================== *)

Module scan_facts.
Import populate.

Definition component_eqb (a b : component_type) : bool :=
  match a, b with
  | TOC, TOC | Data, Data | Index, Index | Summary, Summary | Filter, Filter
  | Statistics, Statistics | CompressionInfo, CompressionInfo
  | TemporaryTOC, TemporaryTOC | TemporaryStatistics, TemporaryStatistics => true
  | _, _ => false
  end.

(** Whether the scan has successfully probed a file of generation [g]
    with component [c]. *)
Definition seen (c : component_type) (g : N) (entries : list probed) : bool :=
  existsb (fun p => match p with
                    | probe_ok e => (generation e =? g)%N
                                    && component_eqb (component e) c
                    | probe_failed _ => false
                    end) entries.

(** Whether the scan has probed a file of generation [g] that counts for
    the state of the generation (any component but TemporaryStatistics). *)
Definition seen_any (g : N) (entries : list probed) : bool :=
  existsb (fun p => match p with
                    | probe_ok e => (generation e =? g)%N
                                    && negb (is_TemporaryStatistics (component e))
                    | probe_failed _ => false
                    end) entries.

(** A generation that gets its TOC after the temporary one. *)
Definition dir_toc_after_temporary : list probed :=
  [ file 4 TemporaryTOC; file 4 Data; file 4 TOC; file 5 TemporaryStatistics ].

End scan_facts.

Module reshuffle.
Import populate.

(** [std::map<int64_t, V>::emplace]: the map is kept in ascending order of
    its keys, and an existing key keeps its value. *)
Fixpoint map_emplace {V : Type} (k : N) (v : V) (m : list (N * V))
  : list (N * V) :=
  match m with
  | [] => [(k, v)]
  | (k', v') :: rest =>
      if (k <? k')%N then (k, v) :: m
      else if (k =? k')%N then m
      else (k', v') :: map_emplace k v rest
  end.

Fixpoint ascending (keys : list N) : Prop :=
  match keys with
  | [] => True
  | k :: rest => Forall (N.lt k) rest /\ ascending rest
  end.

(** The directory scan of [column_family::reshuffle_sstables]: the TOC
    files of generations that are not loaded yet are collected. *)
Definition collect (all_generations : gset N) (entries : list entry_descriptor)
  : list (N * entry_descriptor) :=
  fold_left
    (fun work comps =>
       if negb (is_TOC (component comps)) then work
       else if bool_decide (generation comps ∈ all_generations) then work
       else map_emplace (generation comps) comps work)
    entries [].

Definition with_generation (comps : entry_descriptor) (g : N) : entry_descriptor :=
  {| version := version comps; generation := g;
     format := format comps; component := component comps |}.

(** The loop over [work.sstables]: each collected sstable, in ascending
    order of its generation, gets the next generation; it is renamed unless
    it has that generation already.  The result lists the descriptors with
    their new generation, and the calls of [set_generation] as pairs (old
    generation, new generation). *)
Fixpoint renumber (current_gen : N) (work : list (N * entry_descriptor))
  : list entry_descriptor * list (N * N) :=
  match work with
  | [] => ([], [])
  | (old, comps) :: rest =>
      let '(reshuffled, renamed) := renumber (current_gen + 1) rest in
      (with_generation comps current_gen :: reshuffled,
       if (old =? current_gen)%N then renamed else (old, current_gen) :: renamed)
  end.

(** [current_gen(start ? start : 1)] *)
Definition first_generation (start : N) : N :=
  if (start =? 0)%N then 1%N else start.

(** [column_family::reshuffle_sstables] *)
Definition reshuffle_sstables (all_generations : gset N) (start : N)
    (entries : list entry_descriptor) : list entry_descriptor * list (N * N) :=
  renumber (first_generation start) (collect all_generations entries).

(** A TOC file of a generation that is not loaded yet. *)
Definition found (all_generations : gset N) (entries : list entry_descriptor)
    (g : N) : Prop :=
  exists e, e ∈ entries /\ component e = TOC /\ generation e = g /\
            g ∉ all_generations.

Definition toc (g : N) : entry_descriptor :=
  {| version := ka; generation := g; format := big; component := TOC |}.
Definition data (g : N) : entry_descriptor :=
  {| version := ka; generation := g; format := big; component := Data |}.

(** Generations 9, 4 and 7 are found; generation 2 is loaded already. *)
Definition upload_dir : list entry_descriptor :=
  [ toc 9; data 9; toc 4; toc 2; data 4; toc 7 ].

End reshuffle.

(* ===================================================================== *)
(** ** Token ranges of an endpoint (abstract_replication_strategy.cc)     *)
(* ===================================================================== *)

Module replication_strategy.

Definition token := Z.
Definition inet_address := N.
Definition token_range := sstable_filter.nonwrapping_range token.

(** [nonwrapping_range<token>::bound(value, inclusive)] *)
Definition bound (value : token) (inclusive : bool)
  : sstable_filter.range_bound token :=
  {| sstable_filter.bound_value := value;
     sstable_filter.is_inclusive := inclusive |}.

Definition make_range (s e : option (sstable_filter.range_bound token))
  : token_range :=
  {| sstable_filter.range_start := s; sstable_filter.range_end := e |}.

(** Modelled from the spec: a token is in a non-wrapping range when it is
    after the start bound and before the end bound, a missing bound being
    open-ended and an inclusive bound admitting its own value. *)
Definition contains (r : token_range) (x : token) : bool :=
  match sstable_filter.range_start r with
  | None => true
  | Some b => if sstable_filter.is_inclusive b
              then (sstable_filter.bound_value b <=? x)%Z
              else (sstable_filter.bound_value b <? x)%Z
  end &&
  match sstable_filter.range_end r with
  | None => true
  | Some b => if sstable_filter.is_inclusive b
              then (x <=? sstable_filter.bound_value b)%Z
              else (x <? sstable_filter.bound_value b)%Z
  end.

Definition covers (ranges : list token_range) (x : token) : bool :=
  existsb (fun r => contains r x) ranges.

(** [insert_token_range_to_sorted_container_while_unwrapping] *)
Definition insert_token_range_to_sorted_container_while_unwrapping
    (prev_tok tok : token) (ret : list token_range) : list token_range :=
  if (prev_tok <? tok)%Z then
    ret ++ [make_range (Some (bound prev_tok false)) (Some (bound tok true))]
  else
    (* Insert in front to maintain sorded order *)
    make_range None (Some (bound tok true))
      :: (ret ++ [make_range (Some (bound prev_tok false)) None]).

(** The loop over [sorted_tokens()] that [get_ranges] and
    [get_primary_ranges] share: [select] is the test on the token's natural
    endpoints. *)
Fixpoint for_each_token (select : token -> bool) (prev_tok : token)
    (sorted_tokens : list token) (ret : list token_range) : list token_range :=
  match sorted_tokens with
  | [] => ret
  | tok :: rest =>
      for_each_token select tok rest
        (if select tok
         then insert_token_range_to_sorted_container_while_unwrapping prev_tok tok ret
         else ret)
  end.

(** [for (inet_address a : ...) if (a == ep) { ...; break; }] *)
Fixpoint is_natural_endpoint (ep : inet_address) (eps : list inet_address) : bool :=
  match eps with
  | [] => false
  | a :: rest => if (a =? ep)%N then true else is_natural_endpoint ep rest
  end.

(** [eps.size() > 0 && eps[0] == ep] *)
Definition is_primary_endpoint (ep : inet_address) (eps : list inet_address) : bool :=
  match eps with
  | [] => false
  | a :: _ => (a =? ep)%N
  end.

(** What [std::stol] throws. *)
Inductive stol_error : Type := invalid_argument | out_of_range.

Inductive message : Type :=
| must_be_non_negative   (* "Replication factor must be non-negative; found " *)
| must_be_numeric.       (* "Replication factor must be numeric; found " *)

Inductive thrown (sstring : Type) : Type :=
| configuration_exception (what : message) (rf : sstring)
| from_stol (e : stol_error).
Arguments configuration_exception {sstring} _ _.
Arguments from_stol {sstring} _.

(** The token metadata as the strategy sees it. *)
Record token_metadata_ops (token_metadata : Type) : Type :=
  { get_ring_version : token_metadata -> N;
    first_token : token_metadata -> token -> token }.
Arguments get_ring_version {token_metadata} _ _.
Arguments first_token {token_metadata} _ _ _.

(** The members of the strategy that [get_natural_endpoints] works on. *)
Record strategy : Type :=
  { _cached_endpoints : gmap Z (list inet_address);
    _last_invalidated_ring_version : N;
    _cache_hits_count : N }.

Section with_strategy.

(** The strategy's own [calculate_natural_endpoints], for the token
    metadata at hand. *)
Variable calculate_natural_endpoints : token -> list inet_address.

(** [abstract_replication_strategy::get_ranges]; [back()] of an empty
    token vector is undefined. *)
Definition get_ranges (sorted_tokens : list token) (ep : inet_address)
  : option (list token_range) :=
  match last sorted_tokens with
  | None => None
  | Some prev_tok =>
      Some (for_each_token
              (fun tok => is_natural_endpoint ep (calculate_natural_endpoints tok))
              prev_tok sorted_tokens [])
  end.

(** [abstract_replication_strategy::get_primary_ranges] *)
Definition get_primary_ranges (sorted_tokens : list token) (ep : inet_address)
  : option (list token_range) :=
  match last sorted_tokens with
  | None => None
  | Some prev_tok =>
      Some (for_each_token
              (fun tok => is_primary_endpoint ep (calculate_natural_endpoints tok))
              prev_tok sorted_tokens [])
  end.

End with_strategy.

Section with_stol.

Variable sstring : Type.
(** [std::stol]: the number read, or the exception thrown. *)
Variable stol : sstring -> stol_error + Z.

(** [abstract_replication_strategy::validate_replication_factor]: the
    exception it throws, if any. *)
Definition validate_replication_factor (rf : sstring) : option (thrown sstring) :=
  let try_block : option (thrown sstring) :=
    match stol rf with
    | inl e => Some (from_stol e)
    | inr n => if (n <? 0)%Z
               then Some (configuration_exception must_be_non_negative rf)
               else None
    end in
  match try_block with
  | Some _ => (* catch (...) *) Some (configuration_exception must_be_numeric rf)
  | None => None
  end.

End with_stol.

Section with_token_metadata.

Variable token_metadata : Type.
Variable ops : token_metadata_ops token_metadata.
Variable calculate_natural_endpoints : token -> token_metadata -> list inet_address.

(** [abstract_replication_strategy::get_cached_endpoints] *)
Definition get_cached_endpoints (tm : token_metadata) (s : strategy) : strategy :=
  if negb (_last_invalidated_ring_version s =? get_ring_version ops tm)%N then
    {| _cached_endpoints := ∅;
       _last_invalidated_ring_version := get_ring_version ops tm;
       _cache_hits_count := _cache_hits_count s |}
  else s.

(** [abstract_replication_strategy::get_natural_endpoints] *)
Definition get_natural_endpoints (tm : token_metadata) (search_token : token)
    (s : strategy) : list inet_address * strategy :=
  let key_token := first_token ops tm search_token in
  let s := get_cached_endpoints tm s in
  match _cached_endpoints s !! key_token with
  | None =>
      let endpoints := calculate_natural_endpoints search_token tm in
      (endpoints,
       {| _cached_endpoints := <[key_token := endpoints]> (_cached_endpoints s);
          _last_invalidated_ring_version := _last_invalidated_ring_version s;
          _cache_hits_count := _cache_hits_count s |})
  | Some res =>
      (res,
       {| _cached_endpoints := _cached_endpoints s;
          _last_invalidated_ring_version := _last_invalidated_ring_version s;
          _cache_hits_count := (_cache_hits_count s + 1)%N |})
  end.

(** A sequence of lookups, each with the token metadata of its time. *)
Fixpoint lookups (calls : list (token_metadata * token)) (s : strategy)
  : list (list inet_address) * strategy :=
  match calls with
  | [] => ([], s)
  | (tm, search_token) :: rest =>
      let '(endpoints, s1) := get_natural_endpoints tm search_token s in
      let '(more, s2) := lookups rest s1 in
      (endpoints :: more, s2)
  end.

(** What is cached belongs to the ring version the cache was last
    emptied for. *)
Definition cache_is_current (s : strategy) : Prop :=
  forall key_token endpoints,
    _cached_endpoints s !! key_token = Some endpoints ->
    forall tm search_token,
      get_ring_version ops tm = _last_invalidated_ring_version s ->
      first_token ops tm search_token = key_token ->
      calculate_natural_endpoints search_token tm = endpoints.

End with_token_metadata.

(** A strategy that has looked nothing up yet. *)
Definition new_strategy : strategy :=
  {| _cached_endpoints := ∅; _last_invalidated_ring_version := 0;
     _cache_hits_count := 0 |}.

(** The pairs (previous token, token) that the loop over the sorted tokens
    goes through. *)
Fixpoint steps (prev_tok : token) (sorted_tokens : list token)
  : list (token * token) :=
  match sorted_tokens with
  | [] => []
  | tok :: rest => (prev_tok, tok) :: steps tok rest
  end.

Fixpoint strictly_ascending (tokens : list token) : Prop :=
  match tokens with
  | [] => True
  | t :: rest => Forall (Z.lt t) rest /\ strictly_ascending rest
  end.

(** The token of the ring whose range [x] falls in: the first token at or
    after [x], or the smallest token when [x] is after all of them. *)
Definition ring_owner (tokens : list token) (x t : token) : Prop :=
  t ∈ tokens /\
  ((x <= t /\ forall t', t' ∈ tokens -> x <= t' -> t <= t') \/
   ((forall t', t' ∈ tokens -> t' < x) /\ forall t', t' ∈ tokens -> t <= t'))%Z.

(** A ring of three tokens; endpoint 1 is the first replica of tokens 10
    and 30, endpoint 2 of token 20, and each is the second replica of the
    other's tokens. *)
Definition ring : list token := [10; 20; 30]%Z.
Definition two_replicas (tok : token) : list inet_address :=
  if (tok =? 20)%Z then [2; 1]%N else [1; 2]%N.

(** Token metadata told by its ring version alone: the ring has the
    tokens 0 and [100 * version]. *)
Definition versioned_ops : token_metadata_ops N :=
  {| get_ring_version := fun tm => tm;
     first_token := fun tm x =>
       if (x <=? 0)%Z then 0%Z
       else if (x <=? 100 * Z.of_N tm)%Z then (100 * Z.of_N tm)%Z else 0%Z |}.
Definition versioned_endpoints (x : token) (tm : N) : list inet_address :=
  if (x <=? 0)%Z then [1%N]
  else if (x <=? 100 * Z.of_N tm)%Z then [2%N] else [1%N].

End replication_strategy.

(* ===================================================================== *)
(** ** The shards a transfer task sends from; the size of a batch         *)
(* ===================================================================== *)

Module stream_transfer_task.
Import replication_strategy.

(** [boost::irange<unsigned>(first, last)] *)
Definition irange (first last : N) : list N :=
  map N.of_nat (seq (N.to_nat first) (N.to_nat last - N.to_nat first)).

Section with_partitioner.

(** [dht::shard_of] and [smp::count] *)
Variable shard_of : token -> N.
Variable smp_count : N.

(** The shards that [stream_transfer_task::start] creates a [send_info] on
    for one range. *)
Definition shard_range (range : token_range) : list N :=
  let shard_begin :=
    match sstable_filter.range_start range with
    | Some b => shard_of (sstable_filter.bound_value b)
    | None => 0%N
    end in
  let shard_end :=
    match sstable_filter.range_end range with
    | Some b => ((shard_of (sstable_filter.bound_value b) + 1) mod 2 ^ 32)%N
    | None => smp_count
    end in
  irange shard_begin shard_end.

End with_partitioner.

(** Three shards: negative tokens, tokens below 100, the others. *)
Definition three_shards (t : token) : N :=
  if (t <? 0)%Z then 0%N else if (t <? 100)%Z then 1%N else 2%N.

Definition from_minus_5_to_50 : token_range :=
  make_range (Some (bound (-5) true)) (Some (bound 50 false)).

End stream_transfer_task.

Module batch_statement.

(** What [mutation_partition::accept] can call of a partition visitor. *)
Inductive visited : Type :=
| partition_tombstone
| static_cell (value_size : N)
| static_collection (data_size : N)
| row_tombstone
| row
| row_cell (value_size : N)
| row_collection (data_size : N).

(** [my_partition_visitor]: its [size], a [size_t], after one call. *)
Definition accept (size : N) (v : visited) : N :=
  match v with
  | static_cell n | static_collection n | row_cell n | row_collection n =>
      ((size + n) mod 2 ^ 64)%N
  | partition_tombstone | row_tombstone | row => size
  end.

(** A mutation: its table, and what its partition shows a visitor. *)
Record mutation : Type :=
  { ks_cf_name : N;
    partition : list visited }.

Definition visit_all (mutations : list mutation) : N :=
  fold_left (fun size m => fold_left accept (partition m) size) mutations 0%N.

(** The warning of [verify_batch_size]: the tables, the size, the excess. *)
Record warning : Type :=
  { tables : gset N; batch_size : N; exceeding_by : N }.

(** [batch_statement::verify_batch_size]: the warning it logs, if any. *)
Definition verify_batch_size (warn_threshold : N) (mutations : list mutation)
  : option warning :=
  let size := visit_all mutations in
  if (warn_threshold <? size)%N then
    Some {| tables := list_to_set (map ks_cf_name mutations);
            batch_size := size;
            exceeding_by := ((size + 2 ^ 64 - warn_threshold) mod 2 ^ 64)%N |}
  else None.

(** The sizes of the cells of a partition, of a batch. *)
Definition cell_size (v : visited) : option N :=
  match v with
  | static_cell n | static_collection n | row_cell n | row_collection n => Some n
  | partition_tombstone | row_tombstone | row => None
  end.

Definition cell_sizes (mutations : list mutation) : list N :=
  flat_map (fun m => omap cell_size (partition m)) mutations.

(** Two batches with the same cells: one in two mutations with deletions,
    one in a single mutation. *)
Definition batch_a : list mutation :=
  [ {| ks_cf_name := 1; partition := [partition_tombstone; row_cell 700; row] |};
    {| ks_cf_name := 2; partition := [static_cell 400; row_tombstone] |} ].
Definition batch_b : list mutation :=
  [ {| ks_cf_name := 3; partition := [row_collection 400; row_cell 700] |} ].

End batch_statement.

(* ===================================================================== *)
(** ** The tables of a database, by id and by name                        *)
(* ===================================================================== *)

Module registry.

(** What the registry reads of a [schema]. *)
Record schema : Type :=
  { id : N; ks_name : N; cf_name : N }.

(** The maps of [database]; a [column_family] is represented by its
    schema, a keyspace by its name. *)
Record database : Type :=
  { _keyspaces : gset N;
    _column_families : gmap N schema;
    _ks_cf_to_uuid : gmap (N * N) N }.

Inductive exn : Type :=
| invalid_argument_keyspace_exists (name : N)
| invalid_argument_keyspace_not_defined (name : N)
| invalid_argument_uuid_already_mapped (uuid : N)
| invalid_argument_column_family_exists (name : N)
| out_of_range
| no_such_keyspace (name : N).

Definition empty_database : database :=
  {| _keyspaces := ∅; _column_families := ∅; _ks_cf_to_uuid := ∅ |}.

(** [database::add_keyspace] *)
Definition add_keyspace (db : database) (name : N) : exn + database :=
  if bool_decide (name ∈ _keyspaces db) then
    inl (invalid_argument_keyspace_exists name)
  else
    inr {| _keyspaces := {[ name ]} ∪ _keyspaces db;
           _column_families := _column_families db;
           _ks_cf_to_uuid := _ks_cf_to_uuid db |}.

(** [database::drop_keyspace] *)
Definition drop_keyspace (db : database) (name : N) : database :=
  {| _keyspaces := _keyspaces db ∖ {[ name ]};
     _column_families := _column_families db;
     _ks_cf_to_uuid := _ks_cf_to_uuid db |}.

(** [database::add_column_family] *)
Definition add_column_family (db : database) (s : schema) : exn + database :=
  let uuid := id s in
  if negb (bool_decide (ks_name s ∈ _keyspaces db)) then
    inl (invalid_argument_keyspace_not_defined (ks_name s))
  else if bool_decide (is_Some (_column_families db !! uuid)) then
    inl (invalid_argument_uuid_already_mapped uuid)
  else
    let kscf := (ks_name s, cf_name s) in
    if bool_decide (is_Some (_ks_cf_to_uuid db !! kscf)) then
      inl (invalid_argument_column_family_exists (cf_name s))
    else
      inr {| _keyspaces := _keyspaces db;
             _column_families := <[uuid := s]> (_column_families db);
             _ks_cf_to_uuid := <[kscf := uuid]> (_ks_cf_to_uuid db) |}.

(** [database::find_uuid] *)
Definition find_uuid (db : database) (ks cf : N) : exn + N :=
  match _ks_cf_to_uuid db !! (ks, cf) with
  | Some uuid => inr uuid
  | None => inl out_of_range
  end.

(** [database::drop_column_family], up to the truncation of the table it
    has taken out: the table is returned with the new maps. *)
Definition drop_column_family (db : database) (ks cf : N)
  : exn + (database * schema) :=
  match find_uuid db ks cf with
  | inl e => inl e
  | inr uuid =>
      if negb (bool_decide (ks ∈ _keyspaces db)) then inl (no_such_keyspace ks)
      else
        match _column_families db !! uuid with
        | None => inl out_of_range
        | Some table =>
            inr ({| _keyspaces := _keyspaces db;
                    _column_families := delete uuid (_column_families db);
                    _ks_cf_to_uuid := delete (ks, cf) (_ks_cf_to_uuid db) |},
                 table)
        end
  end.

(** The calls that change the maps. *)
Inductive call : Type :=
| call_add_keyspace (name : N)
| call_drop_keyspace (name : N)
| call_add_column_family (s : schema)
| call_drop_column_family (ks cf : N).

(** A call that throws leaves the database as it was. *)
Definition after (db : database) (c : call) : database :=
  match c with
  | call_add_keyspace name =>
      match add_keyspace db name with inr db' => db' | inl _ => db end
  | call_drop_keyspace name => drop_keyspace db name
  | call_add_column_family s =>
      match add_column_family db s with inr db' => db' | inl _ => db end
  | call_drop_column_family ks cf =>
      match drop_column_family db ks cf with inr (db', _) => db' | inl _ => db end
  end.

Definition after_all (calls : list call) : database :=
  fold_left after calls empty_database.

(** The two maps of tables tell the same story. *)
Definition consistent (db : database) : Prop :=
  (forall ks cf uuid, _ks_cf_to_uuid db !! (ks, cf) = Some uuid ->
     exists s, _column_families db !! uuid = Some s /\
               id s = uuid /\ ks_name s = ks /\ cf_name s = cf) /\
  (forall uuid s, _column_families db !! uuid = Some s ->
     id s = uuid /\ _ks_cf_to_uuid db !! (ks_name s, cf_name s) = Some uuid).

End registry.

(* ===================================================================== *)
(** * Properties                                                          *)
(* ===================================================================== *)

(** ** Cell reconciliation *)

Lemma compare_unsigned_refl (v : cell.bytes) : cell.compare_unsigned v v = 0.
Proof.
  induction v as [|b t IH]; simpl; [reflexivity|].
  rewrite N.compare_refl. exact IH.
Qed.

Lemma compare_unsigned_lt (v1 v2 : cell.bytes) :
  cell.lex_lt v1 v2 -> cell.compare_unsigned v1 v2 = -1.
Proof.
  induction 1 as [b t | b1 b2 t1 t2 Hlt | b t1 t2 _ IH]; simpl.
  - reflexivity.
  - apply N.compare_lt_iff in Hlt. rewrite Hlt. reflexivity.
  - rewrite N.compare_refl. exact IH.
Qed.

Lemma compare_unsigned_gt (v1 v2 : cell.bytes) :
  cell.lex_lt v2 v1 -> cell.compare_unsigned v1 v2 = 1.
Proof.
  induction 1 as [b t | b1 b2 t1 t2 Hlt | b t1 t2 _ IH]; simpl.
  - reflexivity.
  - apply N.compare_gt_iff in Hlt. rewrite Hlt. reflexivity.
  - rewrite N.compare_refl. exact IH.
Qed.

Lemma compare_unsigned_eq (v1 v2 : cell.bytes) :
  cell.compare_unsigned v1 v2 = 0 -> v1 = v2.
Proof.
  revert v2; induction v1 as [|b1 t1 IH]; intros [|b2 t2]; simpl;
    try discriminate; [reflexivity|].
  destruct (N.compare_spec (Byte.to_N b1) (Byte.to_N b2)) as [He|_|_];
    try discriminate.
  intros Hc. apply IH in Hc. subst t2.
  assert (Some b1 = Some b2) as Hb
    by (rewrite <- (Byte.of_to_N b1), <- (Byte.of_to_N b2), He; reflexivity).
  injection Hb as ->. reflexivity.
Qed.

(** The comparison is total on values: exactly one of smaller, equal and
    larger holds, and the sign of [compare_unsigned] tells which. *)
Lemma compare_unsigned_sign (v1 v2 : cell.bytes) :
  (cell.lex_lt v1 v2 /\ cell.compare_unsigned v1 v2 = -1) \/
  (v1 = v2 /\ cell.compare_unsigned v1 v2 = 0) \/
  (cell.lex_lt v2 v1 /\ cell.compare_unsigned v1 v2 = 1).
Proof.
  revert v2; induction v1 as [|b1 t1 IH]; intros [|b2 t2]; simpl.
  - right; left; split; reflexivity.
  - left; split; [constructor | reflexivity].
  - right; right; split; [constructor | reflexivity].
  - destruct (N.compare_spec (Byte.to_N b1) (Byte.to_N b2)) as [He|Hl|Hg].
    + assert (Some b1 = Some b2) as Hb
        by (rewrite <- (Byte.of_to_N b1), <- (Byte.of_to_N b2), He; reflexivity).
      injection Hb as ->.
      destruct (IH t2) as [[Hlt Hc]|[[-> Hc]|[Hgt Hc]]].
      * left; split; [apply cell.lex_lt_tail, Hlt | exact Hc].
      * right; left; split; [reflexivity | exact Hc].
      * right; right; split; [apply cell.lex_lt_tail, Hgt | exact Hc].
    + left; split; [apply cell.lex_lt_head, Hl | reflexivity].
    + right; right; split; [apply cell.lex_lt_head, Hg | reflexivity].
Qed.

Lemma compare_unsigned_antisym (v1 v2 : cell.bytes) :
  cell.compare_unsigned v2 v1 = - cell.compare_unsigned v1 v2.
Proof.
  revert v2; induction v1 as [|b1 t1 IH]; intros [|b2 t2]; simpl;
    try reflexivity.
  rewrite (N.compare_antisym (Byte.to_N b1) (Byte.to_N b2)).
  destruct (Byte.to_N b1 ?= Byte.to_N b2)%N; simpl; [apply IH | | ]; reflexivity.
Qed.

(** The two cells can be given in either order: as long as deletion times
    fit 32 bits, so that distinct ones stay distinct as unsigned numbers,
    swapping the arguments flips the result. *)
Lemma compare_atomic_cell_for_merge_antisym (l r : cell.atomic_cell_view) :
  (cell.deletion_time l <> cell.deletion_time r ->
   cell.to_uint32 (cell.deletion_time l) <> cell.to_uint32 (cell.deletion_time r)) ->
  cell.compare_atomic_cell_for_merge r l = - cell.compare_atomic_cell_for_merge l r.
Proof.
  intros Hinj. unfold cell.compare_atomic_cell_for_merge.
  rewrite (Z.eqb_sym (cell.timestamp r)), (Z.eqb_sym (cell.expiry r)),
          (Z.eqb_sym (cell.deletion_time r)),
          (compare_unsigned_antisym (cell.value l) (cell.value r)).
  destruct (Z.eqb_spec (cell.timestamp l) (cell.timestamp r)) as [Hts|Hts]; simpl.
  - destruct (cell.is_live l) eqn:Hl, (cell.is_live r) eqn:Hr; simpl;
      try reflexivity.
    + destruct (Z.eqb_spec (cell.compare_unsigned (cell.value l) (cell.value r)) 0)
        as [Hc|Hc].
      * rewrite Hc. simpl. rewrite (andb_comm (cell.is_live_and_has_ttl r)).
        destruct (cell.is_live_and_has_ttl l && cell.is_live_and_has_ttl r);
          simpl; [|reflexivity].
        destruct (Z.eqb_spec (cell.expiry l) (cell.expiry r)); simpl;
          [reflexivity|].
        destruct (Z.ltb_spec (cell.expiry l) (cell.expiry r)),
                 (Z.ltb_spec (cell.expiry r) (cell.expiry l)); simpl; lia.
      * destruct (Z.eqb_spec (- cell.compare_unsigned (cell.value l) (cell.value r)) 0);
          simpl; [lia|reflexivity].
    + destruct (Z.eqb_spec (cell.deletion_time l) (cell.deletion_time r)) as [Hd|Hd];
        simpl; [reflexivity|].
      specialize (Hinj Hd).
      destruct (Z.ltb_spec (cell.to_uint32 (cell.deletion_time l))
                           (cell.to_uint32 (cell.deletion_time r))),
               (Z.ltb_spec (cell.to_uint32 (cell.deletion_time r))
                           (cell.to_uint32 (cell.deletion_time l))); simpl; lia.
  - destruct (Z.gtb_spec (cell.timestamp l) (cell.timestamp r)),
             (Z.gtb_spec (cell.timestamp r) (cell.timestamp l)); simpl; lia.
Qed.

(** C1, as the code has it.  For any two atomic cells [l] and [r]:
    the higher timestamp wins; at equal timestamps a deleted cell beats a
    live one; two live cells are ordered by their values, the larger
    byte-lexicographic value winning; when the values are equal too and both
    cells carry a TTL, the cell with the LATER expiry wins; two deleted cells
    are ordered by their deletion times taken as unsigned 32-bit seconds, the
    larger winning. *)
Theorem compare_atomic_cell_for_merge_order (l r : cell.atomic_cell_view) :
  (cell.timestamp r < cell.timestamp l -> cell.left_wins l r) /\
  (cell.timestamp l < cell.timestamp r -> cell.right_wins l r) /\
  (cell.timestamp l = cell.timestamp r ->
     (cell.is_live l = false -> cell.is_live r = true -> cell.left_wins l r) /\
     (cell.is_live l = true -> cell.is_live r = false -> cell.right_wins l r) /\
     (cell.is_live l = true -> cell.is_live r = true ->
        (cell.lex_lt (cell.value r) (cell.value l) -> cell.left_wins l r) /\
        (cell.lex_lt (cell.value l) (cell.value r) -> cell.right_wins l r) /\
        (cell.value l = cell.value r ->
         cell.is_live_and_has_ttl l = true ->
         cell.is_live_and_has_ttl r = true ->
           (cell.expiry r < cell.expiry l -> cell.left_wins l r) /\
           (cell.expiry l < cell.expiry r -> cell.right_wins l r))) /\
     (cell.is_live l = false -> cell.is_live r = false ->
        (cell.to_uint32 (cell.deletion_time r)
           < cell.to_uint32 (cell.deletion_time l) -> cell.left_wins l r) /\
        (cell.to_uint32 (cell.deletion_time l)
           < cell.to_uint32 (cell.deletion_time r) -> cell.right_wins l r))).
Proof.
  unfold cell.left_wins, cell.right_wins, cell.compare_atomic_cell_for_merge.
  split; [|split]; [| |intros Hts; split; [|split; [|split]]].
  - intros H. destruct (Z.eqb_spec (cell.timestamp l) (cell.timestamp r)); [lia|].
    simpl. destruct (Z.gtb_spec (cell.timestamp l) (cell.timestamp r)); lia.
  - intros H. destruct (Z.eqb_spec (cell.timestamp l) (cell.timestamp r)); [lia|].
    simpl. destruct (Z.gtb_spec (cell.timestamp l) (cell.timestamp r)); lia.
  - intros Hl Hr. rewrite Hts, Z.eqb_refl, Hl, Hr. simpl. lia.
  - intros Hl Hr. rewrite Hts, Z.eqb_refl, Hl, Hr. simpl. lia.
  - intros Hl Hr. rewrite Hts, Z.eqb_refl, Hl, Hr. simpl.
    split; [|split].
    + intros Hv. rewrite (compare_unsigned_gt _ _ Hv). simpl. lia.
    + intros Hv. rewrite (compare_unsigned_lt _ _ Hv). simpl. lia.
    + intros Hv Htl Htr. rewrite Hv, compare_unsigned_refl, Htl, Htr. simpl.
      split; intros He.
      * destruct (Z.eqb_spec (cell.expiry l) (cell.expiry r)); [lia|]. simpl.
        destruct (Z.ltb_spec (cell.expiry l) (cell.expiry r)); lia.
      * destruct (Z.eqb_spec (cell.expiry l) (cell.expiry r)); [lia|]. simpl.
        destruct (Z.ltb_spec (cell.expiry l) (cell.expiry r)); lia.
  - intros Hl Hr. rewrite Hts, Z.eqb_refl, Hl, Hr. simpl.
    split; intros Hd.
    + destruct (Z.eqb_spec (cell.deletion_time l) (cell.deletion_time r)) as [E|_];
        [rewrite E in Hd; lia|]. simpl.
      destruct (Z.ltb_spec (cell.to_uint32 (cell.deletion_time l))
                           (cell.to_uint32 (cell.deletion_time r))); lia.
    + destruct (Z.eqb_spec (cell.deletion_time l) (cell.deletion_time r)) as [E|_];
        [rewrite E in Hd; lia|]. simpl.
      destruct (Z.ltb_spec (cell.to_uint32 (cell.deletion_time l))
                           (cell.to_uint32 (cell.deletion_time r))); lia.
Qed.

(** The order is used at two expiring cells that differ in their expiry
    only: the one expiring at 20 is kept over the one expiring at 10. *)
Lemma compare_atomic_cell_for_merge_order_witness :
  cell.right_wins cell.expiring_10 cell.expiring_20.
Proof.
  destruct (compare_atomic_cell_for_merge_order cell.expiring_10 cell.expiring_20)
    as (_ & _ & Hsame).
  destruct (Hsame eq_refl) as (_ & _ & Hlive & _).
  destruct (Hlive eq_refl eq_refl) as (_ & _ & Hexp).
  destruct (Hexp eq_refl eq_refl eq_refl) as (_ & Hlater).
  apply Hlater. reflexivity.
Defined.

(** C1 as the spec words it ("if equal, earlier expiry wins") fails: with
    equal timestamps and values and both cells expiring, the cell with the
    earlier expiry loses. *)
Lemma earlier_expiry_does_not_win :
  cell.timestamp cell.expiring_10 = cell.timestamp cell.expiring_20 /\
  cell.value cell.expiring_10 = cell.value cell.expiring_20 /\
  cell.is_live_and_has_ttl cell.expiring_10 = true /\
  cell.is_live_and_has_ttl cell.expiring_20 = true /\
  cell.expiry cell.expiring_10 < cell.expiry cell.expiring_20 /\
  cell.compare_atomic_cell_for_merge cell.expiring_10 cell.expiring_20 = -1 /\
  ~ cell.left_wins cell.expiring_10 cell.expiring_20.
Proof.
  repeat split; try reflexivity. unfold cell.left_wins. vm_compute. discriminate.
Qed.

(** ** The write path *)

Section write_path_properties.
Import write_path.

Lemma replay_position_ltb_irrefl (a : replay_position.t) :
  replay_position.ltb a a = false.
Proof.
  unfold replay_position.ltb.
  rewrite !N.ltb_irrefl, N.eqb_refl. reflexivity.
Qed.

Lemma check_valid_rp_spec (cf : column_family.t) (rp : replay_position.t) :
  column_family.check_valid_rp cf rp = Some replay_position_reordered_exception
  <-> replay_position.ltb rp (column_family._highest_flushed_rp cf) = true.
Proof.
  unfold column_family.check_valid_rp.
  destruct (replay_position.ltb rp _); split; congruence.
Qed.

Lemma set_column_family_same (d : database.t) (id : uuid) (cf : column_family.t) :
  database._column_families d !! id = Some cf ->
  database.set_column_family d id cf = d.
Proof.
  intros H. destruct d as [cfs tw lg]; unfold database.set_column_family; simpl in *.
  f_equal. apply insert_id, H.
Qed.

(** A reordered position makes [apply_in_memory] fail without any change. *)
Lemma apply_in_memory_reordered (d : database.t) (m : frozen_mutation)
    (s : schema) (rp : replay_position.t) (cf : column_family.t) :
  database._column_families d !! column_family_id m = Some cf ->
  replay_position.ltb rp (column_family._highest_flushed_rp cf) = true ->
  database.apply_in_memory d m s rp = threw replay_position_reordered_exception d.
Proof.
  intros Hcf Hlt.
  unfold database.apply_in_memory, database.find_column_family.
  rewrite Hcf. unfold column_family.apply_frozen, column_family.check_valid_rp.
  rewrite Hlt. rewrite (set_column_family_same _ _ _ Hcf). reflexivity.
Qed.

(** A position that is not reordered is applied to the active memtable. *)
Lemma apply_in_memory_in_order (d : database.t) (m : frozen_mutation)
    (s : schema) (rp : replay_position.t) (cf : column_family.t) :
  database._column_families d !! column_family_id m = Some cf ->
  replay_position.ltb rp (column_family._highest_flushed_rp cf) = false ->
  database.apply_in_memory d m s rp =
    returned (database.set_column_family d (column_family_id m)
      (column_family.mark_write
         (column_family.with_active cf
            (memtable_apply (column_family.active_memtable cf)
               (applied_frozen m s) rp)))).
Proof.
  intros Hcf Hlt.
  unfold database.apply_in_memory, database.find_column_family.
  rewrite Hcf. unfold column_family.apply_frozen, column_family.check_valid_rp.
  rewrite Hlt. reflexivity.
Qed.

Lemma apply_retries_until_in_order (lows : list replay_position.t) :
  forall (good : replay_position.t) (rest : list database.add_entry_answer)
         (d : database.t) (s : schema) (m : frozen_mutation)
         (cf : column_family.t),
  database._column_families d !! column_family_id m = Some cf ->
  column_family._commitlog cf = true ->
  is_synced s = true ->
  Forall (fun rp =>
    replay_position.ltb rp (column_family._highest_flushed_rp cf) = true) lows ->
  replay_position.ltb good (column_family._highest_flushed_rp cf) = false ->
  database.apply (map quiet lows ++ quiet good :: rest) d s m
  = database.resolved (after_retries d m s cf good (length lows)) rest.
Proof.
  induction lows as [|low lows IH]; intros good rest d s m cf Hcf Hcl Hs Hlows Hgood.
  - simpl. unfold database.apply. simpl.
    unfold database.find_column_family at 1. rewrite Hcf, Hs, Hcl. simpl.
    rewrite (apply_in_memory_in_order _ _ _ _ _ Hcf Hgood). simpl.
    unfold after_retries, database.count_write, database.set_column_family. simpl.
    rewrite app_nil_r. reflexivity.
  - inversion Hlows as [|? ? Hlow Hlows']; subst.
    unfold database.apply. simpl.
    unfold database.find_column_family at 1. rewrite Hcf, Hs, Hcl. simpl.
    rewrite (apply_in_memory_reordered _ _ _ _ _ Hcf Hlow).
    fold (database.apply (map quiet lows ++ quiet good :: rest)
            (database.log d database.debug_replay_position_reordering) s m).
    rewrite (IH good rest _ s m cf); try assumption.
    simpl. unfold after_retries, database.count_write. simpl.
    f_equal. f_equal.
    + lia.
    + rewrite <- app_assoc. reflexivity.
Qed.

Lemma apply_retries_whatever_happens_meanwhile
    (m : frozen_mutation) (s : schema)
    (lows : list database.add_entry_answer) :
  forall (good : database.add_entry_answer)
         (rest : list database.add_entry_answer)
         (d : database.t) (cf0 cf_good : column_family.t),
  is_synced s = true ->
  database._column_families d !! column_family_id m = Some cf0 ->
  column_family._commitlog cf0 = true ->
  all_reordered m lows d ->
  database._column_families (database.meanwhile good (after_reordered lows d))
    !! column_family_id m = Some cf_good ->
  replay_position.ltb (database.rp_of good)
    (column_family._highest_flushed_rp cf_good) = false ->
  database.apply (lows ++ good :: rest) d s m
  = database.resolved
      (after_attempts (database.meanwhile good (after_reordered lows d))
         m s cf_good (database.rp_of good) (length lows)) rest.
Proof.
  induction lows as [|low lows IH];
    intros good rest d cf0 cf_good Hs Hcf0 Hcl0 Hlows Hcf Hgood.
  - simpl in *. unfold database.apply. simpl.
    unfold database.find_column_family at 1. rewrite Hcf0, Hs, Hcl0. simpl.
    rewrite (apply_in_memory_in_order _ _ _ _ _ Hcf Hgood). simpl.
    unfold after_attempts, database.count_write, database.set_column_family.
    simpl. reflexivity.
  - destruct Hlows as [(cf1 & Hcf1 & Hlow & Hcl1) Hlows].
    unfold database.apply. simpl.
    unfold database.find_column_family at 1. rewrite Hcf0, Hs, Hcl0. simpl.
    rewrite (apply_in_memory_reordered _ _ _ _ _ Hcf1 Hlow).
    fold (database.apply (lows ++ good :: rest)
            (database.log (database.meanwhile low d)
               database.debug_replay_position_reordering) s m).
    rewrite (IH good rest
               (database.log (database.meanwhile low d)
                  database.debug_replay_position_reordering)
               cf1 cf_good Hs Hcf1 Hcl1 Hlows Hcf Hgood).
    simpl. unfold after_attempts, database.count_write. simpl.
    f_equal. f_equal. lia.
Qed.

(** C2, as the code has it.  [column_family::apply(frozen_mutation, schema,
    rp)] raises the replay-position-reordered error exactly when [rp] is
    lower than the highest flushed replay position, and then leaves the
    memtable as it was; otherwise it applies the mutation to the active
    memtable.  On that error the database layer, for a table with a commit
    log, retries through [database::apply], appending to the commit log
    again, and does so every time the reordering recurs, whatever the other
    fibers of the shard (the flush that overtakes the append, for one) do to
    the database while an append is in flight: after any number of appends
    that come back reordered, the first append that is in order for the
    table as it then is makes the write succeed, with one debug line for
    each retry and every attempt counted as a write. *)
Theorem apply_reordering_is_retried
    (cf : column_family.t) (m : frozen_mutation) (s : schema) :
  (forall rp,
     replay_position.ltb rp (column_family._highest_flushed_rp cf) = true ->
     column_family.apply_frozen cf m s rp
     = threw replay_position_reordered_exception cf) /\
  (forall rp,
     replay_position.ltb rp (column_family._highest_flushed_rp cf) = false ->
     column_family.apply_frozen cf m s rp
     = returned (column_family.mark_write
         (column_family.with_active cf
            (memtable_apply (column_family.active_memtable cf)
               (applied_frozen m s) rp)))) /\
  (forall (lows : list database.add_entry_answer)
          (good : database.add_entry_answer)
          (rest : list database.add_entry_answer)
          (d : database.t) (cf_good : column_family.t),
     database._column_families d !! column_family_id m = Some cf ->
     column_family._commitlog cf = true ->
     is_synced s = true ->
     all_reordered m lows d ->
     database._column_families
       (database.meanwhile good (after_reordered lows d))
       !! column_family_id m = Some cf_good ->
     replay_position.ltb (database.rp_of good)
       (column_family._highest_flushed_rp cf_good) = false ->
     database.apply (lows ++ good :: rest) d s m
     = database.resolved
         (after_attempts (database.meanwhile good (after_reordered lows d))
            m s cf_good (database.rp_of good) (length lows)) rest).
Proof.
  split; [|split].
  - intros rp H. unfold column_family.apply_frozen, column_family.check_valid_rp.
    rewrite H. reflexivity.
  - intros rp H. unfold column_family.apply_frozen, column_family.check_valid_rp.
    rewrite H. reflexivity.
  - intros lows good rest d cf_good Hcf Hcl Hs Hlows Hgood Hrp.
    apply (apply_retries_whatever_happens_meanwhile m s lows good rest d
             cf cf_good); assumption.
Qed.

Lemma apply_in_memory_threw (d d' : database.t) (m : frozen_mutation)
    (s : schema) (rp : replay_position.t) (e : exn) :
  database.apply_in_memory d m s rp = threw e d' ->
  exists cf, database._column_families d !! column_family_id m = Some cf /\
             database._column_families d' !! column_family_id m = Some cf /\
             e = replay_position_reordered_exception.
Proof.
  unfold database.apply_in_memory, database.find_column_family.
  destruct (database._column_families d !! column_family_id m) as [cf|] eqn:Hcf;
    [|discriminate].
  unfold column_family.apply_frozen, column_family.check_valid_rp.
  destruct (replay_position.ltb rp (column_family._highest_flushed_rp cf));
    [|discriminate].
  intros H. injection H as <- <-. exists cf.
  split; [reflexivity|]. split; [|reflexivity].
  unfold database.set_column_family; simpl. apply lookup_insert_eq.
Qed.

(** X4.  However the other fibers interfere and whatever the commit log
    answers, the reordering error only reaches the caller of
    [database::do_apply] for a table without a commit log, where no retry is
    attempted. *)
Lemma reordering_surfaces_only_without_commitlog
    (cl : list database.add_entry_answer) :
  forall (d : database.t) (s : schema) (m : frozen_mutation)
         (d' : database.t) (rest : list database.add_entry_answer),
  database.do_apply cl d s m
    = database.failed replay_position_reordered_exception d' rest ->
  exists cf, database._column_families d' !! column_family_id m = Some cf /\
             column_family._commitlog cf = false.
Proof.
  assert (forall (d : database.t) (s : schema) (m : frozen_mutation)
                 (cf : column_family.t) (d' : database.t)
                 (rest rest' : list database.add_entry_answer),
    database._column_families d !! column_family_id m = Some cf ->
    column_family._commitlog cf = false ->
    database.of_completion
      (database.apply_in_memory d m s replay_position.zero) rest
      = database.failed replay_position_reordered_exception d' rest' ->
    exists cf, database._column_families d' !! column_family_id m = Some cf /\
               column_family._commitlog cf = false) as Hplain.
  { intros d s m cf d' rest rest' Hcf Hcl Hfail.
    destruct (database.apply_in_memory d m s replay_position.zero)
      as [d1|e d1] eqn:Happ; simpl in Hfail; [discriminate|].
    injection Hfail as -> -> _.
    destruct (apply_in_memory_threw _ _ _ _ _ _ Happ) as (cf' & Hcf' & Hd' & _).
    exists cf'. split; [exact Hd'|]. congruence. }
  induction cl as [|answer cl IH]; intros d s m d' rest; simpl;
    unfold database.find_column_family;
    destruct (database._column_families d !! column_family_id m) as [cf|] eqn:Hcf;
    try discriminate;
    destruct (is_synced s); simpl; try discriminate;
    destruct (column_family._commitlog cf) eqn:Hcl; try discriminate;
    try (apply (Hplain d s m cf); assumption).
  destruct (database.apply_in_memory (database.meanwhile answer d) m s
              (database.rp_of answer)) as [d1|e d1] eqn:Happ; [discriminate|].
  destruct (apply_in_memory_threw _ _ _ _ _ _ Happ) as (_ & _ & _ & ->).
  intros Hfail.
  destruct (database.do_apply cl
              (database.log d1 database.debug_replay_position_reordering) s m)
    as [d2 r2|e2 d2 r2|d2] eqn:Hrec; simpl in Hfail; try discriminate.
  injection Hfail as -> -> ->.
  exact (IH _ _ _ _ _ Hrec).
Qed.

End write_path_properties.

Section write_path_scenarios.
Import write_path.

(** The append of the write is overtaken by a flush twice in a row, the
    third append is in order: the write is retried twice and succeeds. *)
Lemma apply_reordering_is_retried_witness :
  database.apply
    ([ raced (replay_position.mk 1 10) (replay_position.mk 1 11);
       raced (replay_position.mk 1 20) (replay_position.mk 1 21) ]
     ++ quiet (replay_position.mk 1 30) :: [])
    db_one_table synced write_to_7
  = database.resolved
      (after_attempts
         (database.meanwhile (quiet (replay_position.mk 1 30))
            (after_reordered
               [ raced (replay_position.mk 1 10) (replay_position.mk 1 11);
                 raced (replay_position.mk 1 20) (replay_position.mk 1 21) ]
               db_one_table))
         write_to_7 synced cf7_flushed_twice (replay_position.mk 1 30) 2) [].
Proof.
  apply (proj2 (proj2 (apply_reordering_is_retried cf7 write_to_7 synced))).
  - reflexivity.
  - reflexivity.
  - reflexivity.
  - simpl. split; [|split; [|exact I]].
    + exists (column_family.seal_active_memtable
                (column_family.mark_write
                   (column_family.with_active cf7
                      (memtable_apply (column_family.active_memtable cf7)
                         (applied_frozen other_write_to_7 synced)
                         (replay_position.mk 1 11))))).
      vm_compute. repeat split.
    + exists cf7_flushed_twice. vm_compute. repeat split.
  - vm_compute. reflexivity.
  - reflexivity.
Defined.

(** C2 as the spec words it (one retry, then failure) fails, in a run where
    the reordering has its real cause.  While the first append of the write
    is in flight, a flush takes the table to position (1, 11); the append
    answers (1, 10) and the write is reordered.  While the retry's append is
    in flight, another flush takes the table to (1, 21); the append answers
    (1, 20): the reordering persists.  The write does not fail: it is
    appended a third time, at (1, 30), and succeeds. *)
Lemma reordering_is_retried_more_than_once :
  database.apply_in_memory
    (racing_flush (replay_position.mk 1 11) db_one_table)
    write_to_7 synced (replay_position.mk 1 10)
    = threw replay_position_reordered_exception
        (racing_flush (replay_position.mk 1 11) db_one_table) /\
  database.apply_in_memory
    (racing_flush (replay_position.mk 1 21)
       (database.log (racing_flush (replay_position.mk 1 11) db_one_table)
          database.debug_replay_position_reordering))
    write_to_7 synced (replay_position.mk 1 20)
    = threw replay_position_reordered_exception
        (racing_flush (replay_position.mk 1 21)
           (database.log (racing_flush (replay_position.mk 1 11) db_one_table)
              database.debug_replay_position_reordering)) /\
  database.apply overtaken_twice db_one_table synced write_to_7
    = database.resolved
        {| database._column_families :=
             {[ 7%N := cf7_written (replay_position.mk 1 30)
                                   (replay_position.mk 1 21) 3 ]};
           database.total_writes := 3;
           database.dblog := [database.debug_replay_position_reordering;
                              database.debug_replay_position_reordering] |}
        [].
Proof.
  split; [|split]; vm_compute; reflexivity.
Qed.

(** The same without interference: the table has flushed up to (1, 50)
    and the commit log answers (1, 10), (1, 20) and then (1, 60). *)
Example reordered_twice_still_succeeds :
  database.apply reordered_twice db_flushed synced write_to_7
    = database.resolved
        {| database._column_families :=
             {[ 7%N := cf7_written (replay_position.mk 1 60)
                                   (replay_position.mk 1 50) 1 ]};
           database.total_writes := 3;
           database.dblog := [database.debug_replay_position_reordering;
                              database.debug_replay_position_reordering] |}
        [].
Proof. vm_compute. reflexivity. Qed.

End write_path_scenarios.

Section unknown_column_family.
Import write_path.

(** C7, as the code has it.  A frozen mutation whose column-family id is
    not in the database when [database::apply_in_memory] runs is logged and
    dropped: the call returns normally and no column family changes.  Through
    [database::apply] this is what happens when the table is removed while
    the commit-log append is in flight (the write is then still counted).
    When the id is already unknown as [database::apply] starts, the call
    fails with [no_such_column_family]; nothing is appended, logged or
    modified. *)
Theorem unknown_column_family_on_write (m : frozen_mutation) (s : schema) :
  (forall (d : database.t) (rp : replay_position.t),
     database._column_families d !! column_family_id m = None ->
     database.apply_in_memory d m s rp
     = returned (database.log d
         (database.error_mutate_non_existent_table (column_family_id m)))) /\
  (forall (cl : list database.add_entry_answer) (d : database.t),
     database._column_families d !! column_family_id m = None ->
     database.apply cl d s m
     = database.failed (no_such_column_family (column_family_id m)) d cl) /\
  (forall (answer : database.add_entry_answer)
          (cl : list database.add_entry_answer) (d : database.t)
          (cf : column_family.t),
     database._column_families d !! column_family_id m = Some cf ->
     column_family._commitlog cf = true ->
     is_synced s = true ->
     database._column_families (database.meanwhile answer d)
       !! column_family_id m = None ->
     database.apply (answer :: cl) d s m
     = database.resolved
         (database.count_write
            (database.log (database.meanwhile answer d)
               (database.error_mutate_non_existent_table (column_family_id m))))
         cl).
Proof.
  split; [|split].
  - intros d rp H. unfold database.apply_in_memory, database.find_column_family.
    rewrite H. reflexivity.
  - intros cl d H. unfold database.apply.
    destruct cl; simpl; unfold database.find_column_family; rewrite H; reflexivity.
  - intros answer cl d cf Hcf Hcl Hs Hgone. unfold database.apply. simpl.
    unfold database.find_column_family at 1. rewrite Hcf, Hs, Hcl. simpl.
    unfold database.apply_in_memory, database.find_column_family.
    rewrite Hgone. reflexivity.
Qed.

(** Both cases on table 7: unknown from the start, and dropped while the
    append is in flight. *)
Lemma unknown_column_family_on_write_witness :
  database.apply [] db_no_table synced write_to_7
    = database.failed (no_such_column_family 7%N) db_no_table [] /\
  database.apply dropped_meanwhile db_one_table synced write_to_7
    = database.resolved
        (database.count_write
           (database.log (database.erase_column_family 7%N db_one_table)
              (database.error_mutate_non_existent_table 7%N)))
        [].
Proof.
  destruct (unknown_column_family_on_write write_to_7 synced) as (_ & Hstart & Hrace).
  split.
  - apply Hstart. reflexivity.
  - exact (Hrace (hd (quiet replay_position.zero) dropped_meanwhile) []
             db_one_table cf7 eq_refl eq_refl eq_refl eq_refl).
Defined.

(** C7 as the spec words it fails: a write through [database::apply] to a
    table the database does not know ends with an error, not silently.  The
    commit-log answer that was ready is not consumed and nothing is logged. *)
Lemma unknown_table_write_is_an_error :
  database._column_families db_no_table !! column_family_id write_to_7 = None /\
  database.apply [quiet (replay_position.mk 1 10)] db_no_table synced write_to_7
    = database.failed (no_such_column_family 7%N) db_no_table
        [quiet (replay_position.mk 1 10)].
Proof. split; reflexivity. Qed.

End unknown_column_family.

Section non_frozen_apply.
Import write_path.

(** C10.  The overload [column_family::apply(const mutation&, const
    db::replay_position&)] validates nothing: for every [rp] it returns
    normally, having appended the mutation to the active memtable and left
    the highest flushed position alone; this includes every [rp] below the
    highest flushed position, where the [frozen_mutation] overload raises
    the reordering error instead. *)
Theorem apply_mutation_does_not_check_rp
    (cf : column_family.t) (m : mutation) (rp : replay_position.t) :
  exists cf' : column_family.t,
    column_family.apply cf m rp = returned cf' /\
    contents (column_family.active_memtable cf')
      = contents (column_family.active_memtable cf) ++ [applied_mutation m] /\
    highest_rp (column_family.active_memtable cf')
      = replay_position.max (highest_rp (column_family.active_memtable cf)) rp /\
    column_family._highest_flushed_rp cf' = column_family._highest_flushed_rp cf /\
    (replay_position.ltb rp (column_family._highest_flushed_rp cf) = true ->
     forall (fm : frozen_mutation) (s : schema),
       column_family.apply_frozen cf fm s rp
       = threw replay_position_reordered_exception cf).
Proof.
  eexists. split; [reflexivity|]. simpl. repeat split.
  intros Hlt fm s. unfold column_family.apply_frozen, column_family.check_valid_rp.
  rewrite Hlt. reflexivity.
Qed.

(** At position (1, 10), below the flushed position (1, 50): the plain
    overload applies the write, the frozen one refuses it. *)
Lemma apply_mutation_does_not_check_rp_witness :
  (exists cf' : column_family.t,
     column_family.apply cf7_flushed plain_write_to_7 (replay_position.mk 1 10)
       = returned cf' /\
     contents (column_family.active_memtable cf')
       = [applied_mutation plain_write_to_7]) /\
  column_family.apply_frozen cf7_flushed write_to_7 synced (replay_position.mk 1 10)
    = threw replay_position_reordered_exception cf7_flushed.
Proof.
  destruct (apply_mutation_does_not_check_rp cf7_flushed plain_write_to_7
              (replay_position.mk 1 10)) as (cf' & Happ & Hc & _ & _ & Hfrozen).
  split.
  - exists cf'. split; [exact Happ | exact Hc].
  - apply Hfrozen. reflexivity.
Defined.

End non_frozen_apply.

(** ** Sstable filtering *)

Section sstable_filter_properties.
Import sstable_filter.

Variable data_type : Type.
Variable type_compare : data_type -> bytes -> bytes -> Z.
Variable overlaps :
  data_type -> nonwrapping_range bytes -> nonwrapping_range bytes -> bool.

Lemma fold_min_below (l : list sstable) (a : Z) :
  let m := fold_left
             (fun acc sst => Z.min acc (min_timestamp (get_stats_metadata sst))) l a in
  m <= a /\
  (forall k, In k l -> m <= min_timestamp (get_stats_metadata k)) /\
  (m = a \/ exists k, In k l /\ m = min_timestamp (get_stats_metadata k)).
Proof using Type.
  revert a; induction l as [|x l IH]; intros a; simpl.
  - split; [lia|]. split; [intros k []|left; reflexivity].
  - destruct (IH (Z.min a (min_timestamp (get_stats_metadata x))))
      as (Hle & Hall & Hatt).
    split; [lia|]. split.
    + intros k [<-|Hk]; [lia|]. apply Hall, Hk.
    + destruct Hatt as [Heq|(k & Hk & Heq)].
      * destruct (Z.min_spec a (min_timestamp (get_stats_metadata x)))
          as [[_ Hm]|[_ Hm]].
        -- left. lia.
        -- right. exists x. split; [left; reflexivity|lia].
      * right. exists k. split; [right; exact Hk|exact Heq].
Qed.

(** [min_timestamp_after] is the minimum of the min-timestamps of the kept
    sstables, [INT64_MAX] standing for the minimum of nothing. *)
Lemma min_timestamp_after_is_minimum (kept : list sstable) :
  min_timestamp_after kept <= INT64_MAX /\
  (forall k, In k kept ->
     min_timestamp_after kept <= min_timestamp (get_stats_metadata k)) /\
  (min_timestamp_after kept = INT64_MAX \/
   exists k, In k kept /\
     min_timestamp_after kept = min_timestamp (get_stats_metadata k)).
Proof using Type. apply (fold_min_below kept INT64_MAX). Qed.

(** Membership after the two partition passes. *)
Lemma clustering_filter_pass_In (sstables : list sstable) (s : schema data_type)
    (ranges : ck_filter_clustering_key_ranges) (x : sstable) :
  let kept := List.filter (fun sst => contains_rows data_type overlaps sst s ranges)
                          sstables in
  In x (clustering_filter_pass data_type overlaps sstables s ranges) <->
  In x sstables /\
  (contains_rows data_type overlaps x s ranges = true \/
   sstable_has_relevant_tombstone (min_timestamp_after kept) x = true).
Proof using data_type overlaps.
  unfold clustering_filter_pass.
  rewrite (partition_as_filter _ sstables).
  rewrite (partition_as_filter (sstable_has_relevant_tombstone _)).
  simpl. rewrite in_app_iff, !filter_In.
  split.
  - intros [[Hin Hc]|[[Hin _] Ht]]; split; auto.
  - intros [Hin [Hc|Ht]]; [left; auto|].
    destruct (contains_rows data_type overlaps x s ranges) eqn:Hc;
      [left; auto | right; auto].
Qed.

Lemma sstable_has_relevant_tombstone_spec (min_ts : Z) (x : sstable) :
  sstable_has_relevant_tombstone min_ts x = true <->
  max_timestamp (get_stats_metadata x) > min_ts /\
  estimated_tombstone_drop_time (get_stats_metadata x) <> [].
Proof using Type.
  unfold sstable_has_relevant_tombstone.
  rewrite andb_true_iff, negb_true_iff, Z.gtb_gt.
  destruct (estimated_tombstone_drop_time (get_stats_metadata x)); simpl;
    split; intros [H1 H2]; split; auto; congruence.
Qed.

(** C3.  When the single-key filter gets to the clustering-range check
    (the schema has a clustering key, the strategy wants the filter, the
    slice is not the single full range and yields at least one range tuple),
    let [candidates] be the sstables that pass the bloom filter, [kept] those
    of them the overlap check accepts, and [min_ts] the minimum of the
    min-timestamps of [kept].  Then the filter returns every kept sstable,
    and a candidate rejected by the overlap check is returned exactly when
    its max-timestamp exceeds [min_ts] and its tombstone-drop-time histogram
    is non-empty; nothing else is returned. *)
Theorem tombstone_rescue_after_clustering_filter
    (sstables : list sstable) (stats : cf_stats) (s : schema data_type)
    (key : bytes) (slice : partition_slice)
    (r : ck_filter_clustering_key_components)
    (ranges : ck_filter_clustering_key_ranges) :
  clustering_key_size data_type s <> 0%nat ->
  is_single_full_range (get_all_ranges slice) = false ->
  ranges_for_clustering_key_filter data_type type_compare s (get_all_ranges slice)
    = ok (r :: ranges) ->
  let candidates := List.filter (fun sst => filter_has_key sst key) sstables in
  let kept :=
    List.filter (fun sst => contains_rows data_type overlaps sst s (r :: ranges))
                candidates in
  let min_ts := min_timestamp_after kept in
  (forall k, In k kept -> min_ts <= min_timestamp (get_stats_metadata k)) /\
  (min_ts = INT64_MAX \/
   exists k, In k kept /\ min_ts = min_timestamp (get_stats_metadata k)) /\
  exists (stats' : cf_stats) (result : list sstable),
    filter_sstable_for_reader data_type type_compare overlaps
      sstables stats true s key slice = (stats', ok result) /\
    (forall x, In x result -> In x candidates) /\
    (forall x, In x kept -> In x result) /\
    (forall x, In x candidates ->
       contains_rows data_type overlaps x s (r :: ranges) = false ->
       (In x result <->
        max_timestamp (get_stats_metadata x) > min_ts /\
        estimated_tombstone_drop_time (get_stats_metadata x) <> [])).
Proof.
  intros Hsize Hfull Hranges candidates kept min_ts.
  destruct (min_timestamp_after_is_minimum kept) as (_ & Hall & Hatt).
  split; [exact Hall|]. split; [exact Hatt|].
  unfold filter_sstable_for_reader.
  apply Nat.eqb_neq in Hsize. rewrite Hsize. simpl.
  rewrite Hfull, Hranges.
  eexists. eexists. split; [reflexivity|].
  fold candidates.
  split; [|split].
  - intros x Hx. apply clustering_filter_pass_In in Hx. tauto.
  - intros x Hx. apply clustering_filter_pass_In.
    unfold kept in Hx. apply filter_In in Hx. tauto.
  - intros x Hx Hrej. rewrite clustering_filter_pass_In.
    fold kept. fold min_ts. rewrite <- sstable_has_relevant_tombstone_spec.
    rewrite Hrej. split; [intros [_ [Hc|Ht]]; [discriminate|exact Ht] | tauto].
Qed.

End sstable_filter_properties.

Section sstable_filter_scenario.
Import sstable_filter.

(** The query is for rows in [05, 0a].  A holds such rows (written at
    100) and is kept.  B, C and D hold rows in [20, 30] only and are rejected
    by the overlap check; B is newer than A and has tombstones, so it is
    retained; C is older than A and D has no tombstone, so both are
    dropped. *)
Lemma tombstone_rescue_after_clustering_filter_witness :
  exists (stats' : cf_stats) (result : list sstable),
    filter_sstable_for_reader bytes_type bytes_compare bytes_overlaps
      [sst_C; sst_B; sst_A; sst_D] no_stats true one_column [] slice_5_10
      = (stats', ok result) /\
    In sst_A result /\ In sst_B result /\ ~ In sst_C result /\ ~ In sst_D result.
Proof.
  destruct (tombstone_rescue_after_clustering_filter
              bytes_type bytes_compare bytes_overlaps
              [sst_C; sst_B; sst_A; sst_D] no_stats one_column [] slice_5_10
              [closed Byte.x05 Byte.x0a] [])
    as (_ & _ & stats' & result & Heq & _ & Hkept & Hrej).
  - discriminate.
  - reflexivity.
  - reflexivity.
  - exists stats', result. split; [exact Heq|].
    split; [|split; [|split]].
    + apply Hkept. simpl. left. reflexivity.
    + apply Hrej; [simpl; tauto | reflexivity |].
      split; [reflexivity | discriminate].
    + intros Hin. apply Hrej in Hin; [|simpl; tauto | reflexivity].
      destruct Hin as [Hgt _]. vm_compute in Hgt. discriminate.
    + intros Hin. apply Hrej in Hin; [|simpl; tauto | reflexivity].
      destruct Hin as [_ Hne]. apply Hne. reflexivity.
Defined.

End sstable_filter_scenario.

(** ** The sstable list *)

Section sstable_list_properties.
Import sstable_list.

Variable bytes_on_disk : shared_sstable -> N.
Variable data_size : shared_sstable -> N.
Variable max_data_age : shared_sstable -> Z.

Lemma make_lw_shared_fresh (h : gmap loc (gset shared_sstable))
    (x : gset shared_sstable) :
  h !! (make_lw_shared h x).2 = None.
Proof using Type.
  unfold make_lw_shared; simpl.
  apply not_elem_of_dom, is_fresh.
Qed.

Lemma make_lw_shared_deref (h : gmap loc (gset shared_sstable))
    (x : gset shared_sstable) :
  deref (make_lw_shared h x).1 (make_lw_shared h x).2 = x.
Proof using Type.
  unfold make_lw_shared, deref; simpl. rewrite lookup_insert_eq. reflexivity.
Qed.

(** Allocation leaves every object that exists alone. *)
Lemma make_lw_shared_preserves (h : gmap loc (gset shared_sstable))
    (x : gset shared_sstable) (r : loc) :
  is_Some (h !! r) -> (make_lw_shared h x).1 !! r = h !! r.
Proof using Type.
  intros Hr. unfold make_lw_shared; simpl.
  apply lookup_insert_ne. intros Heq. subst r.
  apply (is_fresh (dom h)), elem_of_dom, Hr.
Qed.

Lemma update_stats_fold_fields (l : list shared_sstable) (c : column_family) :
  let c' := fold_left
              (fun c tab => update_stats_for_new_sstable c (data_size tab)) l c in
  _sstables c' = _sstables c /\
  _sstables_compacted_but_not_deleted c' = _sstables_compacted_but_not_deleted c.
Proof using data_size.
  revert c; induction l as [|x l IH]; intros c; simpl; [split; reflexivity|].
  destruct (IH (update_stats_for_new_sstable c (data_size x))) as [H1 H2].
  split; [rewrite H1 | rewrite H2]; reflexivity.
Qed.

(** [rebuild_statistics] recomputes counters only. *)
Lemma rebuild_statistics_fields (h : gmap loc (gset shared_sstable))
    (c : column_family) :
  _sstables (rebuild_statistics data_size h c) = _sstables c /\
  _sstables_compacted_but_not_deleted (rebuild_statistics data_size h c)
    = _sstables_compacted_but_not_deleted c.
Proof using data_size.
  unfold rebuild_statistics.
  match goal with
  | |- context [fold_left _ ?l ?c0] =>
      destruct (update_stats_fold_fields l c0) as [H1 H2]
  end.
  simpl in *. split; [rewrite H1 | rewrite H2]; reflexivity.
Qed.

(** What the loop of [rebuild_sstable_list] computes. *)
Lemma sort_out_spec (s : gset shared_sstable) (tabs : list shared_sstable) :
  forall (set0 : gset shared_sstable) (comp0 : list shared_sstable)
         (x : shared_sstable),
  (x ∈ (sort_out s tabs set0 comp0).1 <-> x ∈ set0 \/ (x ∈ tabs /\ x ∉ s)) /\
  (x ∈ (sort_out s tabs set0 comp0).2 <-> x ∈ comp0 \/ (x ∈ tabs /\ x ∈ s)).
Proof using Type.
  clear bytes_on_disk data_size max_data_age.
  unfold sort_out.
  induction tabs as [|t tabs IH]; intros set0 comp0 x; simpl.
  - set_solver.
  - case_bool_decide as Ht; simpl.
    + destruct (IH set0 (comp0 ++ [t]) x) as [IH1 IH2].
      rewrite IH1, IH2. clear IH IH1 IH2. set_solver.
    + destruct (IH ({[t]} ∪ set0) comp0 x) as [IH1 IH2].
      rewrite IH1, IH2. clear IH IH1 IH2. set_solver.
Qed.

(** One mutator leaves every existing set object as it was. *)
Lemma step_preserves_objects (st : state) (m : mutator) (r : loc) :
  is_Some (objects st !! r) ->
  objects (step bytes_on_disk data_size max_data_age st m) !! r = objects st !! r.
Proof.
  intros Hr. destruct m as [sst|new_sstables to_remove|to_remove outcome| |gc_trunc].
  - unfold step, add_sstable.
    pose proof (make_lw_shared_preserves (objects st)
                  (deref (objects st) (_sstables (cf st))) r Hr) as Hp.
    pose proof (make_lw_shared_fresh (objects st)
                  (deref (objects st) (_sstables (cf st)))) as Hf.
    destruct (make_lw_shared (objects st) _) as [h p]; simpl in *.
    unfold insert_in_place. rewrite lookup_alter_ne; [exact Hp|].
    intros Heq. subst p. rewrite Hf in Hr. destruct Hr as [? Hr]; discriminate.
  - unfold step, rebuild_sstable_list.
    destruct (sort_out _ _ _ _) as [new_sstable_list new_compacted].
    pose proof (make_lw_shared_preserves (objects st) new_sstable_list r Hr) as Hp.
    destruct (make_lw_shared (objects st) new_sstable_list) as [h p]; simpl in *.
    exact Hp.
  - unfold step, delete_atomically_completed.
    destruct outcome; reflexivity.
  - unfold step, set_compaction_strategy.
    match goal with
    | |- context [make_lw_shared (objects st) ?x] =>
        pose proof (make_lw_shared_preserves (objects st) x r Hr) as Hp;
        destruct (make_lw_shared (objects st) x) as [h p]
    end.
    simpl in *. exact Hp.
  - unfold step, discard_sstables.
    match goal with
    | |- context [make_lw_shared (objects st) ?x] =>
        pose proof (make_lw_shared_preserves (objects st) x r Hr) as Hp;
        destruct (make_lw_shared (objects st) x) as [h p]
    end.
    simpl in *. exact Hp.
Qed.

(** The mutators that replace the list publish an object that did not
    exist before. *)
Lemma published_set_is_fresh (st : state) (m : mutator) :
  (forall to_remove outcome, m <> do_delete_atomically_completed to_remove outcome) ->
  objects st !! _sstables (cf (step bytes_on_disk data_size max_data_age st m)) = None.
Proof.
  intros Hm. destruct m as [sst|new_sstables to_remove|to_remove outcome| |gc_trunc].
  - unfold step, add_sstable.
    pose proof (make_lw_shared_fresh (objects st)
                  (deref (objects st) (_sstables (cf st)))) as Hf.
    destruct (make_lw_shared (objects st) _) as [h p]; simpl in *. exact Hf.
  - unfold step, rebuild_sstable_list.
    destruct (sort_out _ _ _ _) as [new_sstable_list new_compacted].
    pose proof (make_lw_shared_fresh (objects st) new_sstable_list) as Hf.
    destruct (make_lw_shared (objects st) new_sstable_list) as [h p]; simpl in *.
    destruct (rebuild_statistics_fields h
      (set_compacted (set_sstables (cf st) p) new_compacted)) as [-> _].
    exact Hf.
  - exfalso. eapply Hm. reflexivity.
  - unfold step, set_compaction_strategy.
    match goal with
    | |- context [make_lw_shared (objects st) ?x] =>
        pose proof (make_lw_shared_fresh (objects st) x) as Hf;
        destruct (make_lw_shared (objects st) x) as [h p]
    end.
    simpl in *. exact Hf.
  - unfold step, discard_sstables.
    match goal with
    | |- context [make_lw_shared (objects st) ?x] =>
        pose proof (make_lw_shared_fresh (objects st) x) as Hf;
        destruct (make_lw_shared (objects st) x) as [h p]
    end.
    simpl in *. exact Hf.
Qed.

(** What [add_sstable] publishes: the old set and the new sstable. *)
Lemma add_sstable_publishes (st : state) (sst : shared_sstable) :
  let st' := add_sstable bytes_on_disk st sst in
  deref (objects st') (_sstables (cf st'))
  = {[sst]} ∪ deref (objects st) (_sstables (cf st)).
Proof using bytes_on_disk.
  unfold add_sstable, make_lw_shared, insert_in_place, deref; simpl.
  rewrite lookup_alter_eq, lookup_insert_eq. reflexivity.
Qed.

Lemma run_preserves_objects (ms : list mutator) :
  forall (st : state) (r : loc),
  is_Some (objects st !! r) ->
  objects (run bytes_on_disk data_size max_data_age st ms) !! r = objects st !! r.
Proof.
  unfold run. induction ms as [|m ms IH]; intros st r Hr; simpl; [reflexivity|].
  pose proof (step_preserves_objects st m r Hr) as Hstep.
  rewrite IH; [exact Hstep|]. rewrite Hstep. exact Hr.
Qed.

Lemma rebuild_sstable_list_result (st : state)
    (new_sstables to_remove : list shared_sstable) :
  let st1 := rebuild_sstable_list data_size st new_sstables to_remove in
  let sorted := sort_out (list_to_set to_remove)
                  (new_sstables ++ elements (deref (objects st) (_sstables (cf st))))
                  ∅ (_sstables_compacted_but_not_deleted (cf st)) in
  deref (objects st1) (_sstables (cf st1)) = sorted.1 /\
  _sstables_compacted_but_not_deleted (cf st1) = sorted.2.
Proof using data_size.
  unfold rebuild_sstable_list.
  destruct (sort_out _ _ _ _) as [new_sstable_list new_compacted].
  pose proof (make_lw_shared_deref (objects st) new_sstable_list) as Hd.
  destruct (make_lw_shared (objects st) new_sstable_list) as [h p].
  cbn [objects cf fst snd] in *.
  destruct (rebuild_statistics_fields h
    (set_compacted (set_sstables (cf st) p) new_compacted)) as [-> ->].
  split; [exact Hd|reflexivity].
Qed.

Lemma delete_atomically_completed_compacted (st : state)
    (to_remove : list shared_sstable) (outcome : delete_outcome) :
  _sstables_compacted_but_not_deleted
    (cf (delete_atomically_completed data_size st to_remove outcome).1)
  = List.filter (fun sst => negb (bool_decide (sst ∈ (list_to_set to_remove : gset shared_sstable))))
      (_sstables_compacted_but_not_deleted (cf st)).
Proof using data_size.
  unfold delete_atomically_completed.
  destruct outcome; simpl;
    match goal with
    | |- context [rebuild_statistics data_size ?h ?c] =>
        destruct (rebuild_statistics_fields h c) as [_ ->]
    end; reflexivity.
Qed.

(** C4, as the code has it.  [rebuild_sstable_list] moves every removed
    sstable that was in the list (or among the new sstables) out of the
    published set and into the compacted-but-not-deleted list.  When the
    atomic delete completes, the removed sstables are purged from that list
    whatever the outcome: confirmed, cancelled or failed.  A cancellation is
    logged at debug level and is not an error; any other failure is left in
    the background future. *)
Theorem compacted_sstables_are_purged_when_delete_completes
    (st : state) (new_sstables to_remove : list shared_sstable) :
  let st1 := rebuild_sstable_list data_size st new_sstables to_remove in
  (forall sst,
     sst ∈ to_remove ->
     sst ∈ new_sstables \/ sst ∈ deref (objects st) (_sstables (cf st)) ->
     sst ∈ _sstables_compacted_but_not_deleted (cf st1) /\
     sst ∉ deref (objects st1) (_sstables (cf st1))) /\
  (forall (st2 : state) (outcome : delete_outcome),
     let done := delete_atomically_completed data_size st2 to_remove outcome in
     (forall sst, sst ∈ to_remove ->
        sst ∉ _sstables_compacted_but_not_deleted (cf done.1)) /\
     (forall sst, sst ∉ to_remove ->
        (sst ∈ _sstables_compacted_but_not_deleted (cf done.1) <->
         sst ∈ _sstables_compacted_but_not_deleted (cf st2))) /\
     (outcome = deleted -> done.2 = None /\ dblog done.1 = dblog st2) /\
     (outcome = atomic_deletion_cancelled ->
        done.2 = None /\
        dblog done.1
          = dblog st2 ++ [debug_failed_to_delete_sstables_after_compaction]) /\
     (outcome = delete_failed -> done.2 = Some deletion_error)).
Proof using data_size.
  clear bytes_on_disk max_data_age.
  intros st1. split.
  - intros sst Hrem Hin.
    destruct (rebuild_sstable_list_result st new_sstables to_remove) as [Hset Hcomp].
    fold st1 in Hset, Hcomp. rewrite Hset, Hcomp.
    match goal with
    | |- context [sort_out ?s ?tabs ?a ?b] =>
        destruct (sort_out_spec s tabs a b sst) as [H1 H2]
    end.
    rewrite H1, H2.
    assert (sst ∈ new_sstables ++ elements (deref (objects st) (_sstables (cf st))))
      as Htabs by (rewrite elem_of_app, elem_of_elements; exact Hin).
    assert (sst ∈ (list_to_set to_remove : gset shared_sstable))
      as Hs by (rewrite elem_of_list_to_set; exact Hrem).
    split; [right; split; assumption|].
    intros [H|[_ H]]; [set_solver | contradiction].
  - intros st2 outcome done.
    pose proof (delete_atomically_completed_compacted st2 to_remove outcome) as Hc.
    fold done in Hc.
    split; [|split; [|split; [|split]]].
    + intros sst Hrem. rewrite Hc, list_elem_of_In, filter_In.
      intros [_ Hb]. apply negb_true_iff, bool_decide_eq_false in Hb.
      apply Hb, elem_of_list_to_set, Hrem.
    + intros sst Hrem. rewrite Hc, !list_elem_of_In, filter_In.
      split; [tauto|]. intros Hin. split; [exact Hin|].
      apply negb_true_iff, bool_decide_eq_false.
      rewrite elem_of_list_to_set. exact Hrem.
    + intros ->. split; reflexivity.
    + intros ->. split; reflexivity.
    + intros ->. reflexivity.
Qed.

(** [_sstables] always points to a set object: the reference a reader
    takes from a column family is valid. *)
Lemma current_list_is_allocated (st : state) (m : mutator) :
  is_Some (objects st !! _sstables (cf st)) ->
  let st' := step bytes_on_disk data_size max_data_age st m in
  is_Some (objects st' !! _sstables (cf st')).
Proof.
  intros Hcur. destruct m as [sst|new_sstables to_remove|to_remove outcome| |gc_trunc];
    simpl.
  - unfold add_sstable, make_lw_shared, insert_in_place; simpl.
    rewrite lookup_alter_eq, lookup_insert_eq. simpl. eauto.
  - unfold rebuild_sstable_list.
    destruct (sort_out _ _ _ _) as [new_sstable_list new_compacted].
    unfold make_lw_shared. cbn [objects cf].
    match goal with
    | |- context [rebuild_statistics data_size ?h ?c] =>
        destruct (rebuild_statistics_fields h c) as [-> _]
    end.
    simpl. rewrite lookup_insert_eq. eauto.
  - unfold delete_atomically_completed.
    destruct outcome; cbn [objects cf fst];
      match goal with
      | |- context [rebuild_statistics data_size ?h ?c] =>
          destruct (rebuild_statistics_fields h c) as [-> _]
      end; exact Hcur.
  - unfold set_compaction_strategy, make_lw_shared; simpl.
    rewrite lookup_insert_eq. eauto.
  - unfold discard_sstables, make_lw_shared; simpl.
    rewrite lookup_insert_eq. eauto.
Qed.

(** C9.  The sstable list is copy-on-write.  Every mutator that changes
    the list (adding a flushed or streamed sstable, rebuilding the list after
    a compaction, changing the strategy, truncating) publishes a freshly
    built set: [_sstables] then points to an object that did not exist
    before, which holds, after [add_sstable], the old sstables and the new
    one, and after [rebuild_sstable_list] the new and the old sstables that
    are not removed.  The completion of a deletion publishes nothing.  And
    whatever mutators run, in whatever order, a set object that exists is
    never modified: a reader that holds a reference [r] to it, in particular
    to the list that was current when the reader started, finds the same set
    of sstables in it afterwards. *)
Theorem sstable_list_is_copy_on_write (st : state) :
  (forall (ms : list mutator) (r : loc),
     is_Some (objects st !! r) ->
     objects (run bytes_on_disk data_size max_data_age st ms) !! r
       = objects st !! r /\
     deref (objects (run bytes_on_disk data_size max_data_age st ms)) r
       = deref (objects st) r) /\
  (forall m : mutator,
     let st' := step bytes_on_disk data_size max_data_age st m in
     match m with
     | do_delete_atomically_completed _ _ =>
         _sstables (cf st') = _sstables (cf st) /\ objects st' = objects st
     | _ =>
         objects st !! _sstables (cf st') = None /\
         is_Some (objects st' !! _sstables (cf st'))
     end) /\
  (forall sst : shared_sstable,
     let st' := add_sstable bytes_on_disk st sst in
     deref (objects st') (_sstables (cf st'))
     = {[sst]} ∪ deref (objects st) (_sstables (cf st))) /\
  (forall (new_sstables to_remove : list shared_sstable) (x : shared_sstable),
     let st' := rebuild_sstable_list data_size st new_sstables to_remove in
     x ∈ deref (objects st') (_sstables (cf st')) <->
     (x ∈ new_sstables \/ x ∈ deref (objects st) (_sstables (cf st))) /\
     x ∉ to_remove).
Proof.
  split; [|split; [|split]].
  - intros ms r Hr. pose proof (run_preserves_objects ms st r Hr) as H.
    split; [exact H|]. unfold deref. rewrite H. reflexivity.
  - intros m st'.
    assert (Hfresh : (forall to_remove outcome,
                        m <> do_delete_atomically_completed to_remove outcome) ->
              objects st !! _sstables (cf st') = None /\
              is_Some (objects st' !! _sstables (cf st'))).
    { intros Hm. split; [apply published_set_is_fresh, Hm|].
      unfold st'. clear st'.
      destruct m as [sst|new_sstables to_remove|to_remove outcome| |gc_trunc];
        simpl.
      - unfold add_sstable, make_lw_shared, insert_in_place; simpl.
        rewrite lookup_alter_eq, lookup_insert_eq. simpl. eauto.
      - unfold rebuild_sstable_list.
        destruct (sort_out _ _ _ _) as [new_sstable_list new_compacted].
        unfold make_lw_shared. cbn [objects cf].
        match goal with
        | |- context [rebuild_statistics data_size ?h ?c] =>
            destruct (rebuild_statistics_fields h c) as [-> _]
        end.
        simpl. rewrite lookup_insert_eq. eauto.
      - exfalso. eapply Hm. reflexivity.
      - unfold set_compaction_strategy, make_lw_shared; simpl.
        rewrite lookup_insert_eq. eauto.
      - unfold discard_sstables, make_lw_shared; simpl.
        rewrite lookup_insert_eq. eauto. }
    destruct m as [sst|new_sstables to_remove|to_remove outcome| |gc_trunc];
      try (apply Hfresh; intros; discriminate).
    clear Hfresh. unfold st'. simpl. unfold delete_atomically_completed.
    destruct outcome; cbn [objects cf fst];
      match goal with
      | |- context [rebuild_statistics data_size ?h ?c] =>
          destruct (rebuild_statistics_fields h c) as [-> _]
      end; split; reflexivity.
  - intros sst. apply add_sstable_publishes.
  - intros new_sstables to_remove x st'.
    destruct (rebuild_sstable_list_result st new_sstables to_remove) as [Hset _].
    fold st' in Hset. rewrite Hset.
    match goal with
    | |- context [sort_out ?s ?tabs ?a ?b] =>
        destruct (sort_out_spec s tabs a b x) as [H1 _]
    end.
    rewrite H1, elem_of_app, elem_of_elements, elem_of_list_to_set.
    split.
    + intros [H|H]; [inversion H|exact H].
    + intros H. right. exact H.
Qed.

End sstable_list_properties.

Section sstable_list_scenarios.
Import sstable_list.

(** A reader took the list at address 0, holding sstables 1 and 2.  While
    it is suspended, sstable 5 is flushed, 1 and 2 are compacted into 3 and
    deleted, and the table is truncated.  The reader still finds 1 and 2.
    The flush of sstable 5 alone publishes 1, 2 and 5 in an object that did
    not exist before. *)
Lemma sstable_list_is_copy_on_write_witness :
  deref (objects (run size_1k size_1k age_0 two_sstables
                    [ do_add_sstable 5%N;
                      do_rebuild_sstable_list [3%N] [1%N; 2%N];
                      do_delete_atomically_completed [1%N; 2%N] deleted;
                      do_discard_sstables 10 ])) 0%N
  = {[ 1%N; 2%N ]} /\
  deref (objects (add_sstable size_1k two_sstables 5%N))
        (_sstables (cf (add_sstable size_1k two_sstables 5%N)))
  = {[ 5%N ]} ∪ {[ 1%N; 2%N ]} /\
  objects two_sstables !! _sstables (cf (add_sstable size_1k two_sstables 5%N))
  = None.
Proof.
  destruct (sstable_list_is_copy_on_write size_1k size_1k age_0 two_sstables)
    as (Hkept & Hfresh & Hadd & _).
  split; [|split].
  - destruct (Hkept [ do_add_sstable 5%N;
                      do_rebuild_sstable_list [3%N] [1%N; 2%N];
                      do_delete_atomically_completed [1%N; 2%N] deleted;
                      do_discard_sstables 10 ] 0%N) as [_ H].
    + exists ({[ 1%N; 2%N ]}). reflexivity.
    + rewrite H. reflexivity.
  - rewrite (Hadd 5%N). reflexivity.
  - destruct (Hfresh (do_add_sstable 5%N)) as [H _]. exact H.
Defined.

(** Meanwhile the column family has moved on: after the flush of sstable 5
    alone, the current list is a different object that holds 1, 2 and 5. *)
Example current_list_after_flush :
  let st := run size_1k size_1k age_0 two_sstables [do_add_sstable 5%N] in
  _sstables (cf st) = 1%N /\
  elements (deref (objects st) (_sstables (cf st))) = [2%N; 5%N; 1%N] /\
  elements (deref (objects st) 0%N) = [2%N; 1%N].
Proof. vm_compute. repeat split. Qed.

(** Sstable 1 is compacted away: it leaves the published set for the
    compacted-but-not-deleted list, and leaves that list when the atomic
    delete completes, here by a cancellation. *)
Lemma compacted_sstables_are_purged_when_delete_completes_witness :
  (1%N ∈ _sstables_compacted_but_not_deleted (cf compacted_into_3) /\
   1%N ∉ deref (objects compacted_into_3) (_sstables (cf compacted_into_3))) /\
  1%N ∉ _sstables_compacted_but_not_deleted
          (cf (delete_atomically_completed size_1k compacted_into_3 [1%N; 2%N]
                 atomic_deletion_cancelled).1).
Proof.
  destruct (compacted_sstables_are_purged_when_delete_completes size_1k
              two_sstables [3%N] [1%N; 2%N]) as [Hmoved Hpurged].
  split.
  - apply Hmoved.
    + apply list_elem_of_here.
    + right. vm_compute. reflexivity.
  - destruct (Hpurged compacted_into_3 atomic_deletion_cancelled) as [Hgone _].
    apply Hgone. apply list_elem_of_here.
Defined.

(** C4 as the spec words it fails: sstables 1 and 2 wait in the
    compacted-but-not-deleted list, their atomic delete is cancelled, and
    they are removed from the list all the same. *)
Lemma cancelled_delete_still_purges :
  _sstables_compacted_but_not_deleted (cf compacted_into_3) = [2%N; 1%N] /\
  (delete_atomically_completed size_1k compacted_into_3 [1%N; 2%N]
     atomic_deletion_cancelled).2 = None /\
  _sstables_compacted_but_not_deleted
    (cf (delete_atomically_completed size_1k compacted_into_3 [1%N; 2%N]
           atomic_deletion_cancelled).1) = [].
Proof. vm_compute. repeat split. Qed.

End sstable_list_scenarios.

(** ** Sstable discovery *)

Section populate_properties.
Import populate.

Lemma note_version_and_format_known (d : sstable_descriptor)
    (entry : entry_descriptor) :
  is_Some (d_version (note_version_and_format d entry)) /\
  is_Some (d_format (note_version_and_format d entry)).
Proof.
  unfold note_version_and_format; simpl.
  destruct (d_version d), (d_format d); split; eauto.
Qed.

(** The continuation of a probe records the version and format whenever
    it records a generation, and only ever removes temporary statistics. *)
Lemma on_probed_invariant (st : scan_state) (entry : entry_descriptor) :
  descriptor_known st ->
  descriptor_known (on_probed st entry).1.1 /\
  (forall g v f, remove_sstable_with_temp_toc g v f ∉ (on_probed st entry).1.2).
Proof.
  intros Hst. unfold on_probed.
  pose proof (note_version_and_format_known (descriptor st) entry) as Hk.
  destruct (is_TemporaryStatistics (component entry)); simpl.
  { split; [exact Hst|]. intros g v f Hin.
    apply list_elem_of_singleton in Hin. discriminate. }
  destruct (verifier st !! generation entry) as [[| |]|];
    destruct (is_TOC (component entry));
    try destruct (is_TemporaryTOC (component entry)); simpl;
    (split; [first [exact Hst | right; exact Hk] | intros g v f Hin; inversion Hin]).
Qed.

Lemma scan_invariant (entries : list probed) :
  forall st, descriptor_known st ->
  descriptor_known (scan entries st).1.1 /\
  (forall g v f, remove_sstable_with_temp_toc g v f ∉ (scan entries st).1.2).
Proof.
  induction entries as [|[entry|e] rest IH]; intros st Hst; simpl.
  - split; [exact Hst|]. intros g v f Hin. inversion Hin.
  - destruct (on_probed_invariant st entry Hst) as [Hk1 Ha1].
    destruct (on_probed st entry) as [[st1 acts1] err1]; simpl in *.
    destruct (IH st1 Hk1) as [Hk Ha].
    destruct (scan rest st1) as [[st' acts] err]; simpl in *.
    split; [exact Hk|]. intros g v f Hin.
    apply elem_of_app in Hin as [Hin|Hin]; [eapply Ha1|eapply Ha]; exact Hin.
  - destruct (IH st Hst) as [Hk Ha].
    destruct (scan rest st) as [[st' acts] err]; simpl in *.
    split; [exact Hk|exact Ha].
Qed.

(** The post-scan loop, generation by generation. *)
Lemma verify_all_spec (cpu_id : N) (d : sstable_descriptor)
    (version : version_types) (format : format_types) (l : list (N * status)) :
  d_version d = Some version -> d_format d = Some format ->
  (verify_all cpu_id d l).2 <> assertion_failure /\
  ((verify_all cpu_id d l).2 = fine <-> forall g, (g, has_some_file) ∉ l) /\
  (forall g, (g, has_some_file) ∈ l ->
     exists g', (g', has_some_file) ∈ l /\
       (verify_all cpu_id d l).2
         = throws (malformed_sstable_exception (no_toc_found g'))) /\
  (forall a, a ∈ (verify_all cpu_id d l).1 <->
     exists g, (g, has_temporary_toc_file) ∈ l /\ cpu_id = 0%N /\
               a = remove_sstable_with_temp_toc g version format).
Proof.
  intros Hv Hf. induction l as [|[g s] rest (Hna & IHfine & IHthrow & IHacts)].
  - simpl. split; [discriminate|]. split; [|split].
    + split; [intros _ g Hin; inversion Hin | reflexivity].
    + intros g Hin. inversion Hin.
    + intros a. split; [intros Hin; inversion Hin|].
      intros (g & Hin & _). inversion Hin.
  - simpl. unfold verify_generation. simpl. rewrite Hv, Hf.
    destruct (verify_all cpu_id d rest) as [acts' r'] eqn:Hrest. simpl in *.
    destruct s; simpl.
    + (* has_some_file *)
      split; [destruct r'; simpl; congruence|].
      split; [|split].
      * split.
        -- destruct r'; simpl; congruence.
        -- intros Hnone. exfalso. apply (Hnone g). left.
      * intros g0 _. exists g. split; [left|].
        destruct r'; simpl; congruence.
      * intros a. rewrite IHacts. split; intros (g0 & Hin & Hrest').
        -- exists g0. split; [right; exact Hin|exact Hrest'].
        -- exists g0. split; [|exact Hrest'].
           apply elem_of_cons in Hin as [Heq|Hin]; [discriminate|exact Hin].
    + (* has_toc_file *)
      split; [destruct r'; simpl; congruence|].
      split; [|split].
      * destruct r' as [|e|]; simpl; [| |congruence].
        -- split; [intros _|reflexivity]. intros g0 Hin.
           apply elem_of_cons in Hin as [Heq|Hin]; [discriminate|].
           revert Hin. apply IHfine. reflexivity.
        -- split; [discriminate|]. intros Hnone.
           apply IHfine. intros g0 Hin. apply (Hnone g0). right. exact Hin.
      * intros g0 Hin. apply elem_of_cons in Hin as [Heq|Hin]; [discriminate|].
        destruct (IHthrow g0 Hin) as (g' & Hg' & Hr). exists g'.
        split; [right; exact Hg'|]. rewrite Hr. reflexivity.
      * intros a. rewrite IHacts. split; intros (g0 & Hin & Hrest').
        -- exists g0. split; [right; exact Hin|exact Hrest'].
        -- exists g0. split; [|exact Hrest'].
           apply elem_of_cons in Hin as [Heq|Hin]; [discriminate|exact Hin].
    + (* has_temporary_toc_file *)
      assert ((if negb (cpu_id =? 0)%N
               then ([], fine)
               else ([remove_sstable_with_temp_toc g version format], fine))
              = ((if (cpu_id =? 0)%N
                  then [remove_sstable_with_temp_toc g version format]
                  else []), fine)) as -> by (destruct (cpu_id =? 0)%N; reflexivity).
      simpl. split; [destruct r'; simpl; congruence|].
      split; [|split].
      * destruct r' as [|e|]; simpl; [| |congruence].
        -- split; [intros _|reflexivity]. intros g0 Hin.
           apply elem_of_cons in Hin as [Heq|Hin]; [discriminate|].
           revert Hin. apply IHfine. reflexivity.
        -- split; [discriminate|]. intros Hnone.
           apply IHfine. intros g0 Hin. apply (Hnone g0). right. exact Hin.
      * intros g0 Hin. apply elem_of_cons in Hin as [Heq|Hin]; [discriminate|].
        destruct (IHthrow g0 Hin) as (g' & Hg' & Hr). exists g'.
        split; [right; exact Hg'|]. rewrite Hr. reflexivity.
      * intros a. rewrite elem_of_app, IHacts.
        destruct (N.eqb_spec cpu_id 0) as [Hz|Hnz].
        -- split.
           ++ intros [Hin|(g0 & Hin & Hrest')].
              ** apply list_elem_of_singleton in Hin. exists g.
                 split; [left|]. split; [exact Hz|exact Hin].
              ** exists g0. split; [right; exact Hin|exact Hrest'].
           ++ intros (g0 & Hin & Hz' & Ha).
              apply elem_of_cons in Hin as [Heq|Hin].
              ** left. injection Heq as ->. subst a. left.
              ** right. exists g0. split; [exact Hin|]. split; assumption.
        -- split.
           ++ intros [Hin|(g0 & Hin & Hz' & _)]; [inversion Hin|contradiction].
           ++ intros (g0 & _ & Hz' & _). contradiction.
Qed.

(** C5.  When the scan of the data directory has gone through without
    an error: every generation whose accumulated state has neither a TOC nor
    a temporary TOC makes its post-scan check throw the malformed-sstable
    error, and [populate] then fails with that error for one of these
    generations, without marking the table ready; if there is no such
    generation [populate] succeeds.  A generation that ended with a temporary
    TOC is removed exactly when the shard is shard 0; on any other shard it
    is left in place. *)
Theorem populate_after_scan (cpu_id : N) (entries : list probed)
    (st : scan_state) (acts0 : list fs_action) :
  scan entries scan_start = (st, acts0, None) ->
  let p := populate cpu_id entries in
  (forall g, verifier st !! g = Some has_some_file ->
     (verify_generation cpu_id (descriptor st) (g, has_some_file)).2
       = throws (malformed_sstable_exception (no_toc_found g)) /\
     ready_for_writes p = false /\
     exists g', verifier st !! g' = Some has_some_file /\
       result p = throws (malformed_sstable_exception (no_toc_found g'))) /\
  ((forall g, verifier st !! g <> Some has_some_file) ->
     result p = fine /\ ready_for_writes p = true) /\
  (forall g v f,
     remove_sstable_with_temp_toc g v f ∈ actions p <->
     cpu_id = 0%N /\ verifier st !! g = Some has_temporary_toc_file /\
     d_version (descriptor st) = Some v /\ d_format (descriptor st) = Some f).
Proof.
  intros Hscan p.
  destruct (scan_invariant entries scan_start (or_introl eq_refl)) as [Hk Ha].
  rewrite Hscan in Hk, Ha; simpl in Hk, Ha.
  unfold p, populate. rewrite Hscan. unfold post_scan.
  destruct Hk as [Hempty | [[version Hv] [format Hf]]].
  - rewrite Hempty, map_to_list_empty. simpl.
    split; [|split].
    + intros g Hg. rewrite lookup_empty in Hg. discriminate.
    + intros _. split; reflexivity.
    + intros g v f. rewrite app_nil_r, lookup_empty. split.
      * intros Hin. exfalso. exact (Ha g v f Hin).
      * intros (_ & Hg & _). discriminate.
  - destruct (verify_all_spec cpu_id (descriptor st) version format
                (map_to_list (verifier st)) Hv Hf)
      as (Hna & Hfine & Hthrow & Hacts).
    destruct (verify_all cpu_id (descriptor st) (map_to_list (verifier st)))
      as [acts' r']. simpl in *.
    split; [|split].
    + intros g Hg. split; [reflexivity|].
      destruct (Hthrow g) as (g' & Hg' & Hr);
        [apply elem_of_map_to_list; exact Hg|].
      subst r'. simpl. split; [reflexivity|].
      exists g'. split; [apply elem_of_map_to_list; exact Hg'|reflexivity].
    + intros Hnone.
      assert (r' = fine) as ->.
      { apply Hfine. intros g Hin. apply elem_of_map_to_list in Hin.
        exact (Hnone g Hin). }
      split; reflexivity.
    + intros g v f. rewrite elem_of_app, Hacts. split.
      * intros [Hin|(g0 & Hin & Hz & Heq)]; [exfalso; exact (Ha g v f Hin)|].
        injection Heq as -> -> ->. apply elem_of_map_to_list in Hin.
        repeat split; assumption.
      * intros (Hz & Hg & Hv' & Hf'). right. exists g.
        split; [apply elem_of_map_to_list; exact Hg|]. split; [exact Hz|].
        congruence.
Qed.

End populate_properties.

Section populate_scenarios.
Import populate.

(** A directory whose generation 2 has a temporary TOC only: shard 0
    removes it, shard 3 does not, and both boot.  With a generation 3 that
    has no TOC at all, [populate] refuses to boot. *)
Lemma populate_after_scan_witness :
  ((remove_sstable_with_temp_toc 2 ka big ∈ actions (populate 0 dir_with_partial)) /\
   result (populate 0 dir_with_partial) = fine) /\
  ((remove_sstable_with_temp_toc 2 ka big ∉ actions (populate 3 dir_with_partial)) /\
   result (populate 3 dir_with_partial) = fine) /\
  (exists g, result (populate 3 dir_with_broken)
             = throws (malformed_sstable_exception (no_toc_found g))).
Proof.
  split; [|split].
  - destruct (populate_after_scan 0 dir_with_partial
                (scan dir_with_partial scan_start).1.1
                (scan dir_with_partial scan_start).1.2 eq_refl)
      as (_ & Hfine & Hremoved).
    split.
    + apply Hremoved. repeat split; reflexivity.
    + apply Hfine. intros g Hg. vm_compute in Hg.
      destruct g as [|[[]|[]|]]; discriminate.
  - destruct (populate_after_scan 3 dir_with_partial
                (scan dir_with_partial scan_start).1.1
                (scan dir_with_partial scan_start).1.2 eq_refl)
      as (_ & Hfine & Hremoved).
    split.
    + intros Hin. apply Hremoved in Hin as [Hz _]. discriminate.
    + apply Hfine. intros g Hg. vm_compute in Hg.
      destruct g as [|[[]|[]|]]; discriminate.
  - destruct (populate_after_scan 3 dir_with_broken
                (scan dir_with_broken scan_start).1.1
                (scan dir_with_broken scan_start).1.2 eq_refl)
      as (Hbroken & _).
    destruct (Hbroken 3%N eq_refl) as (_ & _ & g' & _ & Hr).
    exists g'. exact Hr.
Defined.

(** The same runs, evaluated. *)
Example populate_on_shard_0 :
  populate 0 dir_with_partial
  = {| actions := [remove_sstable_with_temp_toc 2 ka big];
       result := fine; ready_for_writes := true |}.
Proof. vm_compute. reflexivity. Qed.

Example populate_on_shard_3 :
  populate 3 dir_with_partial
  = {| actions := []; result := fine; ready_for_writes := true |}.
Proof. vm_compute. reflexivity. Qed.

Example populate_refuses_to_boot :
  populate 0 dir_with_broken
  = {| actions := [remove_sstable_with_temp_toc 2 ka big];
       result := throws (malformed_sstable_exception (no_toc_found 3));
       ready_for_writes := false |}.
Proof. vm_compute. reflexivity. Qed.

End populate_scenarios.

(** ** The flush queue *)

Section flush_queue_properties.
Import flush_queue.

Lemma replay_position_eqb_eq (a b : replay_position.t) :
  replay_position.eqb a b = true <-> a = b.
Proof.
  unfold replay_position.eqb. destruct a as [ia pa], b as [ib pb]; simpl.
  rewrite andb_true_iff, !N.eqb_eq. split.
  - intros [-> ->]. reflexivity.
  - intros H. injection H as -> ->. split; reflexivity.
Qed.

Lemma replay_position_ltb_iff (a b : replay_position.t) :
  replay_position.ltb a b = true <->
  (replay_position.id a < replay_position.id b)%N \/
  (replay_position.id a = replay_position.id b /\
   (replay_position.pos a < replay_position.pos b)%N).
Proof.
  unfold replay_position.ltb.
  rewrite orb_true_iff, andb_true_iff, !N.ltb_lt, N.eqb_eq. reflexivity.
Qed.

Lemma replay_position_max_above (a m k : replay_position.t) :
  replay_position.ltb m k = false ->
  replay_position.ltb (replay_position.max a m) k = false.
Proof.
  intros Hmk. unfold replay_position.max.
  destruct (replay_position.ltb a m) eqn:Ham; [exact Hmk|].
  apply not_true_is_false. intros Hak.
  apply not_true_iff_false in Hmk, Ham.
  rewrite replay_position_ltb_iff in Hmk, Ham, Hak. lia.
Qed.

Lemma replay_position_max_above_l (a m : replay_position.t) :
  replay_position.ltb (replay_position.max a m) a = false.
Proof.
  unfold replay_position.max.
  destruct (replay_position.ltb a m) eqn:Ham;
    [|apply replay_position_ltb_irrefl].
  apply not_true_is_false. intros Hma.
  rewrite replay_position_ltb_iff in Ham, Hma. lia.
Qed.

(** In the list model no queued key is above the highest key. *)
Lemma largest_key_is_highest {Func Post : Type} (q : waiting Func Post)
    (e : replay_position.t * Func * Post) :
  e ∈ q -> replay_position.ltb (largest_key q) e.1.1 = false.
Proof.
  induction q as [|x q IH]; intros Hin; [inversion Hin|].
  simpl. apply elem_of_cons in Hin as [->|Hin].
  - apply replay_position_max_above_l.
  - apply replay_position_max_above, IH, Hin.
Qed.

(** C6.  [run_cf_flush] with the zero replay position on a queue that is
    not empty hands the work to the queue under the queue's current highest
    key, not under position zero; with any other position, or on an empty
    queue, it hands it over under the position given. *)
Theorem run_cf_flush_adopts_highest_key {Q Func Post : Type}
    `{FlushQueue Q Func Post} (q : Q) (rp : replay_position.t)
    (func : Func) (post : Post) :
  (rp = replay_position.zero -> empty q = false ->
   run_cf_flush q rp func post
   = run_with_ordered_post_op q (highest_key q) func post) /\
  (rp <> replay_position.zero \/ empty q = true ->
   run_cf_flush q rp func post = run_with_ordered_post_op q rp func post).
Proof.
  unfold run_cf_flush. split.
  - intros -> ->. reflexivity.
  - intros [Hnz | ->].
    + destruct (replay_position.eqb rp replay_position.zero) eqn:Heq;
        [apply replay_position_eqb_eq in Heq; contradiction|reflexivity].
    + rewrite andb_false_r. reflexivity.
Qed.

(** A flush without a replay position joins two flushes keyed (1, 10) and
    (1, 20): it is queued last, under (1, 20). *)
Lemma run_cf_flush_adopts_highest_key_witness :
  run_cf_flush two_flushes replay_position.zero 3%N 3%N
  = two_flushes ++ [(replay_position.mk 1 20, 3%N, 3%N)].
Proof.
  destruct (run_cf_flush_adopts_highest_key two_flushes replay_position.zero
              3%N 3%N) as [Hadopt _].
  rewrite Hadopt; reflexivity.
Defined.

(** In the list model the adopted key keeps the order of the post
    operations: the new operation is queued behind all others and no key in
    the queue is above its key. *)
Lemma run_cf_flush_keeps_order {Func Post : Type} (q : waiting Func Post)
    (func : Func) (post : Post) :
  q <> [] ->
  run_cf_flush q replay_position.zero func post
    = q ++ [(largest_key q, func, post)] /\
  forall e, e ∈ q -> replay_position.ltb (largest_key q) e.1.1 = false.
Proof.
  intros Hq. split.
  - destruct q; [contradiction|reflexivity].
  - intros e. apply largest_key_is_highest.
Qed.

End flush_queue_properties.

(** ** The sstable read path *)

Section sstable_reader_properties.
Import sstable_reader.

Variable shard_of : Z -> N.
Variable cpu_id : N.
Variable streaming_read_priority_id : N.
Variable streamed_mutation : Type.
Variable read_key :
  N -> bytes -> sstable_filter.partition_slice -> list streamed_mutation.
Variable read_range :
  N -> partition_range -> sstable_filter.partition_slice -> list streamed_mutation.

(** C8.  For a singular partition range whose position carries a key, if
    the token of the position belongs to another shard than the current one,
    [make_sstable_reader] returns the empty reader, which yields no
    mutation. *)
Theorem other_shard_key_gets_empty_reader
    (cf : column_family) (pr : partition_range)
    (slice : sstable_filter.partition_slice) (pc : io_priority_class)
    (b : sstable_filter.range_bound ring_position) (k : bytes) :
  is_singular pr = true ->
  start pr = Some b ->
  key (sstable_filter.bound_value b) = Some k ->
  shard_of (token (sstable_filter.bound_value b)) <> cpu_id ->
  make_sstable_reader shard_of cpu_id streaming_read_priority_id cf pr slice pc
    = empty_reader /\
  yields streamed_mutation read_key read_range
    (make_sstable_reader shard_of cpu_id streaming_read_priority_id cf pr slice pc)
    = [].
Proof using Type.
  intros Hsing Hstart Hkey Hshard.
  unfold make_sstable_reader. rewrite Hstart, Hsing, Hkey.
  apply N.eqb_neq in Hshard. rewrite Hshard. simpl. split; reflexivity.
Qed.

(** On the key's own shard the single-key reader is built instead. *)
Lemma own_shard_key_gets_single_key_reader
    (cf : column_family) (pr : partition_range)
    (slice : sstable_filter.partition_slice) (pc : io_priority_class)
    (b : sstable_filter.range_bound ring_position) (k : bytes) :
  is_singular pr = true ->
  start pr = Some b ->
  key (sstable_filter.bound_value b) = Some k ->
  shard_of (token (sstable_filter.bound_value b)) = cpu_id ->
  yields streamed_mutation read_key read_range
    (make_sstable_reader shard_of cpu_id streaming_read_priority_id cf pr slice pc)
    = read_key (_sstables cf) k slice.
Proof using Type.
  intros Hsing Hstart Hkey Hshard.
  unfold make_sstable_reader. rewrite Hstart, Hsing, Hkey.
  apply N.eqb_eq in Hshard. rewrite Hshard. simpl.
  unfold restrict_reader.
  destruct (streaming_read_priority_id =? id pc)%N;
    match goal with |- context [sem ?c] => destruct (sem c) end; reflexivity.
Qed.

End sstable_reader_properties.

Section sstable_reader_scenario.
Import sstable_reader.

(** On shard 0 of a node that places odd tokens on shard 1, the read of
    the key with token 7 gets the empty reader, although every sstable read
    would find a partition. *)
Lemma other_shard_key_gets_empty_reader_witness :
  make_sstable_reader shard_by_parity 0 9 some_table
    (singular 7 [Byte.x6b]) full_slice {| id := 1 |} = empty_reader /\
  yields unit always_one always_one_in_range
    (make_sstable_reader shard_by_parity 0 9 some_table
       (singular 7 [Byte.x6b]) full_slice {| id := 1 |}) = [].
Proof.
  apply (other_shard_key_gets_empty_reader shard_by_parity 0 9 unit
           always_one always_one_in_range some_table (singular 7 [Byte.x6b])
           full_slice {| id := 1 |}
           {| sstable_filter.bound_value := {| token := 7; key := Some [Byte.x6b] |};
              sstable_filter.is_inclusive := true |} [Byte.x6b]).
  - reflexivity.
  - reflexivity.
  - reflexivity.
  - discriminate.
Defined.

(** The same read on shard 1 goes to the sstables. *)
Example own_shard_read :
  yields unit always_one always_one_in_range
    (make_sstable_reader shard_by_parity 1 9 some_table
       (singular 7 [Byte.x6b]) full_slice {| id := 1 |}) = [tt].
Proof. reflexivity. Qed.

End sstable_reader_scenario.

(** ** The reconciliation order is a strict order *)

Section cell_order_properties.
Import cell_order.

Lemma to_uint32_injective (x y : Z) :
  fits_int32 x -> fits_int32 y ->
  cell.to_uint32 x = cell.to_uint32 y -> x = y.
Proof.
  unfold fits_int32, cell.to_uint32. intros Hx Hy Heq.
  pose proof (Z.div_mod x (2 ^ 32) ltac:(lia)) as Dx.
  pose proof (Z.div_mod y (2 ^ 32) ltac:(lia)) as Dy.
  rewrite Heq in Dx.
  assert (x / 2 ^ 32 = y / 2 ^ 32) by lia.
  lia.
Qed.

Lemma lex_lt_irrefl (v : cell.bytes) : ~ cell.lex_lt v v.
Proof.
  intros H. apply compare_unsigned_lt in H.
  rewrite compare_unsigned_refl in H. discriminate.
Qed.

Lemma lex_lt_trans (u v w : cell.bytes) :
  cell.lex_lt u v -> cell.lex_lt v w -> cell.lex_lt u w.
Proof.
  intros Huv. revert w.
  induction Huv as [b t | b1 b2 t1 t2 Hlt | b t1 t2 _ IH]; intros w Hvw;
    inversion Hvw; subst.
  - constructor.
  - constructor.
  - apply cell.lex_lt_head. lia.
  - apply cell.lex_lt_head. assumption.
  - apply cell.lex_lt_head. assumption.
  - apply cell.lex_lt_tail. apply IH. assumption.
Qed.

Lemma lex_lt_asym (u v : cell.bytes) : cell.lex_lt u v -> ~ cell.lex_lt v u.
Proof. intros H1 H2. exact (lex_lt_irrefl _ (lex_lt_trans _ _ _ H1 H2)). Qed.

Lemma lex_lt_neq (u v : cell.bytes) : cell.lex_lt u v -> u <> v.
Proof. intros H ->. exact (lex_lt_irrefl _ H). Qed.

(** [compare_atomic_cell_for_merge] is positive exactly in the cases
    listed by [beats]. *)
Lemma left_wins_iff_beats (a b : cell.atomic_cell_view) :
  fits_int32 (cell.deletion_time a) -> fits_int32 (cell.deletion_time b) ->
  cell.left_wins a b <-> beats a b.
Proof.
  intros Ha Hb. unfold cell.left_wins, beats, cell.compare_atomic_cell_for_merge.
  destruct (Z.eqb_spec (cell.timestamp a) (cell.timestamp b)) as [Hts|Hts]; simpl.
  2:{ destruct (Z.gtb_spec (cell.timestamp a) (cell.timestamp b)) as [Hg|Hg];
        intuition lia. }
  destruct (cell.is_live a) eqn:La, (cell.is_live b) eqn:Lb; simpl;
    [| intuition (lia || congruence) | intuition (lia || congruence) |].
  - destruct (compare_unsigned_sign (cell.value a) (cell.value b))
      as [[Hlt Hc]|[[Hv Hc]|[Hgt Hc]]]; rewrite Hc; simpl.
    + pose proof (lex_lt_asym _ _ Hlt). pose proof (lex_lt_neq _ _ Hlt).
      intuition (lia || congruence).
    + assert (~ cell.lex_lt (cell.value b) (cell.value a))
        by (rewrite Hv; apply lex_lt_irrefl).
      destruct (cell.is_live_and_has_ttl a) eqn:Ta,
               (cell.is_live_and_has_ttl b) eqn:Tb; simpl;
        try solve [intuition (lia || congruence)].
      destruct (Z.eqb_spec (cell.expiry a) (cell.expiry b)) as [He|He]; simpl;
        [intuition (lia || congruence)|].
      destruct (Z.ltb_spec (cell.expiry a) (cell.expiry b));
        intuition (lia || congruence).
    + intuition (lia || congruence).
  - destruct (Z.eqb_spec (cell.deletion_time a) (cell.deletion_time b)) as [Hd|Hd];
      simpl.
    + rewrite Hd. intuition (lia || congruence).
    + assert (cell.to_uint32 (cell.deletion_time a)
                <> cell.to_uint32 (cell.deletion_time b)) as Hne
        by (intros Heq; apply Hd, to_uint32_injective; assumption).
      destruct (Z.ltb_spec (cell.to_uint32 (cell.deletion_time a))
                           (cell.to_uint32 (cell.deletion_time b)));
        intuition (lia || congruence).
Qed.

Lemma beats_trans (a b c : cell.atomic_cell_view) :
  beats a b -> beats b c -> beats a c.
Proof.
  unfold beats. intros Hab Hbc.
  destruct Hab as [Hab|(Tab & Hab)], Hbc as [Hbc|(Tbc & Hbc)];
    try (left; lia).
  right. split; [congruence|].
  destruct Hab as [(A1 & A2)|[(A1 & A2 & A3)|(A1 & A2 & A3)]],
           Hbc as [(B1 & B2)|[(B1 & B2 & B3)|(B1 & B2 & B3)]];
    try congruence.
  - left. split; assumption.
  - right. left. repeat split; try assumption.
    destruct A3 as [A3|(Va & Ta & Tb & Ea)], B3 as [B3|(Vb & Tb' & Tc & Eb)].
    + left. exact (lex_lt_trans _ _ _ B3 A3).
    + left. rewrite <- Vb. exact A3.
    + left. rewrite Va. exact B3.
    + right. repeat split; try assumption; [congruence|lia].
  - left. split; assumption.
  - right. right. repeat split; try assumption. lia.
Qed.

(** X1.  The strict reconciliation order is transitive: if
    [compare_atomic_cell_for_merge] keeps [a] over [b] and [b] over [c], it
    keeps [a] over [c].  Ties are another matter, see
    [ties_are_not_transitive] below. *)
Theorem left_wins_transitive (a b c : cell.atomic_cell_view) :
  fits_int32 (cell.deletion_time a) ->
  fits_int32 (cell.deletion_time b) ->
  fits_int32 (cell.deletion_time c) ->
  cell.left_wins a b -> cell.left_wins b c -> cell.left_wins a c.
Proof.
  intros Ha Hb Hc Hab Hbc.
  apply left_wins_iff_beats in Hab, Hbc; try assumption.
  apply left_wins_iff_beats; try assumption.
  exact (beats_trans _ _ _ Hab Hbc).
Qed.

Lemma left_wins_transitive_witness :
  cell.left_wins (expiring_at 30) (expiring_at 10).
Proof.
  apply (left_wins_transitive (expiring_at 30) (expiring_at 20) (expiring_at 10));
    try (unfold fits_int32; simpl; lia); reflexivity.
Defined.

(** A live cell without TTL ties with every expiring cell of its
    timestamp and value, while those are ordered among themselves by their
    expiry: which of several such versions a merge keeps depends on the
    order in which they are merged. *)
Example ties_are_not_transitive :
  cell.compare_atomic_cell_for_merge
    (expiring_at 10) (cell.live 7 [Byte.x61] None) = 0 /\
  cell.compare_atomic_cell_for_merge
    (cell.live 7 [Byte.x61] None) (expiring_at 20) = 0 /\
  cell.compare_atomic_cell_for_merge (expiring_at 10) (expiring_at 20) = -1.
Proof. vm_compute. repeat split. Qed.

(** X2.  Merging is independent of the order of its arguments: when deletion
    times fit 32 bits, swapping the two cells negates the result, so neither
    cell is kept over itself and never both over each other. *)
Theorem compare_atomic_cell_for_merge_swap (l r : cell.atomic_cell_view) :
  fits_int32 (cell.deletion_time l) -> fits_int32 (cell.deletion_time r) ->
  cell.compare_atomic_cell_for_merge r l = - cell.compare_atomic_cell_for_merge l r /\
  cell.compare_atomic_cell_for_merge l l = 0 /\
  ~ (cell.left_wins l r /\ cell.left_wins r l).
Proof.
  intros Hl Hr.
  assert (cell.compare_atomic_cell_for_merge r l
          = - cell.compare_atomic_cell_for_merge l r) as Hswap.
  { apply compare_atomic_cell_for_merge_antisym.
    intros Hd Heq. apply Hd, to_uint32_injective; assumption. }
  split; [exact Hswap|]. split.
  - pose proof (compare_atomic_cell_for_merge_antisym l l
                  ltac:(intros H; contradiction)). lia.
  - unfold cell.left_wins. lia.
Qed.

Lemma compare_atomic_cell_for_merge_swap_witness :
  cell.compare_atomic_cell_for_merge (deleted_at 200) (deleted_at 100)
  = - cell.compare_atomic_cell_for_merge (deleted_at 100) (deleted_at 200).
Proof.
  apply (compare_atomic_cell_for_merge_swap (deleted_at 100) (deleted_at 200));
    unfold fits_int32; simpl; lia.
Defined.

End cell_order_properties.

(** ** Flush ordering *)

Section flush_order_properties.
Import write_path flush_order.

Lemma replay_position_ltb_trans_false (a b c : replay_position.t) :
  replay_position.ltb a b = false -> replay_position.ltb b c = false ->
  replay_position.ltb a c = false.
Proof.
  intros Hab Hbc. apply not_true_is_false. intros Hac.
  apply not_true_iff_false in Hab, Hbc.
  rewrite replay_position_ltb_iff in Hab, Hbc, Hac. lia.
Qed.

Lemma replay_position_max_not_below_r (a b c : replay_position.t) :
  replay_position.ltb b c = false ->
  replay_position.ltb (replay_position.max a b) c = false.
Proof. apply replay_position_max_above. Qed.

Lemma step_keeps_order (cf : column_family.t) (o : op) :
  memtable_not_behind cf ->
  memtable_not_behind (step cf o) /\
  replay_position.ltb (column_family._highest_flushed_rp (step cf o))
                      (column_family._highest_flushed_rp cf) = false.
Proof.
  intros Hinv. destruct o as [m s rp|]; simpl.
  - unfold column_family.apply_frozen, column_family.check_valid_rp.
    destruct (replay_position.ltb rp (column_family._highest_flushed_rp cf)) eqn:Hrp.
    + split; [exact Hinv|apply replay_position_ltb_irrefl].
    + split; [|apply replay_position_ltb_irrefl].
      intros _. simpl. apply replay_position_max_not_below_r, Hrp.
  - unfold column_family.seal_active_memtable.
    destruct (memtable_empty (column_family.active_memtable cf)) eqn:He.
    + split; [exact Hinv|apply replay_position_ltb_irrefl].
    + split; [intros Hne; simpl in Hne; discriminate|].
      simpl. apply Hinv, He.
Qed.

(** X3.  RP monotonicity.  Over any sequence of writes through the
    [frozen_mutation] overload of [column_family::apply] and of seals of the
    active memtable, the highest flushed replay position never decreases,
    and a non-empty active memtable never holds a position below it. *)
Theorem highest_flushed_rp_never_decreases (ops : list op) :
  forall cf : column_family.t,
  memtable_not_behind cf ->
  replay_position.ltb (column_family._highest_flushed_rp (run cf ops))
                      (column_family._highest_flushed_rp cf) = false /\
  memtable_not_behind (run cf ops).
Proof.
  unfold run. induction ops as [|o ops IH]; intros cf Hinv; simpl.
  - split; [apply replay_position_ltb_irrefl|exact Hinv].
  - destruct (step_keeps_order cf o Hinv) as [Hinv' Hstep].
    destruct (IH (step cf o) Hinv') as [Hrest Hfinal].
    split; [|exact Hfinal].
    apply not_true_is_false. intros Hlt.
    apply not_true_iff_false in Hrest, Hstep.
    rewrite replay_position_ltb_iff in Hrest, Hstep, Hlt. lia.
Qed.

(** The late write at (1, 15) is refused after the flush up to (1, 20);
    the run ends with (1, 30) flushed. *)
Lemma highest_flushed_rp_never_decreases_witness :
  replay_position.ltb
    (column_family._highest_flushed_rp (run cf7 writes_and_seals))
    (column_family._highest_flushed_rp cf7) = false /\
  column_family._highest_flushed_rp (run cf7 writes_and_seals)
    = replay_position.mk 1 30.
Proof.
  split.
  - apply (highest_flushed_rp_never_decreases writes_and_seals cf7).
    intros Hne. discriminate.
  - reflexivity.
Defined.

(** The reordering error reaches the caller of [database::do_apply] only
    for a table that has no commit log. *)
Lemma reordering_surfaces_only_without_commitlog_witness :
  exists cf, database._column_families db_no_commitlog !! 7%N = Some cf /\
             column_family._commitlog cf = false.
Proof.
  apply (reordering_surfaces_only_without_commitlog [] db_no_commitlog synced
           write_to_7 db_no_commitlog []).
  reflexivity.
Defined.

End flush_order_properties.

(** ** Streaming ingest *)

Section streaming_ingest_properties.
Import write_path streaming_ingest.

(** X5.  A streaming write never reaches the regular memtable.  A fragmented
    write changes the big memtable of its own plan only, creating it when the
    plan is new; a plain one changes the streaming memtable only. *)
Theorem streaming_write_is_confined (cf : column_family) (m_schema : schema)
    (plan_id : uuid) (m : frozen_mutation) (fragmented : bool) :
  let cf' := apply_streaming_mutation cf m_schema plan_id m fragmented in
  _memtables cf' = _memtables cf /\
  (fragmented = true ->
   _streaming_memtables cf' = _streaming_memtables cf /\
   (forall other, other <> plan_id ->
      _streaming_memtables_big cf' !! other = _streaming_memtables_big cf !! other) /\
   exists entry,
     _streaming_memtables_big cf' !! plan_id = Some entry /\
     contents (memtables entry)
       = match _streaming_memtables_big cf !! plan_id with
         | Some old => contents (memtables old)
         | None => []
         end ++ [applied_frozen m m_schema] /\
     sstables entry
       = match _streaming_memtables_big cf !! plan_id with
         | Some old => sstables old
         | None => []
         end) /\
  (fragmented = false ->
   _streaming_memtables_big cf' = _streaming_memtables_big cf /\
   contents (_streaming_memtables cf')
     = contents (_streaming_memtables cf) ++ [applied_frozen m m_schema]).
Proof.
  destruct fragmented; simpl; (split; [reflexivity|]); split;
    try discriminate; intros _.
  - split; [reflexivity|]. split.
    + intros other Hne. apply lookup_insert_ne. congruence.
    + eexists. split; [apply lookup_insert_eq|].
      destruct (_streaming_memtables_big cf !! plan_id); simpl; split; reflexivity.
  - split; reflexivity.
Qed.

Lemma streaming_write_is_confined_witness :
  exists entry,
    _streaming_memtables_big
      (apply_streaming_mutation fresh_table synced 3%N write_to_7 true) !! 3%N
      = Some entry /\
    contents (memtables entry) = [applied_frozen write_to_7 synced].
Proof.
  destruct (streaming_write_is_confined fresh_table synced 3%N write_to_7 true)
    as (_ & Hfrag & _).
  destruct (Hfrag eq_refl) as (_ & _ & entry & Hentry & Hcontents & _).
  exists entry. split; [exact Hentry|exact Hcontents].
Defined.



End streaming_ingest_properties.

(** ** More on sstable filtering *)

Section filter_shape_properties.
Import sstable_filter filter_shapes.

Variable data_type : Type.
Variable type_compare : data_type -> bytes -> bytes -> Z.
Variable overlaps :
  data_type -> nonwrapping_range bytes -> nonwrapping_range bytes -> bool.

Lemma clustering_filter_pass_length (sstables : list sstable)
    (s : schema data_type) (ranges : ck_filter_clustering_key_ranges) :
  (length (clustering_filter_pass data_type overlaps sstables s ranges)
   <= length sstables)%nat.
Proof using Type.
  unfold clustering_filter_pass.
  rewrite (partition_as_filter _ sstables).
  rewrite (partition_as_filter (sstable_has_relevant_tombstone _)).
  simpl. rewrite length_app.
  pose proof (filter_length
                (fun sst => contains_rows data_type overlaps sst s ranges) sstables).
  match goal with
  | |- context [List.filter (sstable_has_relevant_tombstone ?m) ?l] =>
      pose proof (filter_length_le (sstable_has_relevant_tombstone m) l)
  end.
  lia.
Qed.

(** X7.  Whatever branch the filter takes, what it returns passed the bloom
    filter for the key and was among the sstables given. *)
Theorem filter_returns_bloom_positive_inputs
    (sstables : list sstable) (stats stats' : cf_stats)
    (use_clustering_key_filter : bool) (s : schema data_type) (key : bytes)
    (slice : partition_slice) (result : list sstable) :
  filter_sstable_for_reader data_type type_compare overlaps sstables stats
    use_clustering_key_filter s key slice = (stats', ok result) ->
  forall x, In x result -> In x sstables /\ filter_has_key x key = true.
Proof using Type.
  unfold filter_sstable_for_reader. intros Hres x Hx.
  assert (forall l, (forall y, In y l ->
            In y (List.filter (fun sst => filter_has_key sst key) sstables)) ->
          In x l -> In x sstables /\ filter_has_key x key = true) as Hsub.
  { intros l Hl Hin. apply Hl in Hin. apply filter_In in Hin. exact Hin. }
  destruct ((clustering_key_size data_type s =? 0)%nat
            || negb use_clustering_key_filter).
  { injection Hres as _ <-. apply (Hsub _ (fun y H => H) Hx). }
  destruct (is_single_full_range (get_all_ranges slice)).
  { injection Hres as _ <-. apply (Hsub _ (fun y H => H) Hx). }
  destruct (ranges_for_clustering_key_filter data_type type_compare s
              (get_all_ranges slice)) as [[|r ranges]|]; try discriminate.
  - injection Hres as _ <-. destruct Hx.
  - injection Hres as _ <-. revert Hx. apply Hsub.
    intros y Hy. apply clustering_filter_pass_In in Hy. tauto.
Qed.

(** X8.  The counters of the filter: one call counts at most once, a fast
    path is a counted call, and no more sstables survive than were checked. *)
Theorem filter_counters (sstables : list sstable) (stats : cf_stats)
    (use_clustering_key_filter : bool) (s : schema data_type) (key : bytes)
    (slice : partition_slice) :
  let stats' :=
    (filter_sstable_for_reader data_type type_compare overlaps sstables stats
       use_clustering_key_filter s key slice).1 in
  let d_count := clustering_filter_count stats' - clustering_filter_count stats in
  let d_checked := sstables_checked_by_clustering_filter stats'
                   - sstables_checked_by_clustering_filter stats in
  let d_fast := clustering_filter_fast_path_count stats'
                - clustering_filter_fast_path_count stats in
  let d_surviving := surviving_sstables_after_clustering_filter stats'
                     - surviving_sstables_after_clustering_filter stats in
  0 <= d_fast <= d_count /\ d_count <= 1 /\
  0 <= d_surviving <= d_checked /\
  d_checked <= Z.of_nat (length sstables).
Proof using Type.
  unfold filter_sstable_for_reader.
  pose proof (filter_length_le (fun sst => filter_has_key sst key) sstables) as Hbloom.
  destruct ((clustering_key_size data_type s =? 0)%nat
            || negb use_clustering_key_filter); simpl; [lia|].
  destruct (is_single_full_range (get_all_ranges slice)); simpl; [lia|].
  destruct (ranges_for_clustering_key_filter data_type type_compare s
              (get_all_ranges slice)) as [[|r ranges]|]; simpl; try lia.
  pose proof (clustering_filter_pass_length
                (List.filter (fun sst => filter_has_key sst key) sstables)
                s (r :: ranges)).
  lia.
Qed.

(** A full range among the requested ones shows up as an open-ended tuple. *)
Lemma full_range_gives_open_tuple (s : schema data_type)
    (all : list clustering_range) (ranges : ck_filter_clustering_key_ranges)
    (r : clustering_range) :
  ranges_for_clustering_key_filter data_type type_compare s all = ok ranges ->
  In r all -> is_full r = true ->
  In [make_open_ended_both_sides] ranges.
Proof using Type.
  revert ranges. induction all as [|r0 all IH]; intros ranges Hres Hin Hfull;
    [destruct Hin|].
  simpl in Hres. destruct Hin as [->|Hin].
  - rewrite Hfull in Hres.
    destruct (ranges_for_clustering_key_filter data_type type_compare s all);
      [|discriminate].
    injection Hres as <-. left. reflexivity.
  - destruct (is_full r0).
    + destruct (ranges_for_clustering_key_filter data_type type_compare s all)
        as [rest|]; [|discriminate].
      injection Hres as <-. right. apply IH; auto.
    + destruct (singular_prefix data_type type_compare _ _ _)
        as [[[c s_it] e_it]|]; [|discriminate].
      destruct (ranges_for_clustering_key_filter data_type type_compare s all)
        as [rest|]; [|discriminate].
      injection Hres as <-. right. apply IH; auto.
Qed.

Lemma open_tuple_contains_rows (sst : sstable) (s : schema data_type)
    (ranges : ck_filter_clustering_key_ranges) :
  In [make_open_ended_both_sides] ranges ->
  contains_rows data_type overlaps sst s ranges = true.
Proof using Type.
  intros Hin. unfold contains_rows.
  destruct ((clustering_key_size data_type s =? 0)%nat
            || (length (clustering_components_ranges sst) =? 0)%nat);
    [reflexivity|].
  apply existsb_exists. eexists. split; [exact Hin|].
  destruct (clustering_components_ranges sst) as [|c cs],
           (clustering_key_types s) as [|ty tys]; try reflexivity.
  simpl. destruct cs, tys; reflexivity.
Qed.

(** X9.  When one of the requested clustering ranges is the full range, the
    clustering filter rejects nothing: the sstables returned are exactly
    those that pass the bloom filter. *)
Theorem full_range_keeps_every_candidate
    (sstables : list sstable) (stats stats' : cf_stats)
    (use_clustering_key_filter : bool) (s : schema data_type) (key : bytes)
    (slice : partition_slice) (result : list sstable) (r : clustering_range) :
  In r (get_all_ranges slice) -> is_full r = true ->
  filter_sstable_for_reader data_type type_compare overlaps sstables stats
    use_clustering_key_filter s key slice = (stats', ok result) ->
  forall x, In x result <-> In x sstables /\ filter_has_key x key = true.
Proof using Type.
  intros Hin Hfull Hres x.
  split; [apply (filter_returns_bloom_positive_inputs _ _ _ _ _ _ _ _ Hres)|].
  intros Hx. apply (filter_In (fun sst => filter_has_key sst key)) in Hx.
  revert Hres. unfold filter_sstable_for_reader.
  destruct ((clustering_key_size data_type s =? 0)%nat
            || negb use_clustering_key_filter).
  { intros Hres. injection Hres as _ <-. exact Hx. }
  destruct (is_single_full_range (get_all_ranges slice)).
  { intros Hres. injection Hres as _ <-. exact Hx. }
  destruct (ranges_for_clustering_key_filter data_type type_compare s
              (get_all_ranges slice)) as [ranges|] eqn:Hranges; [|discriminate].
  pose proof (full_range_gives_open_tuple _ _ _ _ Hranges Hin Hfull) as Hopen.
  destruct ranges as [|r0 ranges]; [destruct Hopen|].
  intros Hres. injection Hres as _ <-.
  apply clustering_filter_pass_In. split; [exact Hx|].
  left. apply open_tuple_contains_rows, Hopen.
Qed.

Lemma singular_prefix_shape (types : list data_type) :
  forall (start end_ : list bytes) (rs : list (nonwrapping_range bytes))
         (start_it end_it : list bytes),
  singular_prefix data_type type_compare types start end_
    = ok (rs, start_it, end_it) ->
  forall i r, rs !! i = Some r -> is_singular_component type_compare types i r.
Proof using Type.
  induction types as [|ty types IH]; intros start end_ rs start_it end_it Hres i r Hi.
  - destruct start, end_; simpl in Hres; try discriminate;
      injection Hres as <- _ _; discriminate.
  - destruct start as [|s start'], end_ as [|e end']; simpl in Hres;
      try (injection Hres as <- _ _; discriminate).
    destruct (Z.eqb_spec (type_compare ty s e) 0) as [Hc|Hc];
      [|injection Hres as <- _ _; discriminate].
    destruct (singular_prefix data_type type_compare types start' end')
      as [[[rs' s_it] e_it]|] eqn:Hrec; [|discriminate].
    injection Hres as <- _ _.
    destruct i as [|i]; simpl in Hi.
    + injection Hi as <-. exists ty, s, e. repeat split. exact Hc.
    + destruct (IH _ _ _ _ _ Hrec i r Hi) as (ty' & s' & e' & Hty & Hr & Hc').
      exists ty', s', e'. repeat split; assumption.
Qed.

Lemma tail_range_length (r : clustering_range) (start_it end_it : list bytes) :
  (length (tail_range r start_it end_it) <= 1)%nat.
Proof using Type. destruct start_it, end_it; simpl; lia. Qed.

(** X10.  One tuple of component ranges is made for each requested clustering
    range, and in every tuple each component but the last is of the form
    [v, v]: components that follow a non-singular one are dropped. *)
Theorem ranges_for_clustering_key_filter_shape (s : schema data_type)
    (all : list clustering_range) :
  forall ranges : ck_filter_clustering_key_ranges,
  ranges_for_clustering_key_filter data_type type_compare s all = ok ranges ->
  length ranges = length all /\
  forall tuple : list (nonwrapping_range bytes), In tuple ranges ->
    forall i r, (S i < length tuple)%nat -> tuple !! i = Some r ->
      is_singular_component type_compare (clustering_key_types s) i r.
Proof using Type.
  induction all as [|r0 all IH]; intros ranges Hres; simpl in Hres.
  - injection Hres as <-. split; [reflexivity|]. intros tuple [].
  - destruct (is_full r0).
    + destruct (ranges_for_clustering_key_filter data_type type_compare s all)
        as [rest|]; [|discriminate].
      injection Hres as <-. destruct (IH rest eq_refl) as [Hlen Hshape].
      split; [simpl; congruence|].
      intros tuple [<-|Hin]; [simpl; intros; lia|]. apply Hshape, Hin.
    + destruct (singular_prefix data_type type_compare _ _ _)
        as [[[rs s_it] e_it]|] eqn:Hprefix; [|discriminate].
      destruct (ranges_for_clustering_key_filter data_type type_compare s all)
        as [rest|]; [|discriminate].
      injection Hres as <-. destruct (IH rest eq_refl) as [Hlen Hshape].
      split; [simpl; congruence|].
      intros tuple [<-|Hin]; [|apply Hshape, Hin].
      intros i r Hi Hr. rewrite length_app in Hi.
      pose proof (tail_range_length r0 s_it e_it).
      rewrite lookup_app_l in Hr by lia.
      exact (singular_prefix_shape _ _ _ _ _ _ Hprefix i r Hr).
Qed.

End filter_shape_properties.

Section filter_shape_scenarios.
Import sstable_filter filter_shapes.

(** Sstable B holds rows in [20, 30] only and the query asks for
    [05, 0a] and for everything: B is returned; E does not know the key and
    is not. *)
Lemma full_range_keeps_every_candidate_witness :
  exists stats' result,
    filter_sstable_for_reader bytes_type bytes_compare bytes_overlaps
      [sst_C; sst_E; sst_D] no_stats true one_column [] slice_5_10_and_all
      = (stats', ok result) /\
    In sst_C result /\ In sst_D result /\ ~ In sst_E result.
Proof.
  eexists. eexists. split; [reflexivity|].
  pose proof (full_range_keeps_every_candidate
                bytes_type bytes_compare bytes_overlaps
                [sst_C; sst_E; sst_D] no_stats _ true one_column []
                slice_5_10_and_all _ make_open_ended_both_sides
                ltac:(simpl; tauto) eq_refl eq_refl) as H.
  split; [|split].
  - apply H. simpl. split; [tauto|reflexivity].
  - apply H. simpl. split; [tauto|reflexivity].
  - intros Hin. apply H in Hin as [_ Hbloom]. discriminate.
Defined.

Lemma filter_returns_bloom_positive_inputs_witness :
  In sst_B [sst_C; sst_B; sst_A; sst_D] /\ filter_has_key sst_B [] = true.
Proof.
  apply (filter_returns_bloom_positive_inputs bytes_type bytes_compare
           bytes_overlaps [sst_C; sst_B; sst_A; sst_D] no_stats _ true
           one_column [] slice_5_10 _ eq_refl sst_B).
  simpl. tauto.
Defined.

(** The request for the rows from (61, 01) to (61, 09) in a table with
    two clustering columns: the first component is the singular [61, 61]. *)
Lemma ranges_for_clustering_key_filter_shape_witness :
  is_singular_component bytes_compare [bytes_type_instance; bytes_type_instance] 0
    {| range_start := Some {| bound_value := [Byte.x61]; is_inclusive := true |};
       range_end := Some {| bound_value := [Byte.x61]; is_inclusive := true |} |}.
Proof.
  destruct (ranges_for_clustering_key_filter_shape bytes_type bytes_compare
              {| clustering_key_types := [bytes_type_instance; bytes_type_instance] |}
              [ {| range_start :=
                     Some {| bound_value := [[Byte.x61]; [Byte.x01]];
                             is_inclusive := true |};
                   range_end :=
                     Some {| bound_value := [[Byte.x61]; [Byte.x09]];
                             is_inclusive := false |} |} ]
              _ eq_refl) as [_ Hshape].
  apply (Hshape _ (or_introl eq_refl) 0%nat); [simpl; lia | reflexivity].
Defined.

End filter_shape_scenarios.

(** ** More on the sstable list *)

Section sstable_views_properties.
Import sstable_list sstable_views.

Variable data_size : shared_sstable -> N.

Lemma insert_in_place_fold_deref (compacted : list shared_sstable) :
  forall (h : gmap loc (gset shared_sstable)) (p : loc) (x : shared_sstable),
  is_Some (h !! p) ->
  (x ∈ deref (fold_left (fun h s => insert_in_place h p s) compacted h) p
   <-> x ∈ deref h p \/ x ∈ compacted) /\
  (forall r, r <> p ->
     fold_left (fun h s => insert_in_place h p s) compacted h !! r = h !! r).
Proof using Type.
  clear data_size.
  induction compacted as [|c compacted IH]; intros h p x Hp; simpl.
  - split; [set_solver|reflexivity].
  - destruct Hp as [s Hs].
    assert (insert_in_place h p c !! p = Some ({[c]} ∪ s)) as Hp'
      by (unfold insert_in_place; rewrite lookup_alter_eq, Hs; reflexivity).
    destruct (IH (insert_in_place h p c) p x (ex_intro _ _ Hp')) as [IH1 IH2].
    split.
    + rewrite IH1. unfold deref. rewrite Hp', Hs. simpl. set_solver.
    + intros r Hr. rewrite (IH2 r Hr). unfold insert_in_place.
      apply lookup_alter_ne. congruence.
Qed.

(** X11.  The view that includes the compacted-but-not-deleted sstables holds
    the current sstables and the compacted ones, and building it changes no
    set object that existed: when a copy is needed, the insertions go to the
    copy. *)
Theorem view_including_compacted (st : state) :
  is_Some (objects st !! _sstables (cf st)) ->
  let r := get_sstables_including_compacted_undeleted st in
  (forall x, x ∈ deref r.1 r.2 <->
     x ∈ deref (objects st) (_sstables (cf st)) \/
     x ∈ _sstables_compacted_but_not_deleted (cf st)) /\
  (forall p, is_Some (objects st !! p) -> r.1 !! p = objects st !! p).
Proof using Type.
  clear data_size.
  intros Hcur. unfold get_sstables_including_compacted_undeleted.
  destruct (_sstables_compacted_but_not_deleted (cf st)) as [|c compacted] eqn:Hc.
  - simpl. split; [set_solver|reflexivity].
  - remember (c :: compacted) as cs.
    pose proof (make_lw_shared_fresh (objects st)
                  (deref (objects st) (_sstables (cf st)))) as Hfresh.
    pose proof (make_lw_shared_deref (objects st)
                  (deref (objects st) (_sstables (cf st)))) as Hderef.
    pose proof (make_lw_shared_preserves (objects st)
                  (deref (objects st) (_sstables (cf st)))) as Hpres.
    destruct (make_lw_shared (objects st) _) as [h ret] eqn:Hm.
    simpl in Hfresh, Hderef, Hpres. simpl.
    assert (is_Some (h !! ret)) as Hret.
    { unfold make_lw_shared in Hm. injection Hm as <- <-.
      rewrite lookup_insert_eq. eauto. }
    split.
    + intros x. destruct (insert_in_place_fold_deref cs h ret x Hret) as [H1 _].
      rewrite H1, Hderef. reflexivity.
    + intros p Hp.
      destruct (insert_in_place_fold_deref cs h ret c Hret) as [_ H2].
      rewrite H2; [exact (Hpres p Hp)|].
      intros ->. rewrite Hfresh in Hp. destruct Hp; discriminate.
Qed.

(** X12.  What [rebuild_sstable_list] publishes: the new sstables and the old
    ones, without the removed ones.  Together with the compacted list nothing
    is lost: every sstable that was in the list or waiting for deletion, and
    every new one, is still in one of the two. *)
Theorem rebuild_sstable_list_published (st : state)
    (new_sstables to_remove : list shared_sstable) :
  let st1 := rebuild_sstable_list data_size st new_sstables to_remove in
  (forall x, x ∈ deref (objects st1) (_sstables (cf st1)) <->
     (x ∈ new_sstables \/ x ∈ deref (objects st) (_sstables (cf st))) /\
     x ∉ to_remove) /\
  (forall x,
     x ∈ deref (objects st1) (_sstables (cf st1)) \/
     x ∈ _sstables_compacted_but_not_deleted (cf st1) <->
     x ∈ new_sstables \/ x ∈ deref (objects st) (_sstables (cf st)) \/
     x ∈ _sstables_compacted_but_not_deleted (cf st)).
Proof using Type.
  intros st1.
  destruct (rebuild_sstable_list_result data_size st new_sstables to_remove)
    as [Hset Hcomp].
  fold st1 in Hset, Hcomp. rewrite Hset, Hcomp.
  split; intros x;
    match goal with
    | |- context [sort_out ?s ?tabs ?a ?b] =>
        destruct (sort_out_spec s tabs a b x) as [H1 H2]
    end; rewrite H1; [|rewrite H2];
    rewrite elem_of_app, elem_of_elements, elem_of_list_to_set.
  - set_solver.
  - destruct (decide (x ∈ to_remove)); set_solver.
Qed.

Lemma update_stats_fold_counts (l : list shared_sstable) (c : column_family) :
  let c' := fold_left
              (fun c tab => update_stats_for_new_sstable c (data_size tab)) l c in
  live_sstable_count c' = (live_sstable_count c + N.of_nat (length l))%N /\
  live_disk_space_used c'
    = (live_disk_space_used c + fold_right N.add 0 (map data_size l))%N /\
  total_disk_space_used c'
    = (total_disk_space_used c + fold_right N.add 0 (map data_size l))%N.
Proof using Type.
  revert c; induction l as [|x l IH]; intros c; simpl.
  - repeat split; lia.
  - destruct (IH (update_stats_for_new_sstable c (data_size x))) as (H1 & H2 & H3).
    rewrite H1, H2, H3. simpl. repeat split; lia.
Qed.

(** X13.  [rebuild_statistics] counts as live the sstables of the current list
    and those that are compacted but not deleted yet; the live size is the
    sum of their data sizes, and the total size grows by that sum. *)
Theorem rebuild_statistics_counts (h : gmap loc (gset shared_sstable))
    (c : column_family) :
  let live := _sstables_compacted_but_not_deleted c ++ elements (deref h (_sstables c)) in
  let c' := rebuild_statistics data_size h c in
  live_sstable_count c'
    = N.of_nat (length (_sstables_compacted_but_not_deleted c)
                + size (deref h (_sstables c))) /\
  live_disk_space_used c' = fold_right N.add 0%N (map data_size live) /\
  total_disk_space_used c'
    = (total_disk_space_used c + fold_right N.add 0 (map data_size live))%N.
Proof using Type.
  intros live c'. unfold c', rebuild_statistics.
  match goal with
  | |- context [fold_left _ ?l ?c0] =>
      destruct (update_stats_fold_counts l c0) as (H1 & H2 & H3)
  end.
  simpl in *. rewrite H1, H2, H3. fold live.
  unfold live at 1. rewrite length_app. unfold size, set_size. simpl.
  repeat split; lia.
Qed.

End sstable_views_properties.

Section sstable_views_scenarios.
Import sstable_list sstable_views.

(** While sstables 1 and 2 wait for their deletion, the view holds them
    next to sstable 3, and the list that was published keeps holding 3
    alone. *)
Lemma view_including_compacted_witness :
  (1%N ∈ deref (get_sstables_including_compacted_undeleted compacted_into_3).1
               (get_sstables_including_compacted_undeleted compacted_into_3).2) /\
  (get_sstables_including_compacted_undeleted compacted_into_3).1 !! 1%N
    = objects compacted_into_3 !! 1%N.
Proof.
  destruct (view_including_compacted compacted_into_3) as [Hview Hsame].
  - exists {[ 3%N ]}. reflexivity.
  - split.
    + apply Hview. right. vm_compute. apply list_elem_of_further, list_elem_of_here.
    + apply Hsame. exists {[ 3%N ]}. reflexivity.
Defined.

End sstable_views_scenarios.

Section truncation_properties.
Import sstable_list.

Variable max_data_age : shared_sstable -> Z.

Lemma prune_fold_spec (gc_trunc : Z) (l : list shared_sstable) :
  forall (acc : gset shared_sstable) (x : shared_sstable),
  x ∈ fold_left
        (fun acc p => if max_data_age p <=? gc_trunc then acc else {[p]} ∪ acc)
        l acc
  <-> x ∈ acc \/ (x ∈ l /\ gc_trunc < max_data_age x).
Proof using Type.
  induction l as [|p l IH]; intros acc x; simpl.
  - set_solver.
  - rewrite IH. destruct (Z.leb_spec (max_data_age p) gc_trunc) as [Hle|Hgt].
    + split; [set_solver|]. intros [H|[H Hx]]; [tauto|].
      apply elem_of_cons in H as [->|H]; [lia|]. right. tauto.
    + rewrite elem_of_union, elem_of_singleton, elem_of_cons.
      split; [intros [[->|H]|[H Hx]]; tauto|].
      intros [H|[[->|H] Hx]]; tauto.
Qed.

(** X14.  Truncation publishes exactly the sstables that are newer than the
    truncation point, and leaves the compacted-but-not-deleted list alone. *)
Theorem discard_sstables_keeps_newer (st : state) (gc_trunc : Z) :
  let st' := discard_sstables max_data_age st gc_trunc in
  (forall x, x ∈ deref (objects st') (_sstables (cf st')) <->
     x ∈ deref (objects st) (_sstables (cf st)) /\ gc_trunc < max_data_age x) /\
  _sstables_compacted_but_not_deleted (cf st')
    = _sstables_compacted_but_not_deleted (cf st).
Proof using Type.
  unfold discard_sstables.
  match goal with
  | |- context [make_lw_shared (objects st) ?x] =>
      pose proof (make_lw_shared_deref (objects st) x) as Hd;
      destruct (make_lw_shared (objects st) x) as [h p]
  end.
  simpl in *. split; [|reflexivity].
  intros x. rewrite Hd, prune_fold_spec, elem_of_elements. set_solver.
Qed.

End truncation_properties.

Section level_properties.
Import sstable_list sstable_views.

Variable get_sstable_level : shared_sstable -> nat.

Lemma count_one_lookup (acc : list N) (sst : shared_sstable) (l : nat) :
  default 0%N (count_one get_sstable_level acc sst !! l)
  = (default 0%N (acc !! l)
     + if (get_sstable_level sst =? l)%nat then 1 else 0)%N.
Proof using Type.
  unfold count_one.
  set (level := get_sstable_level sst).
  set (padded := if (length acc <? level + 1)%nat
                 then acc ++ replicate (level + 1 - length acc) 0%N else acc).
  assert (forall i, default 0%N (padded !! i) = default 0%N (acc !! i)) as Hpad.
  { intros i. unfold padded.
    destruct (Nat.ltb_spec (length acc) (level + 1)); [|reflexivity].
    destruct (decide (i < length acc)%nat).
    - rewrite lookup_app_l by assumption. reflexivity.
    - rewrite lookup_app_r by lia.
      rewrite (lookup_ge_None_2 acc i) by lia. simpl.
      destruct (replicate (level + 1 - length acc) 0%N !! (i - length acc)%nat)
        as [y|] eqn:Hy; [|reflexivity].
      apply lookup_replicate in Hy as [-> _]. reflexivity. }
  assert (level < length padded)%nat as Hlen.
  { unfold padded. destruct (Nat.ltb_spec (length acc) (level + 1)).
    - rewrite length_app, length_replicate. lia.
    - lia. }
  destruct (Nat.eqb_spec level l) as [<-|Hne].
  - rewrite list_lookup_alter_eq. rewrite <- Hpad.
    destruct (lookup_lt_is_Some_2 padded level Hlen) as [n ->]. simpl. lia.
  - rewrite list_lookup_alter_ne by assumption. rewrite Hpad. lia.
Qed.

Lemma count_fold_lookup (ssts : list shared_sstable) :
  forall (acc : list N) (l : nat),
  default 0%N (fold_left (count_one get_sstable_level) ssts acc !! l)
  = (default 0%N (acc !! l) + count_at_level get_sstable_level l ssts)%N.
Proof using Type.
  unfold count_at_level.
  induction ssts as [|sst ssts IH]; intros acc l; simpl; [lia|].
  rewrite IH, count_one_lookup.
  destruct (get_sstable_level sst =? l)%nat; simpl; lia.
Qed.

(** X15.  [sstable_count_per_level] tells, for each level, how many of the
    sstables are at that level; a level beyond the end of the vector has
    none. *)
Theorem sstable_count_per_level_counts (ssts : list shared_sstable) (l : nat) :
  default 0%N (sstable_count_per_level get_sstable_level ssts !! l)
    = count_at_level get_sstable_level l ssts /\
  ((length (sstable_count_per_level get_sstable_level ssts) <= l)%nat ->
   forall sst, In sst ssts -> get_sstable_level sst <> l).
Proof using Type.
  unfold sstable_count_per_level.
  pose proof (count_fold_lookup ssts [] l) as Hcount. simpl in Hcount.
  split; [exact Hcount|].
  intros Hlen sst Hin Hlevel.
  rewrite lookup_ge_None_2 in Hcount by exact Hlen. simpl in Hcount.
  unfold count_at_level in Hcount.
  assert (In sst (List.filter (fun s => (get_sstable_level s =? l)%nat) ssts)) as Hf
    by (apply filter_In; split; [exact Hin|apply Nat.eqb_eq, Hlevel]).
  destruct (List.filter _ ssts); [destruct Hf|simpl in Hcount; lia].
Qed.

End level_properties.

Section level_scenarios.
Import sstable_list sstable_views.

Lemma sstable_count_per_level_counts_witness :
  sstable_count_per_level level_of [1%N; 3%N; 2%N] = [2%N; 0%N; 1%N] /\
  forall sst, In sst [1%N; 3%N; 2%N] -> level_of sst <> 5%nat.
Proof.
  split; [reflexivity|].
  apply (sstable_count_per_level_counts level_of [1%N; 3%N; 2%N] 5). simpl. lia.
Defined.

End level_scenarios.

(** ** Shard ownership *)

Section shard_ownership_properties.
Import shard_ownership.

Variable cpu_id : N.

(** X16.  For a vector of distinct shards, [belongs_to_other_shard] holds
    exactly when some shard other than the current one is in it. *)
Theorem belongs_to_other_shard_spec (shards : list N) :
  NoDup shards ->
  belongs_to_other_shard cpu_id shards = true <->
  exists s, In s shards /\ s <> cpu_id.
Proof using Type.
  intros Hnd. unfold belongs_to_other_shard, belongs_to_current_shard.
  destruct shards as [|a [|b rest]]; simpl.
  - split; [discriminate|]. intros (s & [] & _).
  - destruct (N.eqb_spec a cpu_id) as [->|Hne]; simpl.
    + split; [discriminate|]. intros (s & [<-|[]] & Hs). contradiction.
    + split; [intros _; exists a; auto|reflexivity].
  - assert (a <> b) as Hab.
    { inversion Hnd as [|? ? Hnotin _]; subst. intros ->.
      apply Hnotin. constructor. }
    match goal with
    | |- context [if ?c then 1%nat else 0%nat] => destruct c
    end; simpl.
    all: split; [intros _|reflexivity].
    all: destruct (N.eq_dec a cpu_id) as [->|Ha];
      [exists b; split; [auto|congruence] | exists a; split; [auto|exact Ha]].
Qed.

End shard_ownership_properties.

Section shard_ownership_scenarios.
Import shard_ownership.

Lemma belongs_to_other_shard_spec_witness :
  belongs_to_other_shard 0 [0%N; 2%N] = true.
Proof.
  apply (belongs_to_other_shard_spec 0 [0%N; 2%N]).
  - apply NoDup_cons. split; [|apply NoDup_singleton].
    intros H. apply list_elem_of_singleton in H. discriminate.
  - exists 2%N. split; [simpl; auto|discriminate].
Defined.

(** The hypothesis matters: with the current shard listed twice the
    function answers yes although no other shard is there. *)
Example belongs_to_other_shard_with_duplicates :
  belongs_to_other_shard 0 [0%N; 0%N] = true.
Proof. reflexivity. Qed.

End shard_ownership_scenarios.

(** ** What a directory scan has seen *)

Section scan_facts_properties.
Import populate scan_facts.

Lemma component_eqb_eq (a b : component_type) :
  component_eqb a b = true <-> a = b.
Proof. destruct a, b; simpl; split; congruence. Qed.

(** One successful probe that raises no error: the generation is valid
    afterwards exactly if it was valid before or the file is its TOC. *)
Lemma on_probed_has_toc (st : scan_state) (entry : entry_descriptor) (g : N) :
  (on_probed st entry).2 = None ->
  (verifier (on_probed st entry).1.1 !! g = Some has_toc_file <->
   verifier st !! g = Some has_toc_file \/
   (generation entry = g /\ component entry = TOC)) /\
  (verifier (on_probed st entry).1.1 !! g = Some has_temporary_toc_file <->
   (verifier st !! g = Some has_temporary_toc_file /\
    ~ (generation entry = g /\ component entry = TOC)) \/
   (generation entry = g /\ component entry = TemporaryTOC)).
Proof.
  unfold on_probed.
  destruct (decide (generation entry = g)) as [<-|Hne].
  - destruct (verifier st !! generation entry) as [[| |]|] eqn:Hst;
      destruct (component entry); simpl; try discriminate; intros _;
      rewrite ?lookup_insert_eq, ?Hst;
      split; split; intros H; try tauto; try congruence;
      repeat match goal with
             | H : _ \/ _ |- _ => destruct H
             | H : _ /\ _ |- _ => destruct H
             end; try congruence; try tauto;
      try (left; split; [congruence|intros [_ ?]; congruence]).
  - intros _.
    assert (verifier (if is_TemporaryStatistics (component entry)
                      then (st, [remove_temporary_statistics (generation entry)],
                            @None exn)
                      else _).1.1 !! g = verifier st !! g) as ->.
    { destruct (verifier st !! generation entry) as [[| |]|];
        destruct (component entry); simpl;
        rewrite ?lookup_insert_ne by assumption; reflexivity. }
    split; split; intros H; tauto.
Qed.

(** One successful probe, with or without an error: the generation is
    recorded afterwards exactly if it was before or the file counts for it. *)
Lemma on_probed_is_Some (st : scan_state) (entry : entry_descriptor) (g : N) :
  is_Some (verifier (on_probed st entry).1.1 !! g) <->
  is_Some (verifier st !! g) \/
  (generation entry = g /\ is_TemporaryStatistics (component entry) = false).
Proof.
  unfold on_probed.
  destruct (decide (generation entry = g)) as [<-|Hne].
  - destruct (verifier st !! generation entry) as [[| |]|] eqn:Hst;
      destruct (component entry); simpl;
      rewrite ?lookup_insert_eq, ?Hst; split; intros H; eauto;
      destruct H as [H|[_ H]]; try discriminate; try exact H;
      destruct H; discriminate.
  - assert (verifier (if is_TemporaryStatistics (component entry)
                      then (st, [remove_temporary_statistics (generation entry)],
                            @None exn)
                      else _).1.1 !! g = verifier st !! g) as ->.
    { destruct (verifier st !! generation entry) as [[| |]|];
        destruct (component entry); simpl;
        rewrite ?lookup_insert_ne by assumption; reflexivity. }
    split; [auto|]. intros [H|[H _]]; [exact H|contradiction].
Qed.

(** A probe of the TOC or of the temporary TOC of a generation that is
    valid already raises an error. *)
Lemma on_probed_after_toc (st : scan_state) (entry : entry_descriptor) :
  verifier st !! generation entry = Some has_toc_file ->
  (on_probed st entry).2 = None ->
  component entry <> TOC /\ component entry <> TemporaryTOC.
Proof.
  unfold on_probed. intros ->.
  destruct (component entry); simpl; intros H; try discriminate;
    split; discriminate.
Qed.

Lemma seen_cons_ok (c : component_type) (g : N) (e : entry_descriptor)
    (rest : list probed) :
  seen c g (probe_ok e :: rest) = true <->
  (generation e = g /\ component e = c) \/ seen c g rest = true.
Proof.
  simpl. rewrite orb_true_iff, andb_true_iff, N.eqb_eq, component_eqb_eq.
  reflexivity.
Qed.

Lemma first_exception_None (a b : option exn) :
  first_exception a b = None -> a = None /\ b = None.
Proof. destruct a; simpl; [discriminate|auto]. Qed.

(** Nothing more of a valid generation's TOCs is seen by a scan that goes
    through. *)
Lemma scan_after_toc (entries : list probed) (g : N) :
  forall st, (scan entries st).2 = None ->
  verifier st !! g = Some has_toc_file ->
  seen TOC g entries = false /\ seen TemporaryTOC g entries = false.
Proof.
  induction entries as [|[e|x] rest IH]; intros st Herr Hst.
  - split; reflexivity.
  - simpl in Herr.
    destruct (on_probed st e) as [[st1 acts1] err1] eqn:Hp.
    destruct (scan rest st1) as [[st' acts] err] eqn:Hs. simpl in Herr.
    apply first_exception_None in Herr as [-> ->].
    assert (H1 : (on_probed st e).2 = None) by (rewrite Hp; reflexivity).
    destruct (on_probed_has_toc st e g H1) as [Htoc _].
    rewrite Hp in Htoc. simpl in Htoc.
    destruct (IH st1) as [IH1 IH2]; [rewrite Hs; reflexivity|tauto|].
    assert (Hno : ~ (generation e = g /\ component e = TOC) /\
                  ~ (generation e = g /\ component e = TemporaryTOC)).
    { split; intros [Hg Hc]; subst g;
        destruct (on_probed_after_toc st e Hst H1); contradiction. }
    split; apply not_true_is_false; rewrite seen_cons_ok;
      intros [H|H]; try tauto; congruence.
  - simpl in Herr.
    destruct (scan rest st) as [[st' acts] err]. discriminate.
Qed.

(** The state of a generation after a scan without error, from any state. *)
Lemma scan_status_from (entries : list probed) (g : N) :
  forall st, (scan entries st).2 = None ->
  (verifier (scan entries st).1.1 !! g = Some has_toc_file <->
   verifier st !! g = Some has_toc_file \/ seen TOC g entries = true) /\
  (verifier (scan entries st).1.1 !! g = Some has_temporary_toc_file <->
   (verifier st !! g = Some has_temporary_toc_file \/
    seen TemporaryTOC g entries = true) /\ seen TOC g entries = false).
Proof.
  induction entries as [|[e|x] rest IH]; intros st Herr.
  - simpl. split; split; try tauto.
    + intros [H|H]; [exact H|discriminate].
    + intros [[H|H] _]; [exact H|discriminate].
  - pose proof (scan_after_toc rest g) as Hafter.
    simpl in Herr |- *.
    destruct (on_probed st e) as [[st1 acts1] err1] eqn:Hp.
    destruct (scan rest st1) as [[st' acts] err] eqn:Hs. simpl in Herr |- *.
    apply first_exception_None in Herr as [-> ->].
    assert (H1 : (on_probed st e).2 = None) by (rewrite Hp; reflexivity).
    destruct (on_probed_has_toc st e g H1) as [Htoc Htmp].
    rewrite Hp in Htoc, Htmp. simpl in Htoc, Htmp.
    specialize (IH st1). rewrite Hs in IH. simpl in IH.
    destruct (IH eq_refl) as [IH1 IH2].
    specialize (Hafter st1). rewrite Hs in Hafter. simpl in Hafter.
    specialize (Hafter eq_refl).
    pose proof (seen_cons_ok TOC g e rest) as Hc1.
    pose proof (seen_cons_ok TemporaryTOC g e rest) as Hc2.
    simpl in Hc1, Hc2.
    assert (Hx : ~ (component e = TOC /\ component e = TemporaryTOC))
      by (intros [Ha Hb]; congruence).
    destruct ((generation e =? g)%N && component_eqb (component e) TOC
              || seen TOC g rest) eqn:E1;
      destruct ((generation e =? g)%N && component_eqb (component e) TemporaryTOC
                || seen TemporaryTOC g rest) eqn:E2;
      destruct (seen TOC g rest) eqn:E3;
      destruct (seen TemporaryTOC g rest) eqn:E4;
      split; split; intros H;
      try (intuition congruence).
  - simpl in Herr.
    destruct (scan rest st) as [[st' acts] err]. discriminate.
Qed.

Lemma scan_is_Some (entries : list probed) (g : N) :
  forall st,
  is_Some (verifier (scan entries st).1.1 !! g) <->
  is_Some (verifier st !! g) \/ seen_any g entries = true.
Proof.
  induction entries as [|[e|x] rest IH]; intros st.
  - simpl. split; [auto|]. intros [H|H]; [exact H|discriminate].
  - pose proof (on_probed_is_Some st e g) as Hp1.
    simpl. destruct (on_probed st e) as [[st1 acts1] err1].
    specialize (IH st1).
    destruct (scan rest st1) as [[st' acts] err]. simpl in *.
    rewrite IH, Hp1, orb_true_iff, andb_true_iff, N.eqb_eq, negb_true_iff.
    tauto.
  - simpl. specialize (IH st).
    destruct (scan rest st) as [[st' acts] err]. simpl in *. exact IH.
Qed.

(** X17.  After a scan of the directory that raised no error, the state of
    each generation is told by the files that were seen: it is valid (has
    its TOC) exactly if its TOC was seen; it is partial (temporary TOC)
    exactly if its temporary TOC was seen and its TOC was not; it is broken
    (some file only) exactly if a file of it other than TemporaryStatistics
    was seen, but neither TOC. *)
Theorem scan_status_of_generation (entries : list probed) (st : scan_state)
    (acts : list fs_action) (g : N) :
  scan entries scan_start = (st, acts, None) ->
  (verifier st !! g = Some has_toc_file <-> seen TOC g entries = true) /\
  (verifier st !! g = Some has_temporary_toc_file <->
   seen TemporaryTOC g entries = true /\ seen TOC g entries = false) /\
  (verifier st !! g = Some has_some_file <->
   seen_any g entries = true /\ seen TOC g entries = false /\
   seen TemporaryTOC g entries = false).
Proof.
  intros Hscan.
  assert (Herr : (scan entries scan_start).2 = None) by (rewrite Hscan; reflexivity).
  destruct (scan_status_from entries g scan_start Herr) as [H1 H2].
  pose proof (scan_is_Some entries g scan_start) as H3.
  rewrite Hscan in H1, H2, H3. simpl in H1, H2, H3.
  rewrite lookup_empty in H1, H2, H3.
  assert (Hn : ~ is_Some (@None status)) by (intros [? ?]; discriminate).
  destruct (verifier st !! g) as [[| |]|] eqn:Hst.
  - assert (Hany : seen_any g entries = true)
      by (destruct H3 as [H3 _]; destruct H3; eauto; contradiction).
    destruct (seen TOC g entries); destruct (seen TemporaryTOC g entries);
      split; [|split| |split| |split| |split]; split; intros H;
      try (intuition congruence).
  - destruct (seen TOC g entries); destruct (seen TemporaryTOC g entries);
      split; [|split| |split| |split| |split]; split; intros H;
      try (intuition congruence).
  - destruct (seen TOC g entries); destruct (seen TemporaryTOC g entries);
      split; [|split| |split| |split| |split]; split; intros H;
      try (intuition congruence).
  - assert (Hany : seen_any g entries = false).
    { apply not_true_is_false. intros Hany. apply Hn, H3. right. exact Hany. }
    destruct (seen TOC g entries); destruct (seen TemporaryTOC g entries);
      split; [|split| |split| |split| |split]; split; intros H;
      try (intuition congruence).
Qed.

Lemma scan_status_of_generation_witness :
  verifier (scan dir_toc_after_temporary scan_start).1.1 !! 4%N
    = Some has_toc_file.
Proof.
  destruct (scan_status_of_generation dir_toc_after_temporary
              (scan dir_toc_after_temporary scan_start).1.1
              (scan dir_toc_after_temporary scan_start).1.2 4%N)
    as ((_ & H) & _).
  - vm_compute. reflexivity.
  - apply H. vm_compute. reflexivity.
Defined.

(** X18.  The scan removes the TemporaryStatistics file of exactly the
    generations of which it has seen one, whatever else it finds. *)
Theorem temporary_statistics_are_removed (entries : list probed)
    (st : scan_state) (a : fs_action) :
  a ∈ (scan entries st).1.2 <->
  exists g, a = remove_temporary_statistics g /\
            seen TemporaryStatistics g entries = true.
Proof.
  revert st. induction entries as [|[e|x] rest IH]; intros st.
  - simpl. split; [intros H; inversion H|intros (g & _ & H); discriminate].
  - simpl.
    assert (Hp : forall b, b ∈ (on_probed st e).1.2 <->
                 component e = TemporaryStatistics /\
                 b = remove_temporary_statistics (generation e)).
    { intros b. unfold on_probed.
      destruct (verifier st !! generation e) as [[| |]|];
        destruct (component e); simpl; split;
        try (intros H; inversion H; fail);
        try (intros [H _]; discriminate).
      all: try (intros H; apply list_elem_of_singleton in H; auto).
      all: intros [_ ->]; apply list_elem_of_singleton; reflexivity. }
    destruct (on_probed st e) as [[st1 acts1] err1].
    specialize (IH st1).
    destruct (scan rest st1) as [[st' acts] err]. simpl in *.
    rewrite elem_of_app, IH, Hp. split.
    + intros [[Hc ->]|(g & -> & Hs)].
      * exists (generation e). split; [reflexivity|].
        rewrite Hc, N.eqb_refl. reflexivity.
      * exists g. split; [reflexivity|]. rewrite Hs. apply orb_true_r.
    + intros (g & -> & Hs).
      apply orb_true_iff in Hs as [Hs|Hs].
      * apply andb_true_iff in Hs as [Hg Hc].
        apply N.eqb_eq in Hg. apply component_eqb_eq in Hc. subst g.
        left. auto.
      * right. exists g. auto.
  - simpl. specialize (IH st).
    destruct (scan rest st) as [[st' acts] err]. simpl in *. exact IH.
Qed.

End scan_facts_properties.

(** ** Renumbering of new sstables *)

Section reshuffle_properties.
Import populate reshuffle.

Lemma map_emplace_keys {V : Type} (k : N) (v : V) (m : list (N * V)) (k' : N) :
  k' ∈ map fst (map_emplace k v m) <-> k' = k \/ k' ∈ map fst m.
Proof.
  induction m as [|[k0 v0] rest IH]; simpl.
  - rewrite list_elem_of_singleton. split; [auto|].
    intros [H|H]; [exact H|inversion H].
  - destruct (N.ltb_spec k k0) as [Hlt|Hge].
    + simpl. rewrite !elem_of_cons. tauto.
    + destruct (N.eqb_spec k k0) as [->|Hne]; simpl.
      * rewrite !elem_of_cons. tauto.
      * rewrite !elem_of_cons, IH. tauto.
Qed.

Lemma map_emplace_ascending {V : Type} (k : N) (v : V) (m : list (N * V)) :
  ascending (map fst m) -> ascending (map fst (map_emplace k v m)).
Proof.
  induction m as [|[k0 v0] rest IH]; simpl.
  - intros _. split; [constructor|exact I].
  - intros [Hall Hasc].
    destruct (N.ltb_spec k k0) as [Hlt|Hge].
    + simpl. split; [|split; assumption].
      constructor; [exact Hlt|].
      eapply Forall_impl; [exact Hall|]. intros x Hx. simpl in Hx. lia.
    + destruct (N.eqb_spec k k0) as [->|Hne]; simpl.
      * split; assumption.
      * split; [|apply IH, Hasc].
        apply Forall_forall. intros x Hx.
        apply map_emplace_keys in Hx as [->|Hx]; [lia|].
        rewrite Forall_forall in Hall. apply Hall, Hx.
Qed.

Lemma collect_spec (all_generations : gset N) (entries : list entry_descriptor) :
  ascending (map fst (collect all_generations entries)) /\
  (forall g, g ∈ map fst (collect all_generations entries) <->
             found all_generations entries g) /\
  (forall g comps, (g, comps) ∈ collect all_generations entries ->
                   component comps = TOC).
Proof.
  unfold collect, found.
  assert (Hgen : forall work,
    ascending (map fst work) ->
    (forall g comps, (g, comps) ∈ work -> component comps = TOC) ->
    let r := fold_left
      (fun work comps =>
         if negb (is_TOC (component comps)) then work
         else if bool_decide (generation comps ∈ all_generations) then work
         else map_emplace (generation comps) comps work) entries work in
    ascending (map fst r) /\
    (forall g, g ∈ map fst r <->
       g ∈ map fst work \/
       exists e, e ∈ entries /\ component e = TOC /\ generation e = g /\
                 g ∉ all_generations) /\
    (forall g comps, (g, comps) ∈ r -> component comps = TOC)).
  { induction entries as [|e rest IH]; intros work Hasc Htoc; simpl.
    - split; [exact Hasc|]. split; [|exact Htoc].
      intros g. split; [auto|]. intros [H|(e & He & _)]; [exact H|inversion He].
    - destruct (component e) eqn:Hc; simpl;
        try (destruct (IH work Hasc Htoc) as (H1 & H2 & H3);
             split; [exact H1|]; split; [|exact H3];
             intros g; rewrite H2; split;
             [ intros [H|(e0 & He0 & Ht)];
               [left; exact H|right; exists e0; rewrite elem_of_cons; auto]
             | intros [H|(e0 & He0 & Ht & Hg & Hn)]; [left; exact H|];
               apply elem_of_cons in He0 as [->|He0]; [congruence|];
               right; exists e0; auto ]; fail).
      destruct (bool_decide_reflect (generation e ∈ all_generations)) as [Hin|Hnin].
      + destruct (IH work Hasc Htoc) as (H1 & H2 & H3).
        split; [exact H1|]. split; [|exact H3].
        intros g. rewrite H2. split.
        * intros [H|(e0 & He0 & Ht)];
            [left; exact H|right; exists e0; rewrite elem_of_cons; auto].
        * intros [H|(e0 & He0 & Ht & Hg & Hn)]; [left; exact H|].
          apply elem_of_cons in He0 as [->|He0]; [subst g; contradiction|].
          right. exists e0. auto.
      + destruct (IH (map_emplace (generation e) e work)) as (H1 & H2 & H3).
        * apply map_emplace_ascending, Hasc.
        * clear IH. intros g comps Hin.
          revert Hin. induction work as [|[k0 v0] w IHw]; simpl.
          -- intros Hin. apply list_elem_of_singleton in Hin.
             inversion Hin; subst. exact Hc.
          -- destruct (N.ltb_spec (generation e) k0).
             ++ intros Hin. apply elem_of_cons in Hin as [Hin|Hin].
                ** inversion Hin; subst. exact Hc.
                ** eapply Htoc, Hin.
             ++ destruct (N.eqb_spec (generation e) k0).
                ** intros Hin. eapply Htoc, Hin.
                ** intros Hin. apply elem_of_cons in Hin as [Hin|Hin].
                   --- inversion Hin; subst. eapply Htoc. left.
                   --- apply IHw; [apply Hasc| |exact Hin].
                       intros g' c' Hin'. eapply Htoc. right. exact Hin'.
        * split; [exact H1|]. split; [|exact H3].
          intros g. rewrite H2, map_emplace_keys. split.
          -- intros [[->|H]|(e0 & He0 & Ht)].
             ++ right. exists e. rewrite elem_of_cons. auto.
             ++ left. exact H.
             ++ right. exists e0. rewrite elem_of_cons. auto.
          -- intros [H|(e0 & He0 & Ht & Hg & Hn)]; [auto|].
             apply elem_of_cons in He0 as [->|He0]; [auto|].
             right. exists e0. auto. }
  destruct (Hgen [] I) as (H1 & H2 & H3).
  - intros g comps Hin. inversion Hin.
  - split; [exact H1|]. split; [|exact H3].
    intros g. rewrite H2. split; [|auto].
    intros [H|H]; [inversion H|exact H].
Qed.

Lemma renumber_spec (work : list (N * entry_descriptor)) :
  forall current_gen,
  length (renumber current_gen work).1 = length work /\
  (forall i e, (renumber current_gen work).1 !! i = Some e ->
     exists old comps, work !! i = Some (old, comps) /\
       e = with_generation comps (current_gen + N.of_nat i)) /\
  (forall old new, (old, new) ∈ (renumber current_gen work).2 <->
     exists i, map fst work !! i = Some old /\
               new = (current_gen + N.of_nat i)%N /\ old <> new).
Proof.
  induction work as [|[k0 c0] rest IH]; intros c; simpl.
  - split; [reflexivity|]. split.
    + intros i e H. rewrite lookup_nil in H. discriminate.
    + intros old new. split; [intros H; inversion H|].
      intros (i & H & _). rewrite lookup_nil in H. discriminate.
  - destruct (IH (c + 1)%N) as (H1 & H2 & H3).
    destruct (renumber (c + 1) rest) as [reshuffled renamed]. simpl in *.
    split; [congruence|]. split.
    + intros [|i] e He; simpl in He.
      * inversion He; subst. exists k0, c0. split; [reflexivity|].
        f_equal. simpl. lia.
      * destruct (H2 i e He) as (old & comps & Hw & ->).
        exists old, comps. split; [exact Hw|]. f_equal. lia.
    + intros old new.
      assert (Hrest : (old, new) ∈ renamed <->
                exists i, map fst ((k0, c0) :: rest) !! (S i) = Some old /\
                          new = (c + N.of_nat (S i))%N /\ old <> new).
      { rewrite H3. split; intros (i & Hi & -> & Hne); exists i; simpl;
          (split; [exact Hi|split; [lia|lia]]). }
      destruct (N.eqb_spec k0 c) as [->|Hne].
      * rewrite Hrest. split.
        -- intros (i & H). exists (S i). exact H.
        -- intros ([|i] & Hi & -> & Hne); [|exists i; auto].
           simpl in Hi. inversion Hi; subst. exfalso. apply Hne. lia.
      * rewrite elem_of_cons, Hrest. split.
        -- intros [Heq|(i & H)]; [|exists (S i); exact H].
           inversion Heq; subst. exists 0%nat. simpl.
           split; [reflexivity|]. split; lia.
        -- intros ([|i] & Hi & -> & Hne'); [|right; exists i; auto].
           simpl in Hi. inversion Hi; subst. left. f_equal. lia.
Qed.

Lemma ascending_above (keys : list N) :
  forall c, ascending keys -> Forall (N.le c) keys ->
  forall i k, keys !! i = Some k -> (c + N.of_nat i <= k)%N.
Proof.
  induction keys as [|k0 rest IH]; intros c Hasc Hle i k Hi.
  - rewrite lookup_nil in Hi. discriminate.
  - destruct Hasc as [Hall Hasc]. inversion Hle as [|? ? Hc Hle']; subst.
    destruct i as [|i]; simpl in Hi.
    + inversion Hi; subst. lia.
    + assert (H : (c + 1 + N.of_nat i <= k)%N).
      { apply (IH (c + 1)%N); [exact Hasc| |exact Hi].
        eapply Forall_impl; [exact Hall|]. intros x Hx. simpl in Hx. lia. }
      lia.
Qed.

(** X19.  [reshuffle_sstables] renumbers the new sstables without gaps and
    in their old order: there is an ascending list of the generations found
    (those with a TOC file that are not loaded yet, each once), the i-th
    result is a TOC descriptor of generation [first + i], where [first] is
    [start], or 1 if [start] is 0, and the i-th generation found is renamed
    to [first + i] unless it has that generation already. *)
Theorem reshuffle_sstables_renumbers (all_generations : gset N) (start : N)
    (entries : list entry_descriptor) :
  exists olds : list N,
    ascending olds /\
    (forall g, g ∈ olds <-> found all_generations entries g) /\
    length (reshuffle_sstables all_generations start entries).1 = length olds /\
    (forall i e, (reshuffle_sstables all_generations start entries).1 !! i = Some e ->
       generation e = (first_generation start + N.of_nat i)%N /\
       component e = TOC) /\
    (forall old new,
       (old, new) ∈ (reshuffle_sstables all_generations start entries).2 <->
       exists i, olds !! i = Some old /\
                 new = (first_generation start + N.of_nat i)%N /\ old <> new).
Proof.
  unfold reshuffle_sstables.
  destruct (collect_spec all_generations entries) as (Hasc & Hkeys & Htoc).
  destruct (renumber_spec (collect all_generations entries)
              (first_generation start)) as (Hlen & Hres & Hren).
  exists (map fst (collect all_generations entries)).
  split; [exact Hasc|]. split; [exact Hkeys|].
  split; [rewrite length_map; exact Hlen|]. split; [|exact Hren].
  intros i e He. destruct (Hres i e He) as (old & comps & Hw & ->).
  split; [reflexivity|]. simpl.
  eapply Htoc, list_elem_of_lookup_2, Hw.
Qed.

(** X20.  When no sstable found has a generation below the first new one,
    a rename only ever lowers a generation, and its target is below the
    generation of every sstable found that is not older: it never lands on a
    file that is still to be renamed. *)
Theorem reshuffle_sstables_renames_downwards (all_generations : gset N)
    (start : N) (entries : list entry_descriptor) :
  (forall g, found all_generations entries g ->
             (first_generation start <= g)%N) ->
  forall old new,
    (old, new) ∈ (reshuffle_sstables all_generations start entries).2 ->
    (new < old)%N /\
    (forall g, found all_generations entries g -> (old <= g)%N -> (new < g)%N).
Proof.
  intros Hlow old new Hin.
  unfold reshuffle_sstables in Hin.
  destruct (collect_spec all_generations entries) as (Hasc & Hkeys & _).
  destruct (renumber_spec (collect all_generations entries)
              (first_generation start)) as (_ & _ & Hren).
  apply Hren in Hin as (i & Hi & -> & Hne).
  assert (Hle : (first_generation start + N.of_nat i <= old)%N).
  { eapply ascending_above; [exact Hasc| |exact Hi].
    apply Forall_forall. intros x Hx. apply Hlow, Hkeys, Hx. }
  split; [lia|]. intros g Hg Hge. lia.
Qed.

Lemma reshuffle_sstables_renames_downwards_witness :
  (5 < 9)%N /\
  (forall g, found {[ 2%N ]} upload_dir g -> (9 <= g)%N -> (5 < g)%N).
Proof.
  apply (reshuffle_sstables_renames_downwards {[ 2%N ]} 3 upload_dir).
  - intros g (e & He & Hc & Hg & Hn). subst g.
    unfold upload_dir in He. rewrite !elem_of_cons in He.
    destruct He as [->|[->|[->|[->|[->|[->|He]]]]]]; simpl in *;
      try discriminate; try (unfold first_generation; simpl; lia).
    + exfalso. apply Hn. apply elem_of_singleton. reflexivity.
    + inversion He.
  - vm_compute. repeat constructor.
Defined.

End reshuffle_properties.

(** ** Token ranges of an endpoint *)

Section replication_strategy_properties.
Import sstable_filter replication_strategy.

Variable calculate_natural_endpoints : token -> list inet_address.

Lemma insert_elem (p t : token) (ret : list token_range) (r : token_range) :
  r ∈ insert_token_range_to_sorted_container_while_unwrapping p t ret <->
  r ∈ ret \/ r ∈ insert_token_range_to_sorted_container_while_unwrapping p t [].
Proof.
  unfold insert_token_range_to_sorted_container_while_unwrapping.
  destruct (p <? t)%Z; simpl.
  - rewrite elem_of_app. tauto.
  - rewrite !elem_of_cons, elem_of_app, !list_elem_of_singleton, elem_of_nil. tauto.
Qed.

Lemma for_each_token_elem (select : token -> bool) (tokens : list token) :
  forall prev ret r,
  r ∈ for_each_token select prev tokens ret <->
  r ∈ ret \/
  exists p t, (p, t) ∈ steps prev tokens /\ select t = true /\
    r ∈ insert_token_range_to_sorted_container_while_unwrapping p t [].
Proof.
  induction tokens as [|tok rest IH]; intros prev ret r; simpl.
  - split; [auto|]. intros [H|(p & t & H & _)]; [exact H|inversion H].
  - rewrite IH. destruct (select tok) eqn:Hsel.
    + rewrite insert_elem. split.
      * intros [[H|H]|(p & t & Hin & Hs & Hr)].
        -- left. exact H.
        -- right. exists prev, tok. rewrite elem_of_cons. auto.
        -- right. exists p, t. rewrite elem_of_cons. auto.
      * intros [H|(p & t & Hin & Hs & Hr)]; [auto|].
        apply elem_of_cons in Hin as [Heq|Hin].
        -- inversion Heq; subst. auto.
        -- right. exists p, t. auto.
    + split.
      * intros [H|(p & t & Hin & Hs & Hr)]; [auto|].
        right. exists p, t. rewrite elem_of_cons. auto.
      * intros [H|(p & t & Hin & Hs & Hr)]; [auto|].
        apply elem_of_cons in Hin as [Heq|Hin].
        -- inversion Heq; subst. congruence.
        -- right. exists p, t. auto.
Qed.

Lemma covers_spec (ranges : list token_range) (x : token) :
  covers ranges x = true <-> exists r, r ∈ ranges /\ contains r x = true.
Proof.
  unfold covers. rewrite existsb_exists. split; intros (r & Hin & Hc);
    exists r; (split; [|exact Hc]);
    [apply list_elem_of_In|apply list_elem_of_In]; exact Hin.
Qed.

(** The tokens that the ranges inserted for one step contain. *)
Lemma step_contains (p t x : token) :
  (exists r, r ∈ insert_token_range_to_sorted_container_while_unwrapping p t []
             /\ contains r x = true) <->
  ((p < t /\ p < x <= t) \/ (t <= p /\ (x <= t \/ p < x)))%Z.
Proof.
  unfold insert_token_range_to_sorted_container_while_unwrapping.
  destruct (Z.ltb_spec p t) as [Hlt|Hge]; simpl.
  - split.
    + intros (r & Hin & Hc). apply list_elem_of_singleton in Hin. subst r.
      unfold contains in Hc. simpl in Hc.
      apply andb_true_iff in Hc as [H1 H2]. lia.
    + intros [[_ H]|[H _]]; [|lia].
      eexists. split; [apply list_elem_of_singleton; reflexivity|].
      unfold contains. simpl. apply andb_true_iff. lia.
  - split.
    + intros (r & Hin & Hc).
      rewrite elem_of_cons, list_elem_of_singleton in Hin.
      destruct Hin as [->| ->]; unfold contains in Hc; simpl in Hc;
        right; (split; [lia|]).
      * left. lia.
      * right. apply andb_true_iff in Hc as [H1 _]. lia.
    + intros [[H _]|[_ [H|H]]]; [lia| |].
      * eexists. split; [left|]. unfold contains. simpl. lia.
      * eexists. split; [right; left|]. unfold contains. simpl.
        apply andb_true_iff. split; [lia|reflexivity].
Qed.

Lemma steps_chain (rest : list token) :
  forall a x t, strictly_ascending (a :: rest) ->
  ((exists p, (p, t) ∈ steps a rest /\ p < x <= t) <->
   (t ∈ rest /\ a < x <= t /\ forall t', t' ∈ rest -> x <= t' -> t <= t'))%Z.
Proof.
  induction rest as [|c rest IH]; intros a x t Hasc.
  - simpl. split.
    + intros (p & H & _). inversion H.
    + intros (H & _). inversion H.
  - destruct Hasc as [Ha Hasc]. simpl.
    inversion Ha as [|? ? Hac Ha']; subst.
    pose proof Hasc as [Hc _]. rewrite Forall_forall in Hc.
    specialize (IH c x t Hasc). split.
    + intros (p & Hin & Hx). apply elem_of_cons in Hin as [Heq|Hin].
      * inversion Heq; subst. split; [left|]. split; [lia|].
        intros t' Ht' Hxt'. apply elem_of_cons in Ht' as [->|Ht']; [lia|].
        specialize (Hc t' Ht'). lia.
      * destruct IH as [IH _].
        destruct IH as (Ht & Hcx & Hmin); [exists p; auto|].
        split; [right; exact Ht|]. split; [lia|].
        intros t' Ht' Hxt'. apply elem_of_cons in Ht' as [->|Ht']; [lia|].
        apply Hmin; assumption.
    + intros (Ht & Hx & Hmin).
      destruct (Z.le_gt_cases x c) as [Hxc|Hcx].
      * assert (t = c).
        { assert (t <= c)%Z by (apply Hmin; [left|exact Hxc]).
          apply elem_of_cons in Ht as [->|Ht]; [reflexivity|].
          specialize (Hc t Ht). lia. }
        subst t. exists a. split; [left|lia].
      * destruct IH as [_ IH]. destruct IH as (p & Hin & Hp).
        -- apply elem_of_cons in Ht as [->|Ht]; [lia|].
           split; [exact Ht|]. split; [lia|].
           intros t' Ht' Hxt'. apply Hmin; [right; exact Ht'|exact Hxt'].
        -- exists p. split; [right; exact Hin|exact Hp].
Qed.

Lemma steps_lt (rest : list token) :
  forall a p t, strictly_ascending (a :: rest) -> (p, t) ∈ steps a rest ->
  (p < t)%Z.
Proof.
  induction rest as [|c rest IH]; intros a p t [Ha Hasc] Hin; simpl in Hin.
  - inversion Hin.
  - inversion Ha; subst.
    apply elem_of_cons in Hin as [Heq|Hin]; [inversion Heq; subst; assumption|].
    eapply IH; eassumption.
Qed.

Lemma last_is_greatest (rest : list token) :
  forall a b, strictly_ascending (a :: rest) -> last (a :: rest) = Some b ->
  b ∈ a :: rest /\ forall t', t' ∈ a :: rest -> (t' <= b)%Z.
Proof.
  induction rest as [|c rest IH]; intros a b [Ha Hasc] Hlast.
  - simpl in Hlast. inversion Hlast; subst. split; [left|].
    intros t' Ht'. apply list_elem_of_singleton in Ht'. lia.
  - inversion Ha; subst.
    change (last (a :: c :: rest)) with (last (c :: rest)) in Hlast.
    destruct (IH c b Hasc Hlast) as [Hb Hmax].
    split; [right; exact Hb|].
    intros t' Ht'. apply elem_of_cons in Ht' as [->|Ht']; [|auto].
    specialize (Hmax c). assert (c <= b)%Z by (apply Hmax; left). lia.
Qed.

(** The steps of the loop and the ring: the ranges inserted at a token's
    step contain exactly the values that the token owns. *)
Lemma steps_ring_owner (tokens : list token) (back x t : token) :
  strictly_ascending tokens -> last tokens = Some back ->
  (exists p r, (p, t) ∈ steps back tokens /\
     r ∈ insert_token_range_to_sorted_container_while_unwrapping p t [] /\
     contains r x = true) <->
  ring_owner tokens x t.
Proof.
  intros Hasc Hlast.
  destruct tokens as [|t0 rest]; [discriminate|].
  destruct (last_is_greatest rest t0 back Hasc Hlast) as [Hback Hmax].
  pose proof Hasc as [Hmin0 _]. rewrite Forall_forall in Hmin0.
  assert (Hmin : forall t', t' ∈ t0 :: rest -> (t0 <= t')%Z).
  { intros t' Ht'. apply elem_of_cons in Ht' as [->|Ht']; [lia|].
    specialize (Hmin0 t' Ht'). lia. }
  pose proof (steps_chain rest t0 x t Hasc) as Hchain.
  assert (Hstep : (exists p r, (p, t) ∈ steps back (t0 :: rest) /\
     r ∈ insert_token_range_to_sorted_container_while_unwrapping p t [] /\
     contains r x = true) <->
     ((t = t0 /\ (x <= t0 \/ back < x)) \/
      exists p, (p, t) ∈ steps t0 rest /\ p < x <= t)%Z).
  { simpl. split.
    - intros (p & r & Hin & Hr & Hc).
      assert (Hs : ((p < t /\ p < x <= t) \/ (t <= p /\ (x <= t \/ p < x)))%Z)
        by (apply step_contains; exists r; auto).
      apply elem_of_cons in Hin as [Heq|Hin].
      + inversion Heq; subst. left. split; [reflexivity|].
        assert (t0 <= back)%Z by (apply Hmin, Hback). lia.
      + right. exists p. split; [exact Hin|].
        pose proof (steps_lt rest t0 p t Hasc Hin). lia.
    - intros [[-> Hx]|(p & Hin & Hx)].
      + assert (t0 <= back)%Z by (apply Hmin, Hback).
        destruct (step_contains back t0 x) as [_ Hs].
        destruct Hs as (r & Hr & Hc); [right; split; [lia|exact Hx]|].
        exists back, r. split; [left|auto].
      + destruct (step_contains p t x) as [_ Hs].
        destruct Hs as (r & Hr & Hc); [left; lia|].
        exists p, r. split; [right; exact Hin|auto]. }
  rewrite Hstep, Hchain. unfold ring_owner. split.
  - intros [[-> Hx]|(Ht & Hx & Hmin')].
    + split; [left|]. destruct Hx as [Hx|Hx].
      * left. split; [exact Hx|]. intros t' Ht' _. apply Hmin, Ht'.
      * right. split; [|exact Hmin].
        intros t' Ht'. specialize (Hmax t' Ht'). lia.
    + split; [right; exact Ht|]. left. split; [lia|].
      intros t' Ht' Hxt'. apply elem_of_cons in Ht' as [->|Ht']; [lia|].
      apply Hmin'; assumption.
  - intros [Ht [[Hx Hmin']|[Hall Hmin']]].
    + destruct (Z.le_gt_cases x t0) as [Hx0|Hx0].
      * left. assert (t <= t0)%Z by (apply Hmin'; [left|exact Hx0]).
        specialize (Hmin t Ht). split; [lia|auto].
      * right. split; [|split; [lia|]].
        -- apply elem_of_cons in Ht as [->|Ht]; [lia|exact Ht].
        -- intros t' Ht' Hxt'. apply Hmin'; [right; exact Ht'|exact Hxt'].
    + left. assert (t <= t0)%Z by (apply Hmin'; left).
      specialize (Hmin t Ht). split; [lia|].
      right. specialize (Hall back Hback). lia.
Qed.

Lemma ring_owner_unique (tokens : list token) (x t1 t2 : token) :
  ring_owner tokens x t1 -> ring_owner tokens x t2 -> t1 = t2.
Proof.
  intros [H1 [[Hx1 Hm1]|[Ha1 Hm1]]] [H2 [[Hx2 Hm2]|[Ha2 Hm2]]].
  - specialize (Hm1 t2 H2 Hx2). specialize (Hm2 t1 H1 Hx1). lia.
  - specialize (Ha2 t1 H1). lia.
  - specialize (Ha1 t2 H2). lia.
  - specialize (Hm1 t2 H2). specialize (Hm2 t1 H1). lia.
Qed.

Lemma ring_owner_exists (tokens : list token) (x : token) :
  tokens <> [] -> exists t, ring_owner tokens x t.
Proof.
  intros Hne.
  assert (Hleast : forall l : list token, l <> [] ->
            exists m, m ∈ l /\ forall t', t' ∈ l -> (m <= t')%Z).
  { induction l as [|a l IHl]; [congruence|]. intros _.
    destruct l as [|b l].
    - exists a. split; [left|]. intros t' Ht'.
      apply list_elem_of_singleton in Ht'. lia.
    - destruct IHl as (m & Hm & Hmin); [discriminate|].
      destruct (Z.le_gt_cases a m).
      + exists a. split; [left|]. intros t' Ht'.
        apply elem_of_cons in Ht' as [->|Ht']; [lia|].
        specialize (Hmin t' Ht'). lia.
      + exists m. split; [right; exact Hm|]. intros t' Ht'.
        apply elem_of_cons in Ht' as [->|Ht']; [lia|auto]. }
  destruct (filter (fun t => bool_decide (x <= t)%Z) tokens) as [|a l] eqn:Hf.
  - destruct (Hleast tokens Hne) as (m & Hm & Hmin).
    exists m. split; [exact Hm|]. right. split; [|exact Hmin].
    intros t' Ht'. destruct (Z.lt_ge_cases t' x) as [Hlt|Hge]; [exact Hlt|].
    assert (Hin : t' ∈ filter (fun t => bool_decide (x <= t)%Z) tokens).
    { apply list_elem_of_filter. split; [apply bool_decide_pack; exact Hge|exact Ht']. }
    rewrite Hf in Hin. inversion Hin.
  - destruct (Hleast (a :: l)) as (m & Hm & Hmin); [discriminate|].
    rewrite <- Hf in Hm, Hmin.
    exists m. apply list_elem_of_filter in Hm as [Hxm Hm].
    apply bool_decide_unpack in Hxm.
    split; [exact Hm|]. left. split; [exact Hxm|].
    intros t' Ht' Hxt'. apply Hmin, list_elem_of_filter.
    split; [apply bool_decide_pack; exact Hxt'|exact Ht'].
Qed.

Lemma is_natural_endpoint_spec (ep : inet_address) (eps : list inet_address) :
  is_natural_endpoint ep eps = true <-> ep ∈ eps.
Proof.
  induction eps as [|a rest IH]; simpl.
  - split; [discriminate|intros H; inversion H].
  - destruct (N.eqb_spec a ep) as [->|Hne].
    + split; [left|reflexivity].
    + rewrite IH, elem_of_cons. split; [auto|].
      intros [H|H]; [congruence|exact H].
Qed.

Lemma is_primary_endpoint_spec (ep : inet_address) (eps : list inet_address) :
  is_primary_endpoint ep eps = true <-> head eps = Some ep.
Proof.
  destruct eps as [|a rest]; simpl.
  - split; discriminate.
  - rewrite N.eqb_eq. split; congruence.
Qed.

(** X21.  On a ring of strictly ascending tokens, the ranges that
    [get_ranges] returns for an endpoint contain exactly the tokens whose
    owner on the ring (the first ring token at or after them, wrapping
    around to the smallest) has the endpoint among its natural endpoints. *)
Theorem get_ranges_are_the_replicated_ranges (sorted_tokens : list token)
    (ep : inet_address) (ranges : list token_range) (x : token) :
  strictly_ascending sorted_tokens ->
  get_ranges calculate_natural_endpoints sorted_tokens ep = Some ranges ->
  (covers ranges x = true <->
   exists t, ring_owner sorted_tokens x t /\
             ep ∈ calculate_natural_endpoints t).
Proof.
  intros Hasc Hget. unfold get_ranges in Hget.
  destruct (last sorted_tokens) as [back|] eqn:Hlast; [|discriminate].
  inversion Hget; subst ranges. clear Hget.
  rewrite covers_spec. split.
  - intros (r & Hin & Hc).
    apply for_each_token_elem in Hin as [Hin|(p & t & Hin & Hsel & Hr)];
      [inversion Hin|].
    exists t. split; [|apply is_natural_endpoint_spec, Hsel].
    apply (steps_ring_owner sorted_tokens back x t Hasc Hlast).
    exists p, r. auto.
  - intros (t & Hown & Hep).
    apply (steps_ring_owner sorted_tokens back x t Hasc Hlast) in Hown
      as (p & r & Hin & Hr & Hc).
    exists r. split; [|exact Hc].
    apply for_each_token_elem. right. exists p, t.
    split; [exact Hin|]. split; [|exact Hr].
    apply is_natural_endpoint_spec, Hep.
Qed.

(** X22.  The primary ranges divide the ring among the endpoints: on a
    ring of strictly ascending tokens, each with at least one natural
    endpoint, every token value is in the primary ranges of one endpoint,
    the first natural endpoint of its owner, and of no other. *)
Theorem primary_ranges_divide_the_ring (sorted_tokens : list token)
    (x : token) :
  strictly_ascending sorted_tokens ->
  sorted_tokens <> [] ->
  (forall t, t ∈ sorted_tokens -> calculate_natural_endpoints t <> []) ->
  exists ep,
    (exists t, ring_owner sorted_tokens x t /\
               head (calculate_natural_endpoints t) = Some ep) /\
    forall ep' ranges,
      get_primary_ranges calculate_natural_endpoints sorted_tokens ep'
        = Some ranges ->
      (covers ranges x = true <-> ep' = ep).
Proof.
  intros Hasc Hne Heps.
  destruct (ring_owner_exists sorted_tokens x Hne) as (t & Hown).
  destruct (calculate_natural_endpoints t) as [|ep eps] eqn:Hcalc.
  { exfalso. apply (Heps t); [apply Hown|exact Hcalc]. }
  exists ep. split.
  { exists t. rewrite Hcalc. auto. }
  intros ep' ranges Hget. unfold get_primary_ranges in Hget.
  destruct (last sorted_tokens) as [back|] eqn:Hlast; [|discriminate].
  inversion Hget; subst ranges. clear Hget.
  rewrite covers_spec. split.
  - intros (r & Hin & Hc).
    apply for_each_token_elem in Hin as [Hin|(p & t' & Hin & Hsel & Hr)];
      [inversion Hin|].
    assert (Hown' : ring_owner sorted_tokens x t').
    { apply (steps_ring_owner sorted_tokens back x t' Hasc Hlast).
      exists p, r. auto. }
    rewrite (ring_owner_unique _ _ _ _ Hown' Hown) in Hsel.
    apply is_primary_endpoint_spec in Hsel. rewrite Hcalc in Hsel.
    simpl in Hsel. congruence.
  - intros ->.
    apply (steps_ring_owner sorted_tokens back x t Hasc Hlast) in Hown
      as (p & r & Hin & Hr & Hc).
    exists r. split; [|exact Hc].
    apply for_each_token_elem. right. exists p, t.
    split; [exact Hin|]. split; [|exact Hr].
    apply is_primary_endpoint_spec. rewrite Hcalc. reflexivity.
Qed.

(** X23.  The primary ranges of an endpoint are among its ranges, on any
    token vector. *)
Theorem primary_ranges_are_ranges (sorted_tokens : list token)
    (ep : inet_address) (primary : list token_range) :
  get_primary_ranges calculate_natural_endpoints sorted_tokens ep
    = Some primary ->
  exists ranges,
    get_ranges calculate_natural_endpoints sorted_tokens ep = Some ranges /\
    forall r, r ∈ primary -> r ∈ ranges.
Proof.
  unfold get_primary_ranges, get_ranges.
  destruct (last sorted_tokens) as [back|]; [|discriminate].
  intros Hget. inversion Hget; subst primary. clear Hget.
  eexists. split; [reflexivity|].
  intros r Hin.
  apply for_each_token_elem in Hin as [Hin|(p & t & Hin & Hsel & Hr)];
    [inversion Hin|].
  apply for_each_token_elem. right. exists p, t.
  split; [exact Hin|]. split; [|exact Hr].
  apply is_natural_endpoint_spec.
  apply is_primary_endpoint_spec in Hsel.
  destruct (calculate_natural_endpoints t); [discriminate|].
  simpl in Hsel. inversion Hsel. left.
Qed.

End replication_strategy_properties.

Section replication_strategy_scenarios.
Import sstable_filter replication_strategy.

Lemma get_ranges_are_the_replicated_ranges_witness :
  covers (for_each_token (fun tok => is_natural_endpoint 2%N (two_replicas tok))
            30%Z ring []) 35%Z = true <->
  exists t, ring_owner ring 35%Z t /\ 2%N ∈ two_replicas t.
Proof.
  apply (get_ranges_are_the_replicated_ranges two_replicas ring 2%N).
  - simpl. repeat split; repeat constructor; lia.
  - reflexivity.
Defined.

Lemma primary_ranges_divide_the_ring_witness :
  exists ep,
    (exists t, ring_owner ring 15%Z t /\ head (two_replicas t) = Some ep) /\
    forall ep' ranges,
      get_primary_ranges two_replicas ring ep' = Some ranges ->
      (covers ranges 15%Z = true <-> ep' = ep).
Proof.
  apply (primary_ranges_divide_the_ring two_replicas ring 15%Z).
  - simpl. repeat split; repeat constructor; lia.
  - discriminate.
  - intros t _. unfold two_replicas. destruct (t =? 20)%Z; discriminate.
Defined.

Lemma primary_ranges_are_ranges_witness :
  exists ranges,
    get_ranges two_replicas ring 2%N = Some ranges /\
    forall r, r ∈ for_each_token
                    (fun tok => is_primary_endpoint 2%N (two_replicas tok))
                    30%Z ring [] -> r ∈ ranges.
Proof.
  apply (primary_ranges_are_ranges two_replicas ring 2%N).
  reflexivity.
Defined.

End replication_strategy_scenarios.

(** ** The replication factor; the endpoint cache *)

Section replication_factor.
Import replication_strategy.

Variable sstring : Type.
Variable stol : sstring -> stol_error + Z.

(** X24.  [validate_replication_factor] accepts exactly the strings that
    [std::stol] reads as a number that is not negative.  Whatever else it is
    given, a negative number included, it reports that the replication factor
    must be numeric: the exception that says it must be non-negative is
    caught by the function's own handler and never leaves it. *)
Theorem validate_replication_factor_reports_numeric (rf : sstring) :
  (validate_replication_factor sstring stol rf = None <->
   exists n, stol rf = inr n /\ (0 <= n)%Z) /\
  (forall e, validate_replication_factor sstring stol rf = Some e ->
             e = configuration_exception must_be_numeric rf).
Proof.
  unfold validate_replication_factor.
  destruct (stol rf) as [e|n] eqn:Hstol.
  - split.
    + split; [discriminate|]. intros (n & Hn & _). discriminate.
    + intros e' H. inversion H. reflexivity.
  - destruct (Z.ltb_spec n 0) as [Hneg|Hpos].
    + split.
      * split; [discriminate|]. intros (m & Hm & Hle). inversion Hm. lia.
      * intros e' H. inversion H. reflexivity.
    + split.
      * split; [intros _; exists n; auto|reflexivity].
      * intros e' H. discriminate.
Qed.

End replication_factor.

Section endpoint_cache.
Import replication_strategy.

Variable token_metadata : Type.
Variable ops : token_metadata_ops token_metadata.
Variable calculate_natural_endpoints : token -> token_metadata -> list inet_address.

(** Every change of the token metadata changes its ring version. *)
Hypothesis ring_version_tells :
  forall tm tm', get_ring_version ops tm = get_ring_version ops tm' -> tm = tm'.

(** The natural endpoints of a token are those of the ring token that
    owns it. *)
Hypothesis endpoints_by_first_token :
  forall tm t t', first_token ops tm t = first_token ops tm t' ->
    calculate_natural_endpoints t tm = calculate_natural_endpoints t' tm.

Lemma get_natural_endpoints_step (tm : token_metadata) (search_token : token)
    (s : strategy) :
  cache_is_current token_metadata ops calculate_natural_endpoints s ->
  (get_natural_endpoints token_metadata ops calculate_natural_endpoints
     tm search_token s).1 = calculate_natural_endpoints search_token tm /\
  cache_is_current token_metadata ops calculate_natural_endpoints
    (get_natural_endpoints token_metadata ops calculate_natural_endpoints
       tm search_token s).2.
Proof.
  intros Hinv. unfold get_natural_endpoints.
  assert (H1 : cache_is_current token_metadata ops calculate_natural_endpoints
                 (get_cached_endpoints token_metadata ops tm s) /\
               _last_invalidated_ring_version
                 (get_cached_endpoints token_metadata ops tm s)
               = get_ring_version ops tm).
  { unfold get_cached_endpoints.
    destruct (N.eqb_spec (_last_invalidated_ring_version s)
                (get_ring_version ops tm)) as [Heq|Hne]; simpl.
    - split; [exact Hinv|exact Heq].
    - split; [|reflexivity]. intros k v Hk. simpl in Hk.
      rewrite lookup_empty in Hk. discriminate. }
  destruct H1 as [Hinv1 Hver].
  destruct (get_cached_endpoints token_metadata ops tm s) as [cache ver hits].
  simpl in *. subst ver.
  destruct (cache !! first_token ops tm search_token) as [res|] eqn:Hlook; simpl.
  - split.
    + symmetry. eapply Hinv1; [exact Hlook|reflexivity|reflexivity].
    + intros k v Hk tm' t' Hv Ht. simpl in *.
      eapply Hinv1; eassumption.
  - split; [reflexivity|].
    intros k v Hk tm' t' Hv Ht. simpl in *.
    destruct (decide (k = first_token ops tm search_token)) as [->|Hne].
    + rewrite lookup_insert_eq in Hk. inversion Hk; subst v.
      apply ring_version_tells in Hv. subst tm'.
      apply endpoints_by_first_token. exact Ht.
    + rewrite lookup_insert_ne in Hk by congruence.
      eapply Hinv1; eassumption.
Qed.

(** X25.  The endpoint cache never answers with stale endpoints: when the
    ring version tells the token metadata apart and the natural endpoints of
    a token are those of the ring token that owns it, every lookup of a
    sequence, on a strategy whose cache is current, returns what
    [calculate_natural_endpoints] gives for the searched token on the token
    metadata of that lookup, whether it is answered from the cache or not. *)
Theorem get_natural_endpoints_is_coherent
    (calls : list (token_metadata * token)) (s : strategy) :
  cache_is_current token_metadata ops calculate_natural_endpoints s ->
  (lookups token_metadata ops calculate_natural_endpoints calls s).1
    = map (fun c => calculate_natural_endpoints c.2 c.1) calls /\
  cache_is_current token_metadata ops calculate_natural_endpoints
    (lookups token_metadata ops calculate_natural_endpoints calls s).2.
Proof.
  revert s. induction calls as [|[tm t] rest IH]; intros s Hinv; simpl.
  - split; [reflexivity|exact Hinv].
  - destruct (get_natural_endpoints_step tm t s Hinv) as [Hres Hinv1].
    destruct (get_natural_endpoints token_metadata ops
                calculate_natural_endpoints tm t s) as [endpoints s1].
    simpl in *. destruct (IH s1 Hinv1) as [Hmore Hinv2].
    destruct (lookups token_metadata ops calculate_natural_endpoints rest s1)
      as [more s2]. simpl in *.
    split; [congruence|exact Hinv2].
Qed.

End endpoint_cache.

Section endpoint_cache_scenario.
Import replication_strategy.

Lemma get_natural_endpoints_is_coherent_witness :
  (lookups N versioned_ops versioned_endpoints
     [(1%N, 50%Z); (1%N, 70%Z); (2%N, 150%Z); (2%N, 50%Z)] new_strategy).1
  = [[2%N]; [2%N]; [2%N]; [2%N]].
Proof.
  destruct (get_natural_endpoints_is_coherent N versioned_ops versioned_endpoints)
    with (calls := [(1%N, 50%Z); (1%N, 70%Z); (2%N, 150%Z); (2%N, 50%Z)])
         (s := new_strategy) as [H _].
  - intros tm tm' H. exact H.
  - intros tm t t'. unfold versioned_ops, versioned_endpoints. simpl.
    destruct (t <=? 0)%Z eqn:E1; destruct (t' <=? 0)%Z eqn:E2;
      destruct (t <=? 100 * Z.of_N tm)%Z eqn:E3;
      destruct (t' <=? 100 * Z.of_N tm)%Z eqn:E4; try reflexivity; lia.
  - intros k v Hk. unfold new_strategy in Hk. simpl in Hk.
    rewrite lookup_empty in Hk. discriminate.
  - exact H.
Defined.

End endpoint_cache_scenario.

(** ** The shards a transfer task sends from *)

Section stream_transfer_task_properties.
Import sstable_filter replication_strategy stream_transfer_task.

Variable shard_of : token -> N.
Variable smp_count : N.

(** The partitioner gives consecutive token ranges to the shards. *)
Hypothesis shard_of_monotone :
  forall t t', (t <= t')%Z -> (shard_of t <= shard_of t')%N.
Hypothesis shard_of_bounded : forall t, (shard_of t < smp_count)%N.
Hypothesis smp_count_is_unsigned : (smp_count < 2 ^ 32)%N.

Lemma irange_spec (first last x : N) :
  x ∈ irange first last <-> (first <= x < last)%N.
Proof.
  unfold irange. rewrite list_elem_of_fmap. split.
  - intros (n & -> & Hn). apply elem_of_seq in Hn. lia.
  - intros Hx. exists (N.to_nat x). split; [lia|].
    apply elem_of_seq. lia.
Qed.

(** X26.  With a partitioner that gives consecutive token ranges to the
    shards, the shards that a transfer task sends a range from include the
    shard of every token in the range. *)
Theorem shard_range_has_every_owner (range : token_range) (x : token) :
  contains range x = true ->
  shard_of x ∈ shard_range shard_of smp_count range.
Proof using shard_of_monotone shard_of_bounded smp_count_is_unsigned.
  intros Hc. unfold shard_range. apply irange_spec.
  unfold contains in Hc. apply andb_true_iff in Hc as [Hs He].
  split.
  - destruct (range_start range) as [b|]; [|lia].
    apply shard_of_monotone. destruct (is_inclusive b); lia.
  - destruct (range_end range) as [b|]; [|apply shard_of_bounded].
    pose proof (shard_of_bounded (bound_value b)).
    rewrite N.mod_small by lia.
    assert (shard_of x <= shard_of (bound_value b))%N; [|lia].
    apply shard_of_monotone. destruct (is_inclusive b); lia.
Qed.

End stream_transfer_task_properties.

Section stream_transfer_task_scenario.
Import sstable_filter replication_strategy stream_transfer_task.

Lemma shard_range_has_every_owner_witness :
  three_shards 20 ∈ shard_range three_shards 3 from_minus_5_to_50.
Proof.
  apply (shard_range_has_every_owner three_shards 3).
  - intros t t' Hle. unfold three_shards.
    destruct (Z.ltb_spec t 0); destruct (Z.ltb_spec t' 0);
      destruct (Z.ltb_spec t 100); destruct (Z.ltb_spec t' 100); lia.
  - intros t. unfold three_shards.
    destruct (t <? 0)%Z; [|destruct (t <? 100)%Z]; lia.
  - lia.
  - reflexivity.
Defined.

End stream_transfer_task_scenario.

(** ** The size of a batch *)

Section batch_statement_properties.
Import batch_statement.

Lemma accept_partition (vs : list visited) :
  forall size, (size < 2 ^ 64)%N ->
  fold_left accept vs size
    = ((size + foldr N.add 0 (omap cell_size vs)) mod 2 ^ 64)%N.
Proof.
  induction vs as [|v vs IH]; intros size Hsize; simpl.
  - rewrite N.add_0_r, N.mod_small by exact Hsize. reflexivity.
  - assert (Hnz : (2 ^ 64 <> 0)%N) by lia.
    destruct v; simpl; try (apply IH; exact Hsize);
      (rewrite IH by (apply N.mod_upper_bound; exact Hnz));
      rewrite N.Div0.add_mod_idemp_l; f_equal;
      rewrite <- N.add_assoc; reflexivity.
Qed.

Lemma visit_all_sum (mutations : list mutation) :
  forall size, (size < 2 ^ 64)%N ->
  fold_left (fun size m => fold_left accept (partition m) size) mutations size
    = ((size + foldr N.add 0 (cell_sizes mutations)) mod 2 ^ 64)%N.
Proof.
  induction mutations as [|m rest IH]; intros size Hsize; simpl.
  - rewrite N.add_0_r, N.mod_small by exact Hsize. reflexivity.
  - assert (Hnz : (2 ^ 64 <> 0)%N) by lia.
    rewrite accept_partition by exact Hsize.
    rewrite IH by (apply N.mod_upper_bound; exact Hnz).
    rewrite N.Div0.add_mod_idemp_l. f_equal.
    unfold cell_sizes. simpl. rewrite foldr_app.
    fold (cell_sizes rest).
    assert (Hshift : forall (l : list N) (a : N),
              foldr N.add a l = (foldr N.add 0 l + a)%N).
    { induction l as [|y l IHl]; intros a; simpl; [lia|].
      rewrite IHl. lia. }
    rewrite (Hshift (omap cell_size (partition m))
               (foldr N.add 0%N (cell_sizes rest))). lia.
Qed.

Lemma sum_permutation (l l' : list N) :
  l ≡ₚ l' -> foldr N.add 0%N l = foldr N.add 0%N l'.
Proof.
  induction 1; simpl; lia.
Qed.

(** X27.  Whether [verify_batch_size] warns depends on the batch only
    through the sizes of its cells: two batches with the same cell sizes, in
    whatever order, in whatever mutations and with whatever tombstones and
    row markers beside them, either both raise the warning or both do not,
    and they report the same size. *)
Theorem verify_batch_size_counts_cells_only (warn_threshold : N)
    (mutations mutations' : list mutation) :
  cell_sizes mutations ≡ₚ cell_sizes mutations' ->
  batch_size <$> verify_batch_size warn_threshold mutations
    = batch_size <$> verify_batch_size warn_threshold mutations'.
Proof.
  intros Hperm. unfold verify_batch_size, visit_all.
  rewrite !visit_all_sum by lia.
  rewrite (sum_permutation _ _ Hperm).
  destruct (warn_threshold <? _)%N; reflexivity.
Qed.

Lemma verify_batch_size_counts_cells_only_witness :
  batch_size <$> verify_batch_size 1024 batch_a
    = batch_size <$> verify_batch_size 1024 batch_b.
Proof.
  apply (verify_batch_size_counts_cells_only 1024 batch_a batch_b).
  vm_compute. apply Permutation_swap.
Defined.

End batch_statement_properties.

(** ** The tables of a database, by id and by name *)

Section registry_properties.
Import registry.

Lemma after_keeps_consistent (db : database) (c : call) :
  consistent db -> consistent (after db c).
Proof.
  intros [Hname Hid]. destruct c as [name|name|s|ks cf]; simpl.
  - unfold add_keyspace. destruct (bool_decide _); split; assumption.
  - split; assumption.
  - unfold add_column_family.
    destruct (bool_decide (ks_name s ∈ _keyspaces db)); simpl;
      [|split; assumption].
    destruct (bool_decide_reflect (is_Some (_column_families db !! id s)))
      as [Hu|Hu]; [split; assumption|].
    destruct (bool_decide_reflect
                (is_Some (_ks_cf_to_uuid db !! (ks_name s, cf_name s))))
      as [Hn|Hn]; [split; assumption|].
    apply eq_None_not_Some in Hu, Hn.
    split; simpl.
    + intros ks cf uuid Hlook.
      destruct (decide ((ks, cf) = (ks_name s, cf_name s))) as [Heq|Hne].
      * rewrite Heq, lookup_insert_eq in Hlook. inversion Hlook; subst uuid.
        inversion Heq; subst. exists s. rewrite lookup_insert_eq. auto.
      * rewrite lookup_insert_ne in Hlook by congruence.
        destruct (Hname ks cf uuid Hlook) as (s' & Hs' & Hi & Hk & Hc).
        exists s'. rewrite lookup_insert_ne by congruence. auto.
    + intros uuid s' Hlook.
      destruct (decide (uuid = id s)) as [->|Hne].
      * rewrite lookup_insert_eq in Hlook. inversion Hlook; subst s'.
        rewrite lookup_insert_eq. auto.
      * rewrite lookup_insert_ne in Hlook by congruence.
        destruct (Hid uuid s' Hlook) as [Hi Hn'].
        split; [exact Hi|]. rewrite lookup_insert_ne; [exact Hn'|].
        intros Heq. rewrite <- Heq in Hn'. congruence.
  - unfold drop_column_family, find_uuid.
    destruct (_ks_cf_to_uuid db !! (ks, cf)) as [uuid|] eqn:Hlook;
      [|split; assumption].
    destruct (bool_decide (ks ∈ _keyspaces db)); simpl; [|split; assumption].
    destruct (_column_families db !! uuid) as [table|] eqn:Htable;
      [|split; assumption].
    destruct (Hid uuid table Htable) as [Hi Hn].
    destruct (Hname ks cf uuid Hlook) as (s0 & Hs0 & _ & Hk0 & Hc0).
    assert (s0 = table) by congruence. subst s0.
    split; simpl.
    + intros ks' cf' uuid' Hlook'.
      destruct (decide ((ks', cf') = (ks, cf))) as [Heq|Hne].
      * rewrite Heq, lookup_delete_eq in Hlook'. discriminate.
      * rewrite lookup_delete_ne in Hlook' by congruence.
        destruct (Hname ks' cf' uuid' Hlook') as (s' & Hs' & Hi' & Hk' & Hc').
        exists s'. split; [|auto].
        rewrite lookup_delete_ne; [exact Hs'|].
        intros ->. assert (s' = table) by congruence. subst s'.
        apply Hne. congruence.
    + intros uuid' s' Hlook'.
      destruct (decide (uuid' = uuid)) as [->|Hne].
      * rewrite lookup_delete_eq in Hlook'. discriminate.
      * rewrite lookup_delete_ne in Hlook' by congruence.
        destruct (Hid uuid' s' Hlook') as [Hi' Hn'].
        split; [exact Hi'|]. rewrite lookup_delete_ne; [exact Hn'|].
        intros Heq. rewrite <- Heq in Hn'. congruence.
Qed.

(** X28.  The table maps of a database stay consistent: after any sequence
    of [add_keyspace], [drop_keyspace], [add_column_family] and
    [drop_column_family] calls on an empty database, failed ones included,
    every name in the name map leads to a table registered under the id it
    gives, whose schema has that id and that name, and every registered table
    is found under its own name.  So no two names share a table and no name
    is left dangling after a drop. *)
Theorem table_maps_stay_consistent (calls : list call) :
  let db := after_all calls in
  (forall ks cf uuid, find_uuid db ks cf = inr uuid ->
     exists s, _column_families db !! uuid = Some s /\
               id s = uuid /\ ks_name s = ks /\ cf_name s = cf) /\
  (forall uuid s, _column_families db !! uuid = Some s ->
     id s = uuid /\ find_uuid db (ks_name s) (cf_name s) = inr uuid).
Proof.
  assert (Hall : forall db, consistent db -> consistent (fold_left after calls db)).
  { induction calls as [|c rest IH]; intros db Hdb; simpl; [exact Hdb|].
    apply IH, after_keeps_consistent, Hdb. }
  destruct (Hall empty_database) as [Hname Hid].
  { split; simpl; intros; rewrite lookup_empty in *; discriminate. }
  simpl. unfold after_all, find_uuid. split.
  - intros ks cf uuid Hf.
    destruct (_ks_cf_to_uuid _ !! (ks, cf)) as [u|] eqn:Hlook; [|discriminate].
    inversion Hf; subst u. apply Hname, Hlook.
  - intros uuid s Hs. destruct (Hid uuid s Hs) as [Hi Hn].
    rewrite Hn. auto.
Qed.

End registry_properties.
